(** * Request governor: Cache, RateLimiter, APIRateLimiter, GlobalRateLimiter

    A shallow embedding of the two utility classes of the generator that
    carry state: the TTL cache with its three eviction policies, and the
    token-bucket / sliding-window rate limiter with its API-aware subclass
    and its per-key registry.

    Conventions of the embedding.
    - Every call of [Date.now()] in the source is an explicit argument of
      the embedded method, in the order in which the source reads the
      clock.  Timestamps are integer milliseconds ([Z]).
    - A JavaScript [Map] is an insertion-ordered association list
      ([JsMap]), because the eviction scans depend on iteration order.
    - [null] / [undefined] results are [None].
    - The integer fields of the objects (limits, counts, timestamps) are
      JavaScript numbers that hold integers; sums and differences of such
      integers are exact in binary64 up to 2^53 and are written in [Z].
      Quotients and products are rounded as binary64 rounds them
      ([Num.round64]) wherever the code goes on to use the result; the two
      statistics [averageWaitTime] and [successRate] are kept as exact
      fractions.
    - Objects that are shared by reference (the limiters handed out by the
      registry) live in an explicit heap and are named by their address. *)

From Stdlib Require Import ZArith NArith QArith Qround Qminmax Qpower Qreduction Qabs.
From Stdlib Require Import String Ascii List Bool Lia Lqa.
From Stdlib Require Import DecimalString DecimalNat.
From stdpp Require Import base option list gmap strings.

Close Scope Q_scope.
Local Open Scope string_scope.
Local Open Scope Z_scope.

(** ** JavaScript values used by the classes *)

Module Js.

(** Outcome of a call that may throw. *)
Inductive result (A : Type) : Type :=
| Ok (a : A)
| Throw (msg : string).
Arguments Ok {A} a.
Arguments Throw {A} msg.

Definition threw {A} (r : result A) : bool :=
  match r with Throw _ => true | Ok _ => false end.

(** [x || d] on an optional number: [undefined] and [0] are falsy. *)
Definition num_or (x : option Z) (d : Z) : Z :=
  match x with
  | Some n => if n =? 0 then d else n
  | None => d
  end.

(** Truthiness of a string: only the empty string is falsy. *)
Definition truthy_str (s : string) : bool :=
  match s with EmptyString => false | String _ _ => true end.

(** [x || d] on an optional string. *)
Definition str_or (x : option string) (d : string) : string :=
  match x with
  | Some s => if truthy_str s then s else d
  | None => d
  end.

(** [k || null] and the test [if (k)] on a key that may be [null]. *)
Definition truthy_key (k : option string) : option string :=
  match k with
  | Some s => if truthy_str s then Some s else None
  | None => None
  end.

(** A string as a sequence of UTF-16 code units, and the code units of
    a literal. *)
Definition ustring := list N.

Fixpoint units (s : string) : ustring :=
  match s with
  | EmptyString => []
  | String c s' => N_of_ascii c :: units s'
  end.

(** A value read from a property, as far as the test [if (v)] and the
    conversion to a string can tell: [undefined], a string, or any other
    value, given by what [ToBoolean] and [ToString] make of it (a number,
    an array, a function; [ToString] throws for a symbol and for an
    object without a usable [toString]). *)
Inductive value : Type :=
| VUndefined
| VString (s : ustring)
| VOther (truthy : bool) (text : result ustring).

Definition truthy (v : value) : bool :=
  match v with
  | VUndefined => false
  | VString [] => false
  | VString (_ :: _) => true
  | VOther b _ => b
  end.

Definition to_string (v : value) : result ustring :=
  match v with
  | VUndefined => Ok (units "undefined")
  | VString s => Ok s
  | VOther _ text => text
  end.

(** An object as a property read [o[name]] sees it: its own data
    properties first, then those of each object on its prototype chain.
    The first object that has the name decides; a name found nowhere
    reads [undefined]. *)
Definition object := list (gmap string value).

Fixpoint get_property (name : string) (o : object) : value :=
  match o with
  | [] => VUndefined
  | props :: protos =>
      match props !! name with
      | Some v => v
      | None => get_property name protos
      end
  end.

(** A built-in function as a value: truthy, and its text starts with
    [function]. *)
Definition native (name : string) : value :=
  VOther true (Ok (units ("function " ++ name ++ "() { [native code] }"))).

(** The properties that every object literal inherits from
    [Object.prototype]. *)
Definition object_prototype : gmap string value :=
  list_to_map
    [("constructor", native "Object");
     ("hasOwnProperty", native "hasOwnProperty");
     ("isPrototypeOf", native "isPrototypeOf");
     ("propertyIsEnumerable", native "propertyIsEnumerable");
     ("toLocaleString", native "toLocaleString");
     ("toString", native "toString");
     ("valueOf", native "valueOf");
     ("__defineGetter__", native "__defineGetter__");
     ("__defineSetter__", native "__defineSetter__");
     ("__lookupGetter__", native "__lookupGetter__");
     ("__lookupSetter__", native "__lookupSetter__");
     ("__proto__", VOther true (Ok (units "[object Object]")))].

(** An object literal with the given own properties. *)
Definition literal (own : gmap string value) : object :=
  [own; object_prototype].

End Js.

(** ** Insertion-ordered maps with string keys (the JavaScript [Map]) *)

Module JsMap.
Section JsMap.
Context {V : Type}.

Definition t := list (string * V).

Definition empty : t := [].

Fixpoint get (k : string) (m : t) : option V :=
  match m with
  | [] => None
  | (k', v) :: m' => if String.eqb k k' then Some v else get k m'
  end.

Definition has (k : string) (m : t) : bool :=
  match get k m with Some _ => true | None => false end.

(** [Map.prototype.set]: an existing key keeps its position, a new key
    goes last. *)
Fixpoint set (k : string) (v : V) (m : t) : t :=
  match m with
  | [] => [(k, v)]
  | (k', v') :: m' =>
      if String.eqb k k' then (k, v) :: m' else (k', v') :: set k v m'
  end.

(** [Map.prototype.delete]: no entry for [k] remains. *)
Definition delete (k : string) (m : t) : t :=
  List.filter (fun kv => negb (String.eqb k (fst kv))) m.

Definition size (m : t) : Z := Z.of_nat (length m).

Definition keys (m : t) : list string := map fst m.

End JsMap.
Arguments t : clear implicits.
End JsMap.

(** ** Cache *)

Module Cache.
Section Cache.
Context {V : Type}.

Record Item := mkItem { value : V; expiresAt : Z; createdAt : Z }.

Record Stats := mkStats
  { hits : N; misses : N; sets : N; deletes : N; evictions : N }.

Record t := mkCache
  { maxSize : Z;
    ttl : Z;
    strategy : string;
    data : JsMap.t Item;
    accessTimes : JsMap.t Z;
    accessCounts : JsMap.t N;
    insertionOrder : list string;
    stats : Stats }.

Record Options := mkOptions
  { opt_maxSize : option Z;
    opt_ttl : option Z;
    opt_strategy : option string }.

(** The object built by the constructor.  The periodic timer it starts
    runs [cleanup] below; the timer itself is part of the environment. *)
Definition new (options : Options) : t :=
  {| maxSize := Js.num_or (opt_maxSize options) 1000;
     ttl := Js.num_or (opt_ttl options) 300;
     strategy := Js.str_or (opt_strategy options) "lru";
     data := JsMap.empty;
     accessTimes := JsMap.empty;
     accessCounts := JsMap.empty;
     insertionOrder := [];
     stats := mkStats 0 0 0 0 0 |}.

(** The constructor as a call that could throw: its body has no
    [throw] statement, so it always completes with the new object. *)
Definition constructor (options : Options) : Js.result t :=
  Js.Ok (new options).

Definition with_stats (f : Stats -> Stats) (c : t) : t :=
  mkCache (maxSize c) (ttl c) (strategy c) (data c) (accessTimes c)
          (accessCounts c) (insertionOrder c) (f (stats c)).

Definition inc_hits (s : Stats) : Stats :=
  mkStats (hits s + 1) (misses s) (sets s) (deletes s) (evictions s).
Definition inc_misses (s : Stats) : Stats :=
  mkStats (hits s) (misses s + 1) (sets s) (deletes s) (evictions s).
Definition inc_sets (s : Stats) : Stats :=
  mkStats (hits s) (misses s) (sets s + 1) (deletes s) (evictions s).
Definition inc_deletes (s : Stats) : Stats :=
  mkStats (hits s) (misses s) (sets s) (deletes s + 1) (evictions s).
Definition inc_evictions (s : Stats) : Stats :=
  mkStats (hits s) (misses s) (sets s) (deletes s) (evictions s + 1).

(** [insertionOrder.indexOf(key)] followed by [splice(index, 1)]:
    the first occurrence is removed, if there is one. *)
Fixpoint splice_first (key : string) (l : list string) : list string :=
  match l with
  | [] => []
  | k :: l' => if String.eqb key k then l' else k :: splice_first key l'
  end.

Definition includes (key : string) (l : list string) : bool :=
  existsb (String.eqb key) l.

Definition delete (key : string) (c : t) : bool * t :=
  if JsMap.has key (data c) then
    (true,
     mkCache (maxSize c) (ttl c) (strategy c)
             (JsMap.delete key (data c))
             (JsMap.delete key (accessTimes c))
             (JsMap.delete key (accessCounts c))
             (splice_first key (insertionOrder c))
             (inc_deletes (stats c)))
  else (false, c).

(** The scan of [findLRUKey]: [oldestTime] starts at the clock reading
    [now] and only a strictly older access time replaces it. *)
Fixpoint scanLRU (m : JsMap.t Z) (oldestTime : Z) (oldestKey : option string)
  : option string :=
  match m with
  | [] => oldestKey
  | (key, time) :: m' =>
      if time <? oldestTime then scanLRU m' time (Some key)
      else scanLRU m' oldestTime oldestKey
  end.

Definition findLRUKey (now : Z) (c : t) : option string :=
  scanLRU (accessTimes c) now None.

Definition findFIFOKey (c : t) : option string :=
  Js.truthy_key (head (insertionOrder c)).

(** The scan of [findLFUKey]: [lowestCount] starts at [Infinity]
    ([None]); only a strictly lower count replaces it. *)
Fixpoint scanLFU (m : JsMap.t N) (lowestCount : option N)
         (leastUsedKey : option string) : option string :=
  match m with
  | [] => leastUsedKey
  | (key, count) :: m' =>
      let lower :=
        match lowestCount with
        | None => true
        | Some lc => (count <? lc)%N
        end in
      if lower then scanLFU m' (Some count) (Some key)
      else scanLFU m' lowestCount leastUsedKey
  end.

Definition findLFUKey (c : t) : option string :=
  scanLFU (accessCounts c) None None.

(** The [switch] of [evict] over the strategy, with LRU as its
    [default]; [now] is the clock reading taken inside [findLRUKey]. *)
Definition keyToEvict (now : Z) (c : t) : option string :=
  if String.eqb (strategy c) "lru" then findLRUKey now c
  else if String.eqb (strategy c) "fifo" then findFIFOKey c
  else if String.eqb (strategy c) "lfu" then findLFUKey c
  else findLRUKey now c.

(** [evict]: a key that is [null] or falsy is not deleted. *)
Definition evict (now : Z) (c : t) : t :=
  match Js.truthy_key (keyToEvict now c) with
  | Some key => with_stats inc_evictions (snd (delete key c))
  | None => c
  end.

(** [set(key, value, customTtl)]; [now] is read on entry, [now_evict]
    is the reading of [findLRUKey] when an eviction is attempted. *)
Definition set (now now_evict : Z) (key : string) (v : V)
           (customTtl : option Z) (c : t) : bool * t :=
  let expires := now + Js.num_or customTtl (ttl c) * 1000 in
  let c1 :=
    if (JsMap.size (data c) >=? maxSize c) && negb (JsMap.has key (data c))
    then evict now_evict c else c in
  let order :=
    if includes key (insertionOrder c1) then insertionOrder c1
    else (insertionOrder c1 ++ [key])%list in
  (true,
   mkCache (maxSize c1) (ttl c1) (strategy c1)
           (JsMap.set key (mkItem v expires now) (data c1))
           (JsMap.set key now (accessTimes c1))
           (JsMap.set key 0%N (accessCounts c1))
           order
           (inc_sets (stats c1))).

(** [(this.accessCounts.get(key) || 0) + 1] *)
Definition bump (key : string) (m : JsMap.t N) : JsMap.t N :=
  JsMap.set key (match JsMap.get key m with Some n => n | None => 0%N end + 1)%N m.

(** [get(key)]; [now] is the reading of the expiry test, [now_access]
    the one stored as the access time.  [None] is the [null] result. *)
Definition get (now now_access : Z) (key : string) (c : t) : option V * t :=
  match JsMap.get key (data c) with
  | None => (None, with_stats inc_misses c)
  | Some item =>
      if now >? expiresAt item then
        (None, with_stats inc_misses (snd (delete key c)))
      else
        (Some (value item),
         mkCache (maxSize c) (ttl c) (strategy c) (data c)
                 (JsMap.set key now_access (accessTimes c))
                 (bump key (accessCounts c))
                 (insertionOrder c)
                 (inc_hits (stats c)))
  end.

Definition has (now : Z) (key : string) (c : t) : bool * t :=
  match JsMap.get key (data c) with
  | None => (false, c)
  | Some item =>
      if now >? expiresAt item then (false, snd (delete key c))
      else (true, c)
  end.

(** [cleanup], the body of the periodic sweep. *)
Definition cleanup (now : Z) (c : t) : t :=
  let expiredKeys :=
    JsMap.keys (List.filter (fun kv => now >? expiresAt (snd kv)) (data c)) in
  fold_left (fun c' key => snd (delete key c')) expiredKeys c.

Definition size (c : t) : Z := JsMap.size (data c).

(** A run of [set] calls, each with its clock readings. *)
Record SetCall := mkSetCall
  { sc_now : Z; sc_now_evict : Z; sc_key : string; sc_value : V;
    sc_ttl : option Z }.

Definition do_set (c : t) (call : SetCall) : t :=
  snd (set (sc_now call) (sc_now_evict call) (sc_key call) (sc_value call)
           (sc_ttl call) c).

Definition run_sets (calls : list SetCall) (c : t) : t :=
  fold_left do_set calls c.

(** The shape of a cache that the methods build: the three maps and
    [insertionOrder] list the same keys in the same order, each key once,
    and no key is the empty string. *)
Definition inv (c : t) : Prop :=
  JsMap.keys (data c) = insertionOrder c
  /\ JsMap.keys (accessTimes c) = insertionOrder c
  /\ JsMap.keys (accessCounts c) = insertionOrder c
  /\ NoDup (insertionOrder c)
  /\ Forall (fun k => Js.truthy_str k = true) (insertionOrder c).

(** What a call that adds no entry hands on to the next one. *)
Definition kept (c c' : t) : Prop :=
  inv c'
  /\ size c' <= size c
  /\ maxSize c' = maxSize c
  /\ strategy c' = strategy c.

(** The scan of the configured policy can come up with a victim at clock
    reading [now]: FIFO and LFU always can, the LRU scan (also taken for
    an unknown strategy) needs a stored access time older than [now]. *)
Definition victim_available (now : Z) (c : t) : Prop :=
  strategy c = "fifo" \/ strategy c = "lfu"
  \/ Exists (fun kt => snd kt < now) (accessTimes c).

(** A run of [set] calls on a clock that moves on: each call reads a time
    not before the previous call's, and the reading of an eviction scan
    is later than the previous call's. *)
Fixpoint clock_advances (last : Z) (calls : list SetCall) : Prop :=
  match calls with
  | [] => True
  | call :: rest =>
      last <= sc_now call /\ last < sc_now_evict call
      /\ clock_advances (sc_now call) rest
  end.

(** [clear()]: the counter of deletions grows by the number of entries. *)
Definition clear (c : t) : t :=
  mkCache (maxSize c) (ttl c) (strategy c)
          JsMap.empty JsMap.empty JsMap.empty []
          (mkStats (hits (stats c)) (misses (stats c)) (sets (stats c))
                   (deletes (stats c) + Z.to_N (JsMap.size (data c)))
                   (evictions (stats c))).

(** [touch(key, customTtl)]: there is no expiry test; [expiresAt] is
    assigned on the item object held by the map, which keeps its place
    and its other fields. *)
Definition touch (now : Z) (key : string) (customTtl : option Z) (c : t)
  : bool * t :=
  match JsMap.get key (data c) with
  | None => (false, c)
  | Some item =>
      (true,
       mkCache (maxSize c) (ttl c) (strategy c)
               (JsMap.set key
                  (mkItem (value item)
                          (now + Js.num_or customTtl (ttl c) * 1000)
                          (createdAt item))
                  (data c))
               (JsMap.set key now (accessTimes c))
               (accessCounts c)
               (insertionOrder c)
               (stats c))
  end.

(** The object returned by [getWithMetadata]; the last two fields are
    read back from the tracking maps. *)
Record Metadata := mkMetadata
  { md_value : V;
    md_createdAt : Z;
    md_expiresAt : Z;
    md_accessCount : option N;
    md_lastAccessed : option Z }.

(** [getWithMetadata(key)]; the clock readings are those of [get]. *)
Definition getWithMetadata (now now_access : Z) (key : string) (c : t)
  : option Metadata * t :=
  match JsMap.get key (data c) with
  | None => (None, c)
  | Some item =>
      if now >? expiresAt item then (None, snd (delete key c))
      else
        let times := JsMap.set key now_access (accessTimes c) in
        let counts := bump key (accessCounts c) in
        (Some (mkMetadata (value item) (createdAt item) (expiresAt item)
                          (JsMap.get key counts) (JsMap.get key times)),
         mkCache (maxSize c) (ttl c) (strategy c) (data c)
                 times counts (insertionOrder c) (stats c))
  end.

Definition with_maxSize (newMaxSize : Z) (c : t) : t :=
  mkCache newMaxSize (ttl c) (strategy c) (data c) (accessTimes c)
          (accessCounts c) (insertionOrder c) (stats c).

(** The loop [while (this.data.size > this.maxSize) this.evict()] of
    [setMaxSize].  [clock i] is the clock reading of the [i]-th round;
    [fuel] bounds the number of rounds and [None] says that the loop was
    still running when the fuel was used up. *)
Fixpoint evict_while_over (fuel : nat) (clock : nat -> Z) (round : nat) (c : t)
  : option t :=
  if JsMap.size (data c) >? maxSize c then
    match fuel with
    | O => None
    | S fuel' => evict_while_over fuel' clock (S round) (evict (clock round) c)
    end
  else Some c.

Definition setMaxSize (fuel : nat) (clock : nat -> Z) (newMaxSize : Z) (c : t)
  : option t :=
  evict_while_over fuel clock 0 (with_maxSize newMaxSize c).

Definition isFull (c : t) : bool := JsMap.size (data c) >=? maxSize c.

Definition remainingCapacity (c : t) : Z := maxSize c - JsMap.size (data c).

(** A call of one of the methods that change the cache, with the clock
    readings it takes. *)
Inductive Call :=
| CallSet (now now_evict : Z) (key : string) (v : V) (customTtl : option Z)
| CallGet (now now_access : Z) (key : string)
| CallHas (now : Z) (key : string)
| CallDelete (key : string)
| CallClear
| CallCleanup (now : Z)
| CallTouch (now : Z) (key : string) (customTtl : option Z)
| CallGetWithMetadata (now now_access : Z) (key : string).

Definition do_call (c : t) (call : Call) : t :=
  match call with
  | CallSet now now_evict key v customTtl =>
      snd (set now now_evict key v customTtl c)
  | CallGet now now_access key => snd (get now now_access key c)
  | CallHas now key => snd (has now key c)
  | CallDelete key => snd (delete key c)
  | CallClear => clear c
  | CallCleanup now => cleanup now c
  | CallTouch now key customTtl => snd (touch now key customTtl c)
  | CallGetWithMetadata now now_access key =>
      snd (getWithMetadata now now_access key c)
  end.

Definition run_calls (calls : list Call) (c : t) : t :=
  fold_left do_call calls c.

(** The key of a [set] is not the empty string. *)
Definition sets_named_key (call : Call) : bool :=
  match call with
  | CallSet _ _ key _ _ => Js.truthy_str key
  | _ => true
  end.

(** The access time that a call stores, if it stores one. *)
Definition stored_time (call : Call) : option Z :=
  match call with
  | CallSet now _ _ _ _ => Some now
  | CallGet _ now_access _ => Some now_access
  | CallTouch now _ _ => Some now
  | CallGetWithMetadata _ now_access _ => Some now_access
  | _ => None
  end.

(** A run of calls on a clock that moves on: no call stores an access
    time before the last one stored, and the reading of an eviction scan
    is later than the last one stored. *)
Fixpoint calls_clock_advances (last : Z) (calls : list Call) : Prop :=
  match calls with
  | [] => True
  | call :: rest =>
      match stored_time call with
      | Some time =>
          last <= time
          /\ match call with
             | CallSet _ now_evict _ _ _ => last < now_evict
             | _ => True
             end
          /\ calls_clock_advances time rest
      | None => calls_clock_advances last rest
      end
  end.

End Cache.
Arguments t : clear implicits.
Arguments Item : clear implicits.
Arguments Metadata : clear implicits.
Arguments SetCall : clear implicits.
Arguments Call : clear implicits.
End Cache.

(** ** JavaScript numbers that may fail to be finite

    The limiter divides by configuration values and reads array slots that
    may be missing, so some of its numbers can be [NaN] or infinite.  A
    finite number is a fraction.  [add], [sub], [mul] and [div] are the
    exact operations; [mul64] and [div64] are the operations of the
    language, which round the exact result to the nearest binary64 number
    ([round64]).  There is no negative zero (every divisor in the code is
    an integer field). *)

Module Num.

Inductive t : Type :=
| Fin (q : Q)
| PInf
| NInf
| NaN.

Definition of_Z (z : Z) : t := Fin (inject_Z z).

Definition of_opt (x : option Z) : t :=
  match x with Some z => of_Z z | None => NaN end.

Definition neg (a : t) : t :=
  match a with
  | Fin q => Fin (- q)%Q
  | PInf => NInf
  | NInf => PInf
  | NaN => NaN
  end.

(** An infinity scaled by the sign of a finite factor. *)
Definition signed (inf : t) (q : Q) : t :=
  match (q ?= 0)%Q with
  | Gt => inf
  | Lt => neg inf
  | Eq => NaN
  end.

Definition add (a b : t) : t :=
  match a, b with
  | NaN, _ | _, NaN => NaN
  | Fin p, Fin q => Fin (p + q)%Q
  | PInf, NInf | NInf, PInf => NaN
  | PInf, _ | _, PInf => PInf
  | NInf, _ | _, NInf => NInf
  end.

Definition sub (a b : t) : t := add a (neg b).

Definition mul (a b : t) : t :=
  match a, b with
  | NaN, _ | _, NaN => NaN
  | Fin p, Fin q => Fin (p * q)%Q
  | Fin p, inf => signed inf p
  | inf, Fin q => signed inf q
  | PInf, PInf | NInf, NInf => PInf
  | PInf, NInf | NInf, PInf => NInf
  end.

Definition div (a b : t) : t :=
  match a, b with
  | NaN, _ | _, NaN => NaN
  | Fin p, Fin q =>
      if Qeq_bool q 0 then signed PInf p else Fin (p / q)%Q
  | Fin _, _ => Fin 0%Q
  | inf, Fin q => if Qeq_bool q 0 then inf else signed inf q
  | _, _ => NaN
  end.

(** Rounding to the nearest integer, ties to the even one. *)
Definition rne (y : Q) : Z :=
  let f := Qfloor y in
  match (y - inject_Z f ?= 1 # 2)%Q with
  | Lt => f
  | Gt => f + 1
  | Eq => if Z.even f then f else f + 1
  end.

(** [floor (log2 q)] of a positive fraction: the two logarithms of
    numerator and denominator give it up to one, the comparison
    settles it. *)
Definition binade (q : Q) : Z :=
  let l := Z.log2 (Qnum q) - Z.log2 (Z.pos (Qden q)) in
  if Qle_bool (2 ^ l) q then l else l - 1.

(** The binary64 number nearest to a positive fraction, ties to even:
    a significand of 53 bits, so the last place is [2 ^ (binade q - 52)],
    and not below [2 ^ (-1074)], the last place of the subnormal
    numbers; a result of [2 ^ 1024] or more is [Infinity]. *)
Definition round_pos (q : Q) : t :=
  let e := Z.max (binade q - 52) (-1074) in
  let r := (inject_Z (rne (q / 2 ^ e)) * 2 ^ e)%Q in
  if Qle_bool (2 ^ 1024) r then PInf else Fin (Qred r).

Definition round64 (q : Q) : t :=
  match (q ?= 0)%Q with
  | Eq => Fin 0
  | Gt => round_pos q
  | Lt => neg (round_pos (- q))
  end.

Definition round (a : t) : t :=
  match a with
  | Fin q => round64 q
  | other => other
  end.

(** [a * b] and [a / b] of the language. *)
Definition mul64 (a b : t) : t := round (mul a b).

Definition div64 (a b : t) : t := round (div a b).

(** [Math.floor] *)
Definition floor (a : t) : t :=
  match a with
  | Fin q => Fin (inject_Z (Qfloor q))
  | other => other
  end.

(** [Math.max] of two arguments; [Math.max(a, b, c)] is
    [max (max a b) c]. *)
Definition max (a b : t) : t :=
  match a, b with
  | NaN, _ | _, NaN => NaN
  | PInf, _ | _, PInf => PInf
  | NInf, x | x, NInf => x
  | Fin p, Fin q => Fin (Qmax p q)
  end.

(** Numbers are compared up to equality of fractions. *)
Definition eqv (a b : t) : Prop :=
  match a, b with
  | Fin p, Fin q => (p == q)%Q
  | PInf, PInf | NInf, NInf | NaN, NaN => True
  | _, _ => False
  end.

End Num.

(** ** RateLimiter *)

Module RateLimiter.

Record Stats := mkStats
  { totalRequests : N; rejectedRequests : N; averageWaitTime : Num.t }.

Record t := mkLimiter
  { requestsPerMinute : Z;
    burstLimit : Z;
    windowSizeMs : Z;
    tokens : Z;
    lastRefill : Z;
    requests : list Z;
    stats : Stats }.

Record Options := mkOptions
  { opt_requestsPerMinute : option Z;
    opt_burstLimit : option Z }.

Definition no_options : Options := mkOptions None None.

(** The object built by the constructor; [now] is its [Date.now()]. *)
Definition new (now : Z) (options : Options) : t :=
  let burst := Js.num_or (opt_burstLimit options) 10 in
  {| requestsPerMinute := Js.num_or (opt_requestsPerMinute options) 60;
     burstLimit := burst;
     windowSizeMs := 60000;
     tokens := burst;
     lastRefill := now;
     requests := [];
     stats := mkStats 0 0 (Num.of_Z 0) |}.

(** The constructor as a call that could throw: its body has no
    [throw] statement, so it always completes with the new object. *)
Definition constructor (now : Z) (options : Options) : Js.result t :=
  Js.Ok (new now options).

Definition with_bucket (tok last : Z) (s : t) : t :=
  mkLimiter (requestsPerMinute s) (burstLimit s) (windowSizeMs s)
            tok last (requests s) (stats s).

Definition with_requests (r : list Z) (s : t) : t :=
  mkLimiter (requestsPerMinute s) (burstLimit s) (windowSizeMs s)
            (tokens s) (lastRefill s) r (stats s).

Definition with_stats (st : Stats) (s : t) : t :=
  mkLimiter (requestsPerMinute s) (burstLimit s) (windowSizeMs s)
            (tokens s) (lastRefill s) (requests s) st.

(** [Math.floor((timePassed / this.windowSizeMs) * this.burstLimit)] *)
Definition tokensToAdd (now : Z) (s : t) : Num.t :=
  let timePassed := now - lastRefill s in
  Num.floor
    (Num.mul64 (Num.div64 (Num.of_Z timePassed) (Num.of_Z (windowSizeMs s)))
               (Num.of_Z (burstLimit s))).

(** [refillTokens(now)].  The guard [tokensToAdd > 0] passes for a
    positive finite count and for [+Infinity], and fails for [NaN]; for
    [+Infinity] the new count [Math.min(burstLimit, tokens + Infinity)]
    is [burstLimit]. *)
Definition refillTokens (now : Z) (s : t) : t :=
  match tokensToAdd now s with
  | Num.Fin k =>
      if Qle_bool k 0 then s
      else with_bucket (Z.min (burstLimit s) (tokens s + Qfloor k)) now s
  | Num.PInf => with_bucket (burstLimit s) now s
  | Num.NInf | Num.NaN => s
  end.

Definition cleanOldRequests (now : Z) (s : t) : t :=
  let cutoff := now - windowSizeMs s in
  with_requests (List.filter (fun timestamp => timestamp >? cutoff) (requests s)) s.

Definition canMakeRequest (s : t) : bool :=
  if tokens s <=? 0 then false
  else if Z.of_nat (length (requests s)) >=? requestsPerMinute s then false
  else true.

Definition consumeToken (s : t) : t :=
  with_bucket (Z.max 0 (tokens s - 1)) (lastRefill s) s.

(** The two local constants of [calculateWaitTime]. *)
Definition timeUntilNextToken (s : t) : Num.t :=
  if tokens s <=? 0
  then Num.div64 (Num.of_Z (windowSizeMs s)) (Num.of_Z (burstLimit s))
  else Num.of_Z 0.

Definition timeUntilWindowSlot (now : Z) (s : t) : Num.t :=
  if Z.of_nat (length (requests s)) >=? requestsPerMinute s
  then Num.sub (Num.add (Num.of_opt (head (requests s)))
                        (Num.of_Z (windowSizeMs s)))
               (Num.of_Z now)
  else Num.of_Z 0.

Definition calculateWaitTime (now : Z) (s : t) : Num.t :=
  Num.max (Num.max (timeUntilNextToken s) (timeUntilWindowSlot now s))
          (Num.of_Z 100).

Definition updateAverageWaitTime (waitTime : Num.t) (s : t) : t :=
  let totalWaits := Num.of_Z (Z.of_N (rejectedRequests (stats s))) in
  let avg :=
    Num.div
      (Num.add (Num.mul (averageWaitTime (stats s))
                        (Num.sub totalWaits (Num.of_Z 1)))
               waitTime)
      totalWaits in
  with_stats (mkStats (totalRequests (stats s)) (rejectedRequests (stats s)) avg) s.

Definition inc_total (s : t) : t :=
  with_stats (mkStats (totalRequests (stats s) + 1) (rejectedRequests (stats s))
                      (averageWaitTime (stats s))) s.

Definition inc_rejected (s : t) : t :=
  with_stats (mkStats (totalRequests (stats s)) (rejectedRequests (stats s) + 1)
                      (averageWaitTime (stats s))) s.

(** One admission attempt of [waitForToken].  On rejection the source
    arms a timer of [waitTime] milliseconds whose callback calls
    [waitForToken] again: the next attempt is a new call of this
    function at the time the timer fires. *)
Inductive attempt : Type :=
| Granted (s : t)
| Rejected (waitTime : Num.t) (s : t).

Definition waitForToken (now : Z) (s : t) : attempt :=
  let s1 := refillTokens now s in
  let s2 := cleanOldRequests now s1 in
  if canMakeRequest s2 then
    let s3 := consumeToken s2 in
    Granted (inc_total (with_requests (requests s3 ++ [now])%list s3))
  else
    let waitTime := calculateWaitTime now s2 in
    Rejected waitTime (updateAverageWaitTime waitTime (inc_rejected s2)).

(** [reset()]; [now] is its [Date.now()]. *)
Definition reset (now : Z) (s : t) : t :=
  mkLimiter (requestsPerMinute s) (burstLimit s) (windowSizeMs s)
            (burstLimit s) now [] (mkStats 0 0 (Num.of_Z 0)).

(** The argument of [updateLimits]: a field is left out ([undefined]) or
    given; the test is [!== undefined], so a given zero counts. *)
Record Limits := mkLimits
  { new_requestsPerMinute : option Z;
    new_burstLimit : option Z }.

Definition updateLimits (options : Limits) (s : t) : t :=
  let rpm :=
    match new_requestsPerMinute options with
    | Some n => n
    | None => requestsPerMinute s
    end in
  match new_burstLimit options with
  | Some b =>
      mkLimiter rpm b (windowSizeMs s) (Z.min (tokens s) b)
                (lastRefill s) (requests s) (stats s)
  | None =>
      mkLimiter rpm (burstLimit s) (windowSizeMs s) (tokens s)
                (lastRefill s) (requests s) (stats s)
  end.

(** [canMakeRequestNow()]: the answer and the limiter after the refill
    and the pruning it performs. *)
Definition canMakeRequestNow (now : Z) (s : t) : bool * t :=
  let s2 := cleanOldRequests now (refillTokens now s) in
  (canMakeRequest s2, s2).

Record Status := mkStatus
  { tokensAvailable : Z;
    maxTokens : Z;
    requestsInWindow : Z;
    maxRequestsPerWindow : Z;
    statusWindowSizeMs : Z;
    statusCanMakeRequest : bool;
    estimatedWaitTime : Num.t }.

Definition getStatus (now : Z) (s : t) : Status * t :=
  let s2 := cleanOldRequests now (refillTokens now s) in
  ({| tokensAvailable := tokens s2;
      maxTokens := burstLimit s2;
      requestsInWindow := Z.of_nat (length (requests s2));
      maxRequestsPerWindow := requestsPerMinute s2;
      statusWindowSizeMs := windowSizeMs s2;
      statusCanMakeRequest := canMakeRequest s2;
      estimatedWaitTime :=
        if canMakeRequest s2 then Num.of_Z 0 else calculateWaitTime now s2 |},
   s2).

(** The field [successRate] of [getStats()]. *)
Definition successRate (s : t) : Num.t :=
  let total := Z.of_N (totalRequests (stats s)) in
  let rejected := Z.of_N (rejectedRequests (stats s)) in
  if total >? 0
  then Num.mul (Num.div (Num.of_Z (total - rejected)) (Num.of_Z total))
               (Num.of_Z 100)
  else Num.of_Z 100.

Definition state_of (a : attempt) : t :=
  match a with Granted s => s | Rejected _ s => s end.

Definition granted (a : attempt) : bool :=
  match a with Granted _ => true | Rejected _ _ => false end.

(** A history of admission attempts at the given clock readings, whoever
    made them: the limiter at the end and the readings of the attempts
    that were granted, oldest first. *)
Fixpoint attempts (times : list Z) (s : t) : t * list Z :=
  match times with
  | [] => (s, [])
  | now :: rest =>
      let a := waitForToken now s in
      let (s', later) := attempts rest (state_of a) in
      (s', if granted a then now :: later else later)
  end.

(** The clock readings of a history never go back, starting at [from]. *)
Fixpoint clock_monotone (from : Z) (times : list Z) : Prop :=
  match times with
  | [] => True
  | now :: rest => from <= now /\ clock_monotone now rest
  end.

(** A run of rejections: each wait enters the running average. *)
Definition record_wait (s : t) (waitTime : Num.t) : t :=
  updateAverageWaitTime waitTime (inc_rejected s).

(** The refill rule in the words of the specification: the bucket
    gains the whole tokens earned since [lastRefill], and [lastRefill]
    moves forward by the time those tokens took to earn, so the
    fraction of a token already earned is kept.  Stated for a positive
    window and burst limit. *)
Definition spec_tokensEarned (now : Z) (s : t) : Z :=
  ((now - lastRefill s) * burstLimit s) / windowSizeMs s.

Definition spec_lastRefill (now : Z) (s : t) : Q :=
  (inject_Z (lastRefill s)
   + inject_Z (spec_tokensEarned now s)
     * (inject_Z (windowSizeMs s) / inject_Z (burstLimit s)))%Q.

End RateLimiter.

(** ** The built-in [parseInt] on a string, radix argument omitted

    Leading white space is skipped (the white-space and line-terminator
    code points of the language), then an optional sign, then the prefix
    [0x] / [0X] selects radix 16, otherwise radix 10; the longest run of
    digits is read and anything after it is ignored.  No digit at all
    gives [NaN]; otherwise the result is the binary64 number nearest to
    the integer read (the licence to drop decimal digits after the 20th
    is not taken). *)

Module ParseInt.

(** TAB, LF, VT, FF, CR, SP, NBSP, U+1680, U+2000 to U+200A, LS, PS,
    U+202F, U+205F, U+3000 and U+FEFF. *)
Definition is_space (u : N) : bool :=
  ((9 <=? u) && (u <=? 13) || (u =? 32) || (u =? 160) || (u =? 5760)
   || (8192 <=? u) && (u <=? 8202) || (u =? 8232) || (u =? 8233)
   || (u =? 8239) || (u =? 8287) || (u =? 12288) || (u =? 65279))%N.

Fixpoint trim_start (s : Js.ustring) : Js.ustring :=
  match s with
  | u :: s' => if is_space u then trim_start s' else s
  | [] => []
  end.

Definition digit_value (radix : Z) (u : N) : option Z :=
  let n := Z.of_N u in
  let v :=
    if (48 <=? n) && (n <=? 57) then Some (n - 48)
    else if (97 <=? n) && (n <=? 122) then Some (n - 87)
    else if (65 <=? n) && (n <=? 90) then Some (n - 55)
    else None in
  match v with
  | Some d => if d <? radix then Some d else None
  | None => None
  end.

(** The digits read so far are [acc]; [None] while none was read. *)
Fixpoint digits (radix : Z) (s : Js.ustring) (acc : option Z) : option Z :=
  match s with
  | u :: s' =>
      match digit_value radix u with
      | Some d =>
          digits radix s' (Some (radix * match acc with Some a => a | None => 0 end + d))
      | None => acc
      end
  | [] => acc
  end.

(** A leading [-] (45) or [+] (43). *)
Definition split_sign (s : Js.ustring) : Z * Js.ustring :=
  match s with
  | 45%N :: r => (-1, r)
  | 43%N :: r => (1, r)
  | _ => (1, s)
  end.

(** A leading [0x] (48, 120) or [0X] (48, 88). *)
Definition split_radix (s : Js.ustring) : Z * Js.ustring :=
  match s with
  | 48%N :: 120%N :: r => (16, r)
  | 48%N :: 88%N :: r => (16, r)
  | _ => (10, s)
  end.

Definition parseInt (s : Js.ustring) : Num.t :=
  let (sign, s1) := split_sign (trim_start s) in
  let (radix, s2) := split_radix s1 in
  match digits radix s2 None with
  | Some mathInt => Num.round64 (inject_Z (sign * mathInt))
  | None => Num.NaN
  end.

(** The decimal numeral of a natural number, as a server writes a
    delay in seconds. *)
Definition decimal (n : nat) : Js.ustring :=
  Js.units (NilZero.string_of_uint (Nat.to_uint n)).

End ParseInt.

(** ** APIRateLimiter *)

Module APIRateLimiter.

Record t := mkAPI
  { base : RateLimiter.t;
    endpoint : string;
    retryAfterHeader : string }.

Record Options := mkOptions
  { opt_base : RateLimiter.Options;
    opt_endpoint : option string;
    opt_retryAfterHeader : option string }.

Definition new (now : Z) (options : Options) : t :=
  {| base := RateLimiter.new now (opt_base options);
     endpoint := Js.str_or (opt_endpoint options) "unknown";
     retryAfterHeader := Js.str_or (opt_retryAfterHeader options) "Retry-After" |}.

(** A response as the limiter reads it: [response.status] and
    [response.headers], which is an object or is missing ([None]:
    [undefined] or [null]). *)
Record Response := mkResponse
  { status : Z;
    headers : option Js.object }.

(** [handleRateLimitResponse(response)].  The call throws a
    [TypeError] when it has to read a header and there is no header
    object, or when the value found cannot be made a string.  Otherwise
    the first component is the promise it returns: [Some waitTime] for
    the promise resolved by [setTimeout(resolve, waitTime)], [None] for
    [Promise.resolve()]. *)
Definition handleRateLimitResponse (response : Response) (l : t)
  : Js.result (option Num.t * t) :=
  if status response =? 429 then
    match headers response with
    | None => Js.Throw "TypeError"
    | Some hs =>
        let retryAfter := Js.get_property (retryAfterHeader l) hs in
        if Js.truthy retryAfter then
          match Js.to_string retryAfter with
          | Js.Throw e => Js.Throw e
          | Js.Ok text =>
              let waitTime := Num.mul64 (ParseInt.parseInt text) (Num.of_Z 1000) in
              Js.Ok (Some waitTime,
                     mkAPI (RateLimiter.updateAverageWaitTime waitTime
                              (RateLimiter.inc_rejected (base l)))
                           (endpoint l) (retryAfterHeader l))
          end
        else Js.Ok (None, l)
    end
  else Js.Ok (None, l).

(** The inherited [waitForToken], which [makeRequest] awaits first, also
    when it re-enters itself after a 429 response. *)
Definition waitForToken (now : Z) (l : t) : RateLimiter.attempt :=
  RateLimiter.waitForToken now (base l).

End APIRateLimiter.

(** ** GlobalRateLimiter *)

Module GlobalRateLimiter.

(** Limiter objects are shared by reference: the heap holds the objects
    and [limiters] maps a key to the address of its limiter.  A new
    object takes the next free address. *)
Definition loc := nat.

Record t := mkGlobal
  { heap : list RateLimiter.t;
    limiters : gmap string loc }.

Definition constructor : t := mkGlobal [] ∅.

(** [getLimiter(key, options)]; [now] is the [Date.now()] of the
    [RateLimiter] constructor, read only when a limiter is created.
    The result is what [this.limiters.get(key)] returns. *)
Definition getLimiter (now : Z) (key : string) (options : RateLimiter.Options)
           (g : t) : option loc * t :=
  let g1 :=
    if bool_decide (is_Some (limiters g !! key)) then g
    else mkGlobal (heap g ++ [RateLimiter.new now options])%list
                  (<[key := length (heap g)]> (limiters g)) in
  (limiters g1 !! key, g1).

(** A method call on a limiter object obtained earlier: the object at
    that address is replaced by its new state. *)
Definition update (l : loc) (f : RateLimiter.t -> RateLimiter.t) (g : t) : t :=
  mkGlobal (alter f l (heap g)) (limiters g).

(** What a client may do between two lookups: look up another key or
    run a method on a limiter it holds. *)
Inductive action : Type :=
| Lookup (now : Z) (key : string) (options : RateLimiter.Options)
| Mutate (l : loc) (f : RateLimiter.t -> RateLimiter.t).

Definition step (g : t) (a : action) : t :=
  match a with
  | Lookup now key options => snd (getLimiter now key options g)
  | Mutate l f => update l f g
  end.

Definition run (acts : list action) (g : t) : t := fold_left step acts g.

(** [removeLimiter(key)]: the answer of [Map.prototype.delete].  The
    limiter object itself stays in the heap, where clients that obtained
    it earlier still reach it. *)
Definition removeLimiter (key : string) (g : t) : bool * t :=
  (bool_decide (is_Some (limiters g !! key)),
   mkGlobal (heap g) (base.delete key (limiters g))).

(** [clear()] *)
Definition clear (g : t) : t := mkGlobal (heap g) ∅.

(** [reset(key)]: nothing happens for an unknown key. *)
Definition reset (now : Z) (key : string) (g : t) : t :=
  match limiters g !! key with
  | Some l => update l (RateLimiter.reset now) g
  | None => g
  end.

(** [getStatus(key)]: [null] for an unknown key, otherwise the status of
    the limiter, which is refilled and pruned on the way. *)
Definition getStatus (now : Z) (key : string) (g : t)
  : option RateLimiter.Status * t :=
  match limiters g !! key with
  | Some l =>
      match heap g !! l with
      | Some s =>
          (Some (fst (RateLimiter.getStatus now s)),
           update l (fun _ => snd (RateLimiter.getStatus now s)) g)
      | None => (None, g)
      end
  | None => (None, g)
  end.

(** [waitForToken(key, options)]: one admission attempt on the limiter
    of the key, which is created first if need be.  [now_new] is the
    clock reading of the limiter's constructor, [now] that of the
    attempt.  The answer says whether the attempt was granted and, if
    not, how long the caller waits. *)
Definition waitForToken (now_new now : Z) (key : string)
           (options : RateLimiter.Options) (g : t)
  : option (bool * option Num.t) * t :=
  let (found, g1) := getLimiter now_new key options g in
  match found with
  | Some l =>
      match heap g1 !! l with
      | Some s =>
          let a := RateLimiter.waitForToken now s in
          (Some (RateLimiter.granted a,
                 match a with
                 | RateLimiter.Granted _ => None
                 | RateLimiter.Rejected w _ => Some w
                 end),
           update l (fun _ => RateLimiter.state_of a) g1)
      | None => (None, g1)
      end
  | None => (None, g1)
  end.

(** The registry is well formed when every registered address points to
    an object of the heap and no two keys share an address. *)
Definition wf (g : t) : Prop :=
  (forall k l, limiters g !! k = Some l -> (l < length (heap g))%nat)
  /\ (forall k1 k2 l,
        limiters g !! k1 = Some l -> limiters g !! k2 = Some l -> k1 = k2).

End GlobalRateLimiter.

(** ** FigmaService: the cache in front of the remote calls *)

Module FigmaService.
Section FigmaService.
Context {V : Type}.

(** Truthiness of a response body, as the test [if (cached)] sees it. *)
Variable truthy : V -> bool.

(** The clock readings of one call: the two of [cache.get] and the two
    of [cache.set]. *)
Record Clock := mkClock
  { at_get : Z; at_get_access : Z; at_set : Z; at_set_evict : Z }.

(** The body shared by [getLocalVariables], [getProjectFiles],
    [getComponentSets] and [getStyles], which differ in the cache key
    and in the address they request.  [response] is the outcome of
    [await this.client.get(...)], the data of the response or the error
    thrown by the client (whose interceptor waits for the rate limiter);
    the error is logged and thrown again.  The Boolean of the result
    says whether the remote call was made. *)
Definition through_cache (clock : Clock) (cacheKey : string)
           (response : Js.result V) (c : Cache.t V)
  : Js.result V * bool * Cache.t V :=
  let (cached, c1) := Cache.get (at_get clock) (at_get_access clock) cacheKey c in
  let fetch :=
    match response with
    | Js.Ok data =>
        (Js.Ok data, true,
         snd (Cache.set (at_set clock) (at_set_evict clock) cacheKey data None c1))
    | Js.Throw msg => (Js.Throw msg, true, c1)
    end in
  match cached with
  | Some v => if truthy v then (Js.Ok v, false, c1) else fetch
  | None => fetch
  end.

Definition getLocalVariables (clock : Clock) (fileKey : string) :=
  through_cache clock ("variables:" ++ fileKey).

Definition getProjectFiles (clock : Clock) (projectId : string) :=
  through_cache clock ("project:" ++ projectId).

Definition getComponentSets (clock : Clock) (fileKey : string) :=
  through_cache clock ("component-sets:" ++ fileKey).

Definition getStyles (clock : Clock) (fileKey : string) :=
  through_cache clock ("styles:" ++ fileKey).

(** [clearCache()] *)
Definition clearCache (c : Cache.t V) : Cache.t V := Cache.clear c.

End FigmaService.

(** The class [[a-zA-Z0-9]] of the pattern. *)
Definition is_alnum (ch : ascii) : bool :=
  let n := nat_of_ascii ch in
  ((48 <=? n) && (n <=? 57) || (65 <=? n) && (n <=? 90)
   || (97 <=? n) && (n <=? 122))%nat.

(** The greedy group [([a-zA-Z0-9]+)] read at the head of a string. *)
Fixpoint take_alnum (s : string) : string :=
  match s with
  | String ch s' => if is_alnum ch then String ch (take_alnum s') else EmptyString
  | EmptyString => EmptyString
  end.

Fixpoint strip_prefix (p s : string) : option string :=
  match p, s with
  | EmptyString, _ => Some s
  | String a p', String b s' => if Ascii.eqb a b then strip_prefix p' s' else None
  | String _ _, EmptyString => None
  end.

(** The pattern [/\/file\/([a-zA-Z0-9]+)/] tried at the head of a
    string: the group it captures, if it matches there. *)
Definition file_key_here (s : string) : option string :=
  match strip_prefix "/file/" s with
  | Some rest =>
      let key := take_alnum rest in
      if Js.truthy_str key then Some key else None
  | None => None
  end.

(** [figmaUrl.match(...)]: the leftmost position where the pattern
    matches decides. *)
Fixpoint match_file_key (url : string) : option string :=
  match file_key_here url with
  | Some key => Some key
  | None =>
      match url with
      | String _ url' => match_file_key url'
      | EmptyString => None
      end
  end.

Definition extractFileKeyFromUrl (figmaUrl : string) : Js.result string :=
  match match_file_key figmaUrl with
  | Some key => Js.Ok key
  | None => Js.Throw "Invalid Figma URL format"
  end.

End FigmaService.

(** * Properties *)

(** ** Maps *)

Section JsMapFacts.
Context {V : Type}.
Implicit Types (m : JsMap.t V) (k : string) (v : V).

Lemma jsmap_get_delete_eq k m : JsMap.get k (JsMap.delete k m) = None.
Proof.
  induction m as [|[k' v'] m IH]; simpl; [reflexivity|].
  destruct (String.eqb k k') eqn:E; simpl; [exact IH|].
  rewrite E. exact IH.
Qed.

Lemma jsmap_has_delete_eq k m : JsMap.has k (JsMap.delete k m) = false.
Proof. unfold JsMap.has. now rewrite jsmap_get_delete_eq. Qed.

Lemma jsmap_get_set_eq k v m : JsMap.get k (JsMap.set k v m) = Some v.
Proof.
  induction m as [|[k' v'] m IH]; simpl.
  - now rewrite String.eqb_refl.
  - destruct (String.eqb k k') eqn:E; simpl.
    + now rewrite String.eqb_refl.
    + now rewrite E.
Qed.

Lemma jsmap_get_set_ne k k' v m :
  k <> k' -> JsMap.get k' (JsMap.set k v m) = JsMap.get k' m.
Proof.
  intros Hne. induction m as [|[k0 v0] m IH]; simpl.
  - destruct (String.eqb k' k) eqn:E; [|reflexivity].
    apply String.eqb_eq in E. congruence.
  - destruct (String.eqb k k0) eqn:E; simpl.
    + apply String.eqb_eq in E. subst k0.
      destruct (String.eqb k' k) eqn:E'; [|reflexivity].
      apply String.eqb_eq in E'. congruence.
    + now rewrite IH.
Qed.

Lemma jsmap_keys_set_has k v m :
  JsMap.has k m = true -> JsMap.keys (JsMap.set k v m) = JsMap.keys m.
Proof.
  unfold JsMap.has. induction m as [|[k' v'] m IH]; simpl; [discriminate|].
  destruct (String.eqb k k') eqn:E; simpl; intros H.
  - apply String.eqb_eq in E. now subst.
  - now rewrite IH.
Qed.

Lemma jsmap_keys_set_new k v m :
  JsMap.has k m = false ->
  JsMap.keys (JsMap.set k v m) = (JsMap.keys m ++ [k])%list.
Proof.
  unfold JsMap.has. induction m as [|[k' v'] m IH]; simpl; [reflexivity|].
  destruct (String.eqb k k') eqn:E; simpl; [discriminate|].
  intros H. now rewrite IH.
Qed.

Lemma jsmap_has_in_keys k m :
  JsMap.has k m = true <-> In k (JsMap.keys m).
Proof.
  unfold JsMap.has. induction m as [|[k' v'] m IH]; simpl.
  - split; [discriminate|tauto].
  - destruct (String.eqb k k') eqn:E.
    + apply String.eqb_eq in E. subst. split; auto.
    + rewrite IH. apply String.eqb_neq in E. split; [auto|].
      intros [H|H]; [congruence|assumption].
Qed.

Lemma jsmap_keys_delete k m :
  JsMap.keys (JsMap.delete k m)
  = List.filter (fun k' => negb (String.eqb k k')) (JsMap.keys m).
Proof.
  induction m as [|[k' v'] m IH]; simpl; [reflexivity|].
  destruct (String.eqb k k'); simpl; now rewrite IH.
Qed.

Lemma jsmap_size_keys m : JsMap.size m = Z.of_nat (length (JsMap.keys m)).
Proof. unfold JsMap.size, JsMap.keys. now rewrite length_map. Qed.

End JsMapFacts.

(** ** Cache: lookups and expiry *)

Section CacheLookup.
Context {V : Type}.
Implicit Types (c : Cache.t V) (key : string) (item : Cache.Item V).

Lemma cache_delete_present key c :
  JsMap.has key (Cache.data c) = true ->
  Cache.delete key c
  = (true,
     Cache.mkCache (Cache.maxSize c) (Cache.ttl c) (Cache.strategy c)
       (JsMap.delete key (Cache.data c))
       (JsMap.delete key (Cache.accessTimes c))
       (JsMap.delete key (Cache.accessCounts c))
       (Cache.splice_first key (Cache.insertionOrder c))
       (Cache.inc_deletes (Cache.stats c))).
Proof. intros H. unfold Cache.delete. now rewrite H. Qed.

Lemma cache_get_has key c item :
  JsMap.get key (Cache.data c) = Some item ->
  JsMap.has key (Cache.data c) = true.
Proof. intros H. unfold JsMap.has. now rewrite H. Qed.

(** After [delete] no trace of the key is left in the three maps. *)
Lemma cache_delete_gone key c :
  JsMap.has key (Cache.data c) = true ->
  let c' := snd (Cache.delete key c) in
  JsMap.get key (Cache.data c') = None
  /\ JsMap.get key (Cache.accessTimes c') = None
  /\ JsMap.get key (Cache.accessCounts c') = None.
Proof.
  intros H. rewrite (cache_delete_present _ _ H). simpl.
  repeat split; apply jsmap_get_delete_eq.
Qed.

(** A hit of [get]: the stored value comes back, the access time is
    refreshed and the access count grows by one. *)
Lemma cache_get_hit key c item now now_access :
  JsMap.get key (Cache.data c) = Some item ->
  now <= Cache.expiresAt item ->
  let r := Cache.get now now_access key c in
  fst r = Some (Cache.value item)
  /\ Cache.data (snd r) = Cache.data c
  /\ JsMap.get key (Cache.accessTimes (snd r)) = Some now_access
  /\ JsMap.get key (Cache.accessCounts (snd r))
     = Some (match JsMap.get key (Cache.accessCounts c) with
             | Some n => n | None => 0 end + 1)%N.
Proof.
  intros Hget Hlive. unfold Cache.get. rewrite Hget.
  destruct (now >? Cache.expiresAt item) eqn:E; [lia|]. simpl.
  repeat split; [apply jsmap_get_set_eq|].
  unfold Cache.bump. apply jsmap_get_set_eq.
Qed.

(** C3 (as the code has it): [get] answers [null] when the key is absent
    and when the clock has passed [expiresAt] (strictly); in the second
    case the entry is removed from the data and from both tracking maps.
    Conversely a value that is returned belongs to an entry with
    [now <= expiresAt], and such an entry is always returned: the
    instant [now = expiresAt] still counts as live. *)
Theorem C3_get_miss_when_absent_or_past_expiry c key now now_access :
  let r := Cache.get now now_access key c in
  (JsMap.get key (Cache.data c) = None -> fst r = None)
  /\ (forall item,
        JsMap.get key (Cache.data c) = Some item ->
        Cache.expiresAt item < now ->
        fst r = None
        /\ JsMap.get key (Cache.data (snd r)) = None
        /\ JsMap.get key (Cache.accessTimes (snd r)) = None
        /\ JsMap.get key (Cache.accessCounts (snd r)) = None)
  /\ (forall item,
        JsMap.get key (Cache.data c) = Some item ->
        now <= Cache.expiresAt item ->
        fst r = Some (Cache.value item))
  /\ (forall v,
        fst r = Some v ->
        exists item,
          JsMap.get key (Cache.data c) = Some item
          /\ Cache.value item = v
          /\ now <= Cache.expiresAt item).
Proof.
  cbv zeta. split; [|split; [|split]].
  - intros Habsent. unfold Cache.get. now rewrite Habsent.
  - intros item Hget Hpast.
    pose proof (cache_delete_gone key c (cache_get_has _ _ _ Hget)) as G.
    unfold Cache.get. rewrite Hget.
    destruct (now >? Cache.expiresAt item) eqn:E; [|lia].
    simpl. split; [reflexivity|exact G].
  - intros item Hget Hlive.
    apply (cache_get_hit key c item now now_access Hget Hlive).
  - intros v. unfold Cache.get.
    destruct (JsMap.get key (Cache.data c)) as [item|] eqn:Hget;
      [|discriminate].
    destruct (now >? Cache.expiresAt item) eqn:E; [discriminate|].
    simpl. intros [= <-]. exists item. repeat split. lia.
Qed.

End CacheLookup.

(** C3, the claim as worded fails on the boundary: an entry stored at
    time 0 with the default 300 s lifetime has [expiresAt = 300000], and
    a [get] at exactly that instant ([expiresAt <= now]) still returns
    the value. *)
Lemma C3_boundary_counterexample :
  let c := snd (Cache.set 0 0 "k" 7%nat None
                  (Cache.new (Cache.mkOptions None None None))) in
  let now := 300000 in
  exists item,
    JsMap.get "k" (Cache.data c) = Some item
    /\ Cache.expiresAt item <= now
    /\ fst (Cache.get now now "k" c) = Some 7%nat.
Proof.
  cbv zeta. eexists. split; [reflexivity|]. split; [|reflexivity].
  simpl. lia.
Qed.

(** ** Cache: the presence test *)

Section CacheHas.
Context {V : Type}.
Implicit Types (c : Cache.t V) (key : string) (item : Cache.Item V).

(** C4: on a live entry [has] answers [true] and returns the cache
    untouched, so the access times, the access counts, the insertion
    order and therefore the next victim of every policy are the same as
    before; on an entry past its expiry it answers [false] and leaves
    the cache with the same maps and insertion order as [get] does
    (the two differ only in the miss counter), the key being gone. *)
Theorem C4_has_keeps_eviction_metadata c key item now :
  JsMap.get key (Cache.data c) = Some item ->
  (now <= Cache.expiresAt item ->
     Cache.has now key c = (true, c)
     /\ Cache.accessTimes (snd (Cache.has now key c)) = Cache.accessTimes c
     /\ Cache.accessCounts (snd (Cache.has now key c)) = Cache.accessCounts c
     /\ forall t,
          Cache.findLRUKey t (snd (Cache.has now key c)) = Cache.findLRUKey t c
          /\ Cache.findLFUKey (snd (Cache.has now key c)) = Cache.findLFUKey c
          /\ Cache.keyToEvict t (snd (Cache.has now key c)) = Cache.keyToEvict t c)
  /\ (Cache.expiresAt item < now ->
      forall now_access,
        let h := Cache.has now key c in
        let g := Cache.get now now_access key c in
        fst h = false
        /\ fst g = None
        /\ Cache.data (snd h) = Cache.data (snd g)
        /\ Cache.accessTimes (snd h) = Cache.accessTimes (snd g)
        /\ Cache.accessCounts (snd h) = Cache.accessCounts (snd g)
        /\ Cache.insertionOrder (snd h) = Cache.insertionOrder (snd g)
        /\ JsMap.get key (Cache.data (snd h)) = None).
Proof.
  intros Hget. split.
  - intros Hlive.
    assert (Hhas : Cache.has now key c = (true, c)).
    { unfold Cache.has. rewrite Hget.
      destruct (now >? Cache.expiresAt item) eqn:E; [lia|reflexivity]. }
    rewrite Hhas. simpl. repeat split.
  - intros Hpast now_access. cbv zeta.
    pose proof (cache_delete_gone key c (cache_get_has _ _ _ Hget)) as [G _].
    unfold Cache.has, Cache.get. rewrite Hget.
    destruct (now >? Cache.expiresAt item) eqn:E; [|lia].
    simpl. repeat split. exact G.
Qed.

End CacheHas.

(** C4 at work: an entry stored at time 0 is probed at time 5. *)
Lemma C4_has_witness :
  let c := snd (Cache.set 0 0 "k" 7%nat None
                  (Cache.new (Cache.mkOptions None None None))) in
  Cache.has 5 "k" c = (true, c).
Proof.
  cbv zeta.
  refine (proj1 (proj1 (C4_has_keeps_eviction_metadata
                          _ "k" (Cache.mkItem 7%nat 300000 0) 5 _) _)).
  - reflexivity.
  - simpl. lia.
Defined.

(** ** Cache: the periodic sweep *)

Section CacheSweep.
Context {V : Type}.
Implicit Types (c : Cache.t V) (key : string) (item : Cache.Item V).

Lemma jsmap_delete_absent {A} key (m : JsMap.t A) :
  JsMap.has key m = false -> JsMap.delete key m = m.
Proof.
  unfold JsMap.has, JsMap.delete.
  induction m as [|[k x] m IH]; simpl; [reflexivity|].
  destruct (String.eqb key k); simpl; [discriminate|].
  intros H. now rewrite IH.
Qed.

Lemma cache_delete_data key c :
  Cache.data (snd (Cache.delete key c)) = JsMap.delete key (Cache.data c).
Proof.
  unfold Cache.delete.
  destruct (JsMap.has key (Cache.data c)) eqn:E; simpl; [reflexivity|].
  symmetry. now apply jsmap_delete_absent.
Qed.

Lemma delete_all_in (keys : list string) :
  forall c key item,
    In (key, item)
       (Cache.data (fold_left (fun c' k => snd (Cache.delete k c')) keys c)) ->
    In (key, item) (Cache.data c) /\ ~ In key keys.
Proof.
  induction keys as [|k keys IH]; intros c key item Hin; simpl in *.
  - split; [assumption|tauto].
  - apply IH in Hin. destruct Hin as [Hin Hnot].
    rewrite cache_delete_data in Hin. unfold JsMap.delete in Hin.
    apply List.filter_In in Hin. destruct Hin as [Hin Hneq]. simpl in Hneq.
    split; [assumption|]. intros [->|H]; [|contradiction].
    rewrite String.eqb_refl in Hneq. discriminate.
Qed.

(** After a sweep at time [now] every entry left has [now <= expiresAt]:
    the sweep uses the same test and the same [delete] as [get] and
    [has]. *)
Lemma cleanup_leaves_live_entries now c key item :
  In (key, item) (Cache.data (Cache.cleanup now c)) ->
  In (key, item) (Cache.data c) /\ now <= Cache.expiresAt item.
Proof.
  unfold Cache.cleanup. intros Hin. apply delete_all_in in Hin.
  destruct Hin as [Hin Hnot]. split; [assumption|].
  destruct (now >? Cache.expiresAt item) eqn:E; [|lia].
  exfalso. apply Hnot. unfold JsMap.keys.
  change key with (fst (key, item)). apply in_map.
  apply List.filter_In. split; [assumption|exact E].
Qed.

End CacheSweep.

(** ** Cache: overwriting a key *)

Section CacheReset.
Context {V : Type}.
Implicit Types (c : Cache.t V) (key : string).

(** The scan of [findLFUKey] ends on a key that carries count 0 as soon
    as some key does; [P] is any property shared by the keys with
    count 0. *)
Lemma scanLFU_zero (P : string -> Prop) (m : JsMap.t N) :
  forall lowest least,
    (forall k, In (k, 0%N) m -> P k) ->
    (lowest = Some 0%N -> exists k, least = Some k /\ P k) ->
    ((exists k, In (k, 0%N) m) \/ lowest = Some 0%N) ->
    exists k, Cache.scanLFU m lowest least = Some k /\ P k.
Proof.
  induction m as [|[k n] m IH]; intros lowest least Hzero Hacc Hex; simpl.
  - destruct Hex as [[k []]|Hl]. auto.
  - assert (Hzero' : forall k', In (k', 0%N) m -> P k').
    { intros k' Hin. apply Hzero. now right. }
    destruct lowest as [lc|].
    + destruct (n <? lc)%N eqn:E.
      * apply N.ltb_lt in E. apply IH; [exact Hzero'| |].
        -- intros [= ->]. exists k. split; [reflexivity|].
           apply Hzero. now left.
        -- destruct Hex as [[k' [Hk'|Hk']]|Hl].
           ++ injection Hk' as -> ->. now right.
           ++ left. now exists k'.
           ++ injection Hl as ->. lia.
      * apply N.ltb_ge in E. apply IH; [exact Hzero'|exact Hacc|].
        destruct Hex as [[k' [Hk'|Hk']]|Hl].
        -- injection Hk' as -> ->. right. f_equal. lia.
        -- left. now exists k'.
        -- now right.
    + apply IH; [exact Hzero'| |].
      * intros [= ->]. exists k. split; [reflexivity|].
        apply Hzero. now left.
      * destruct Hex as [[k' [Hk'|Hk']]|Hl]; [|left; now exists k'|discriminate].
        injection Hk' as -> ->. now right.
Qed.

Lemma jsmap_set_in_zero key (m : JsMap.t N) : In (key, 0%N) (JsMap.set key 0%N m).
Proof.
  induction m as [|[k n] m IH]; simpl; [now left|].
  destruct (String.eqb key k); [now left|now right].
Qed.

Lemma jsmap_set_in_other key (x : N) (m : JsMap.t N) k n :
  In (k, n) (JsMap.set key x m) -> k <> key -> In (k, n) m.
Proof.
  induction m as [|[k' n'] m IH]; simpl; intros Hin Hne.
  - destruct Hin as [[= <- <-]|[]]. congruence.
  - destruct (String.eqb key k') eqn:E.
    + destruct Hin as [[= <- <-]|Hin]; [congruence|now right].
    + destruct Hin as [Hin|Hin]; [now left|right; auto].
Qed.

(** C9: [set] on a key that is already stored puts its access count
    back to 0 and its access time to the [now] of the call, whatever
    they were.  Zero is the lowest count there is, so the victim that
    [findLFUKey] picks next has count 0 like the key just written, and
    it is that very key when every other key has been read at least
    once. *)
Theorem C9_reset_key_is_lfu_candidate c key (v : V) customTtl now now_evict :
  JsMap.has key (Cache.data c) = true ->
  let c' := snd (Cache.set now now_evict key v customTtl c) in
  JsMap.get key (Cache.accessCounts c') = Some 0%N
  /\ JsMap.get key (Cache.accessTimes c') = Some now
  /\ (forall k n, In (k, n) (Cache.accessCounts c') -> (0 <= n)%N)
  /\ (exists k, Cache.findLFUKey c' = Some k
                /\ In (k, 0%N) (Cache.accessCounts c'))
  /\ ((forall k n, In (k, n) (Cache.accessCounts c) -> k <> key -> (0 < n)%N) ->
      Cache.findLFUKey c' = Some key).
Proof.
  intros Hhas. unfold Cache.set. rewrite Hhas, andb_false_r. cbv zeta. simpl.
  split; [apply jsmap_get_set_eq|].
  split; [apply jsmap_get_set_eq|].
  split; [intros; lia|].
  split.
  - unfold Cache.findLFUKey. simpl.
    apply (scanLFU_zero (fun k => In (k, 0%N) (JsMap.set key 0%N (Cache.accessCounts c)))).
    + auto.
    + discriminate.
    + left. exists key. apply jsmap_set_in_zero.
  - intros Hothers. unfold Cache.findLFUKey. simpl.
    destruct (scanLFU_zero (fun k => k = key)
                (JsMap.set key 0%N (Cache.accessCounts c)) None None)
      as [k [Hk ->]]; [| |left; exists key; apply jsmap_set_in_zero|exact Hk].
    + intros k Hin. destruct (string_dec k key) as [|Hne]; [assumption|].
      pose proof (Hothers k 0%N (jsmap_set_in_other _ _ _ _ _ Hin Hne) Hne). lia.
    + discriminate.
Qed.

End CacheReset.

(** C9 at work: key "a" is read three times, "b" once; writing "a" again
    makes it the key that LFU evicts next. *)
Lemma C9_reset_witness :
  let c0 := Cache.new (Cache.mkOptions (Some 2) None (Some "lfu")) in
  let c1 := Cache.run_sets [Cache.mkSetCall 1 1 "a" 10%nat None;
                            Cache.mkSetCall 2 2 "b" 20%nat None] c0 in
  let c2 := snd (Cache.get 3 3 "a" c1) in
  let c3 := snd (Cache.get 4 4 "a" c2) in
  let c4 := snd (Cache.get 5 5 "a" c3) in
  let c5 := snd (Cache.get 6 6 "b" c4) in
  Cache.findLFUKey c5 = Some "b"
  /\ Cache.findLFUKey (snd (Cache.set 7 7 "a" 11%nat None c5)) = Some "a".
Proof.
  cbv zeta. split; [reflexivity|].
  refine (proj2 (proj2 (proj2 (proj2 (C9_reset_key_is_lfu_candidate
                                        _ "a" 11%nat None 7 7 _)))) _).
  - reflexivity.
  - simpl. intros k n [[= <- <-]|[[= <- <-]|[]]] Hne; [congruence|lia].
Defined.

(** ** Construction *)

Section Construction.
Context {V : Type}.

Lemma num_or_default d : Js.num_or None d = d /\ Js.num_or (Some 0) d = d.
Proof. split; reflexivity. Qed.

Lemma num_or_given n d : n <> 0 -> Js.num_or (Some n) d = n.
Proof.
  intros Hn. unfold Js.num_or.
  destruct (n =? 0) eqn:E; [apply Z.eqb_eq in E; contradiction|reflexivity].
Qed.

Lemma str_or_given s d : s <> "" -> Js.str_or (Some s) d = s.
Proof. intros Hs. destruct s; [contradiction|reflexivity]. Qed.

(** C6 (as the code has it): neither constructor can raise.  A number
    that is missing or zero is replaced by the default, every other
    number, a negative one included, is stored as given; a missing or
    empty strategy becomes "lru", every other string is stored as given,
    and a cache whose strategy is none of the three names evicts as
    LRU does. *)
Theorem C6_constructors_accept_any_configuration
        (options : Cache.Options) (roptions : RateLimiter.Options) (now : Z) :
  (exists c : Cache.t V,
      Cache.constructor options = Js.Ok c
      /\ (Cache.opt_maxSize options = None \/ Cache.opt_maxSize options = Some 0 ->
          Cache.maxSize c = 1000)
      /\ (forall n, Cache.opt_maxSize options = Some n -> n <> 0 ->
                    Cache.maxSize c = n)
      /\ (Cache.opt_ttl options = None \/ Cache.opt_ttl options = Some 0 ->
          Cache.ttl c = 300)
      /\ (forall n, Cache.opt_ttl options = Some n -> n <> 0 -> Cache.ttl c = n)
      /\ (Cache.opt_strategy options = None \/ Cache.opt_strategy options = Some "" ->
          Cache.strategy c = "lru")
      /\ (forall s, Cache.opt_strategy options = Some s -> s <> "" ->
                    Cache.strategy c = s)
      /\ (Cache.strategy c <> "fifo" -> Cache.strategy c <> "lfu" ->
          forall t, Cache.keyToEvict t c = Cache.findLRUKey t c))
  /\ (exists r : RateLimiter.t,
         RateLimiter.constructor now roptions = Js.Ok r
         /\ (RateLimiter.opt_requestsPerMinute roptions = None
             \/ RateLimiter.opt_requestsPerMinute roptions = Some 0 ->
             RateLimiter.requestsPerMinute r = 60)
         /\ (forall n, RateLimiter.opt_requestsPerMinute roptions = Some n ->
                       n <> 0 -> RateLimiter.requestsPerMinute r = n)
         /\ (RateLimiter.opt_burstLimit roptions = None
             \/ RateLimiter.opt_burstLimit roptions = Some 0 ->
             RateLimiter.burstLimit r = 10)
         /\ (forall n, RateLimiter.opt_burstLimit roptions = Some n ->
                       n <> 0 -> RateLimiter.burstLimit r = n)
         /\ RateLimiter.tokens r = RateLimiter.burstLimit r
         /\ RateLimiter.windowSizeMs r = 60000).
Proof.
  split.
  - exists (Cache.new options). split; [reflexivity|].
    destruct options as [ms tl st]. simpl.
    repeat split.
    + intros [->| ->]; reflexivity.
    + intros n -> Hn. now apply num_or_given.
    + intros [->| ->]; reflexivity.
    + intros n -> Hn. now apply num_or_given.
    + intros [->| ->]; reflexivity.
    + intros s -> Hs. now apply str_or_given.
    + intros Hfifo Hlfu t. unfold Cache.keyToEvict. simpl.
      destruct (String.eqb (Js.str_or st "lru") "lru"); [reflexivity|].
      destruct (String.eqb (Js.str_or st "lru") "fifo") eqn:E1;
        [apply String.eqb_eq in E1; contradiction|].
      destruct (String.eqb (Js.str_or st "lru") "lfu") eqn:E2;
        [apply String.eqb_eq in E2; contradiction|reflexivity].
  - exists (RateLimiter.new now roptions). split; [reflexivity|].
    destruct roptions as [rpm bl]. simpl.
    repeat split.
    + intros [->| ->]; reflexivity.
    + intros n -> Hn. now apply num_or_given.
    + intros [->| ->]; reflexivity.
    + intros n -> Hn. now apply num_or_given.
Qed.

End Construction.

(** C6, the claim as worded fails: a cache asked for [maxSize = 0], a
    negative [ttl] and an unknown strategy is built without any error,
    with [maxSize] silently replaced by 1000; likewise a limiter asked
    for a negative rate and a zero burst limit. *)
Lemma C6_invalid_configuration_counterexample :
  let bad := Cache.mkOptions (Some 0) (Some (-5)) (Some "bogus") in
  let rbad := RateLimiter.mkOptions (Some (-1)) (Some 0) in
  Js.threw (Cache.constructor (V := nat) bad) = false
  /\ (exists c : Cache.t nat,
         Cache.constructor bad = Js.Ok c
         /\ Cache.maxSize c = 1000 /\ Cache.ttl c = -5
         /\ Cache.strategy c = "bogus")
  /\ Js.threw (RateLimiter.constructor 0 rbad) = false
  /\ (exists r,
         RateLimiter.constructor 0 rbad = Js.Ok r
         /\ RateLimiter.requestsPerMinute r = -1
         /\ RateLimiter.burstLimit r = 10).
Proof.
  cbv zeta. split; [reflexivity|]. split.
  - eexists. split; [reflexivity|]. repeat split.
  - split; [reflexivity|]. eexists. split; [reflexivity|]. repeat split.
Qed.

(** ** Cache: the capacity bound *)

(** C1 fails under LRU when two [set] calls fall into the same
    millisecond: [findLRUKey] starts its scan at the current clock reading
    and accepts only strictly older access times, so it finds no victim,
    nothing is evicted and the second key is stored on top of a full
    cache. *)
Theorem C1_lru_same_millisecond_exceeds_maxSize :
  let c0 := Cache.new (Cache.mkOptions (Some 1) None (Some "lru")) in
  let c2 := Cache.run_sets [Cache.mkSetCall 5 5 "a" 1%nat None;
                            Cache.mkSetCall 5 5 "b" 2%nat None] c0 in
  0 < Cache.maxSize c2
  /\ Cache.maxSize c2 = 1
  /\ Cache.size c2 = 2
  /\ Cache.evictions (Cache.stats c2) = 0%N
  /\ Cache.findLRUKey 5 (Cache.do_set c0 (Cache.mkSetCall 5 5 "a" 1%nat None)) = None.
Proof. cbv zeta. repeat split. Qed.

(** The same overflow for the other two policies when the stored key is
    the empty string, which the tests [insertionOrder[0] || null] and
    [if (keyToEvict)] take for "no key". *)
Lemma cache_empty_key_is_never_evicted :
  let fill strategy :=
    Cache.run_sets [Cache.mkSetCall 1 2 "" 1%nat None;
                    Cache.mkSetCall 3 4 "b" 2%nat None]
      (Cache.new (Cache.mkOptions (Some 1) None (Some strategy))) in
  Cache.size (fill "fifo") = 2
  /\ Cache.size (fill "lfu") = 2
  /\ Cache.size (fill "lru") = 2.
Proof. cbv zeta. repeat split. Qed.

(** Where the bound does hold.  The lemmas below follow one [set]
    through its optional eviction and its store, on caches of the shape
    [Cache.inv]. *)

Section CacheBound.
Context {V : Type}.
Implicit Types (c : Cache.t V) (key k : string) (l : list string).

Lemma filter_absent key l :
  ~ In key l -> List.filter (fun k' => negb (String.eqb key k')) l = l.
Proof.
  induction l as [|k l IH]; simpl; intros Hnin; [reflexivity|].
  destruct (String.eqb key k) eqn:E; simpl.
  - apply String.eqb_eq in E. subst. exfalso. apply Hnin. now left.
  - rewrite IH; [reflexivity|]. intros H. apply Hnin. now right.
Qed.

Lemma splice_first_filter key l :
  NoDup l ->
  Cache.splice_first key l = List.filter (fun k' => negb (String.eqb key k')) l.
Proof.
  induction l as [|k l IH]; simpl; intros Hnd; [reflexivity|].
  inversion Hnd as [|? ? Hnin Hnd']; subst.
  destruct (String.eqb key k) eqn:E; simpl.
  - apply String.eqb_eq in E. subst k. symmetry. apply filter_absent.
    intros H. apply Hnin. now apply list_elem_of_In.
  - now rewrite IH.
Qed.

Lemma length_filter_present key l :
  NoDup l -> In key l ->
  S (length (List.filter (fun k' => negb (String.eqb key k')) l)) = length l.
Proof.
  induction l as [|k l IH]; simpl; intros Hnd Hin; [contradiction|].
  inversion Hnd as [|? ? Hnin Hnd']; subst.
  destruct (String.eqb key k) eqn:E; simpl.
  - apply String.eqb_eq in E. subst k. rewrite filter_absent; [reflexivity|].
    intros H. apply Hnin. now apply list_elem_of_In.
  - apply String.eqb_neq in E. destruct Hin as [Hin|Hin]; [congruence|].
    now rewrite IH.
Qed.

Lemma includes_in key l : Cache.includes key l = true <-> In key l.
Proof.
  unfold Cache.includes. rewrite existsb_exists. split.
  - intros [k [Hin Heq]]. apply String.eqb_eq in Heq. now subst.
  - intros Hin. exists key. split; [assumption|apply String.eqb_refl].
Qed.

Lemma jsmap_has_false {A} key (m : JsMap.t A) :
  JsMap.has key m = false <-> ~ In key (JsMap.keys m).
Proof.
  rewrite <- jsmap_has_in_keys. destruct (JsMap.has key m); split; intros H;
    try reflexivity; try discriminate; try (intros; discriminate).
  exfalso. now apply H.
Qed.

(** The LRU scan finds a key as soon as one access time is older than its
    starting time. *)
Lemma scanLRU_finds (P : string -> Prop) (m : JsMap.t Z) :
  forall oldestTime oldestKey,
    (forall k x, In (k, x) m -> P k) ->
    (Exists (fun kt => snd kt < oldestTime) m
     \/ exists k, oldestKey = Some k /\ P k) ->
    exists k, Cache.scanLRU m oldestTime oldestKey = Some k /\ P k.
Proof.
  induction m as [|[k x] m IH]; intros t ok HP H; simpl.
  - destruct H as [H|H]; [inversion H|exact H].
  - assert (HP' : forall k' x', In (k', x') m -> P k').
    { intros k' x' Hin. apply (HP k' x'). now right. }
    destruct (x <? t) eqn:E.
    + apply IH; [exact HP'|]. right. exists k. split; [reflexivity|].
      apply (HP k x). now left.
    + apply IH; [exact HP'|]. destruct H as [H|H]; [|now right].
      inversion H as [? ? Hhd|? ? Htl]; subst; [simpl in Hhd; lia|now left].
Qed.

(** The LFU scan finds a key in every non-empty map. *)
Lemma scanLFU_finds (P : string -> Prop) (m : JsMap.t N) :
  forall lowest least,
    (forall k x, In (k, x) m -> P k) ->
    (lowest = None /\ m <> [] \/ exists k, least = Some k /\ P k) ->
    exists k, Cache.scanLFU m lowest least = Some k /\ P k.
Proof.
  induction m as [|[k x] m IH]; intros lc lk HP H; simpl.
  - destruct H as [[_ H]|H]; [contradiction|exact H].
  - assert (HP' : forall k' x', In (k', x') m -> P k').
    { intros k' x' Hin. apply (HP k' x'). now right. }
    assert (Hk : exists k0, Some k = Some k0 /\ P k0).
    { exists k. split; [reflexivity|]. apply (HP k x). now left. }
    destruct lc as [lc|].
    + destruct H as [[H _]|H]; [discriminate|].
      destruct (x <? lc)%N; apply IH; auto.
    + apply IH; auto.
Qed.

Lemma in_keys_of_pair {A} k (x : A) (m : JsMap.t A) :
  In (k, x) m -> In k (JsMap.keys m).
Proof. intros H. apply (in_map fst) in H. exact H. Qed.

(** On a non-empty cache with an available victim the policy names a
    stored key. *)
Lemma keyToEvict_finds now c :
  Cache.inv c -> Cache.insertionOrder c <> [] -> Cache.victim_available now c ->
  exists k, Js.truthy_key (Cache.keyToEvict now c) = Some k
            /\ In k (Cache.insertionOrder c).
Proof.
  intros (Hd & Ht & Hc & Hnd & Htr) Hne Hav.
  assert (Hfound : exists k, Cache.keyToEvict now c = Some k
                             /\ In k (Cache.insertionOrder c)).
  { assert (Hlru : Exists (fun kt => snd kt < now) (Cache.accessTimes c) ->
                   exists k, Cache.findLRUKey now c = Some k
                             /\ In k (Cache.insertionOrder c)).
    { intros Hex. unfold Cache.findLRUKey. apply scanLRU_finds; [|now left].
      intros k x Hin. rewrite <- Ht. now apply in_keys_of_pair with x. }
    assert (Hlfu : exists k, Cache.findLFUKey c = Some k
                             /\ In k (Cache.insertionOrder c)).
    { unfold Cache.findLFUKey. apply scanLFU_finds.
      - intros k x Hin. rewrite <- Hc. now apply in_keys_of_pair with x.
      - left. split; [reflexivity|]. intros Hnil. apply Hne.
        rewrite <- Hc, Hnil. reflexivity. }
    assert (Hfifo : exists k, Cache.findFIFOKey c = Some k
                              /\ In k (Cache.insertionOrder c)).
    { unfold Cache.findFIFOKey.
      destruct (Cache.insertionOrder c) as [|k0 l0]; [contradiction|].
      simpl. inversion Htr as [|? ? Hk0 _]; subst. rewrite Hk0.
      exists k0. split; [reflexivity|now left]. }
    unfold Cache.keyToEvict.
    destruct (String.eqb (Cache.strategy c) "lru") eqn:E1.
    { apply String.eqb_eq in E1. apply Hlru.
      destruct Hav as [H|[H|H]]; [congruence|congruence|exact H]. }
    destruct (String.eqb (Cache.strategy c) "fifo") eqn:E2; [exact Hfifo|].
    destruct (String.eqb (Cache.strategy c) "lfu") eqn:E3; [exact Hlfu|].
    apply String.eqb_neq in E2, E3. apply Hlru.
    destruct Hav as [H|[H|H]]; [contradiction|contradiction|exact H]. }
  destruct Hfound as [k [Hk Hin]]. exists k. split; [|exact Hin].
  rewrite Hk. simpl.
  rewrite Forall_forall in Htr. rewrite (Htr k); [reflexivity|].
  now apply list_elem_of_In.
Qed.

Lemma inv_delete key c :
  Cache.inv c -> In key (Cache.insertionOrder c) ->
  let c' := snd (Cache.delete key c) in
  Cache.inv c'
  /\ Cache.size c' = Cache.size c - 1
  /\ Cache.maxSize c' = Cache.maxSize c
  /\ Cache.strategy c' = Cache.strategy c
  /\ Cache.ttl c' = Cache.ttl c
  /\ Cache.accessTimes c' = JsMap.delete key (Cache.accessTimes c)
  /\ (forall k, JsMap.has k (Cache.data c) = false ->
                JsMap.has k (Cache.data c') = false).
Proof.
  intros (Hd & Ht & Hc & Hnd & Htr) Hin.
  assert (Hhas : JsMap.has key (Cache.data c) = true).
  { apply jsmap_has_in_keys. now rewrite Hd. }
  rewrite (cache_delete_present key c Hhas). cbv zeta. simpl.
  pose proof (splice_first_filter key _ Hnd) as Hsp.
  split.
  - unfold Cache.inv. simpl.
    rewrite !jsmap_keys_delete, Hd, Ht, Hc, Hsp.
    repeat split; try reflexivity.
    + apply NoDup_ListNoDup, List.NoDup_filter, NoDup_ListNoDup, Hnd.
    + rewrite Forall_forall in Htr |- *. intros k Hk.
      apply Htr. apply list_elem_of_In. apply list_elem_of_In in Hk.
      now apply List.filter_In in Hk.
  - split.
    + unfold Cache.size. simpl. rewrite !jsmap_size_keys, jsmap_keys_delete, Hd.
      pose proof (length_filter_present key _ Hnd Hin). lia.
    + repeat split. intros k Hk. apply jsmap_has_false.
      apply jsmap_has_false in Hk. rewrite jsmap_keys_delete.
      intros H. apply List.filter_In in H. now apply Hk.
Qed.

Lemma inv_evict now c :
  Cache.inv c -> Cache.insertionOrder c <> [] -> Cache.victim_available now c ->
  let c' := Cache.evict now c in
  Cache.inv c'
  /\ Cache.size c' = Cache.size c - 1
  /\ Cache.maxSize c' = Cache.maxSize c
  /\ Cache.strategy c' = Cache.strategy c
  /\ Cache.ttl c' = Cache.ttl c
  /\ (exists k, Cache.accessTimes c' = JsMap.delete k (Cache.accessTimes c))
  /\ (forall k, JsMap.has k (Cache.data c) = false ->
                JsMap.has k (Cache.data c') = false).
Proof.
  intros Hinv Hne Hav. cbv zeta. unfold Cache.evict.
  destruct (keyToEvict_finds now c Hinv Hne Hav) as [k [-> Hin]].
  destruct (inv_delete k c Hinv Hin) as (H1 & H2 & H3 & H4 & H5 & H6 & H7).
  exact (conj H1 (conj H2 (conj H3 (conj H4 (conj H5
           (conj (ex_intro _ k H6) H7)))))).
Qed.

Lemma data_nonempty_order c :
  Cache.inv c -> 0 < Cache.size c -> Cache.insertionOrder c <> [].
Proof.
  intros (Hd & _) Hsize Hnil. unfold Cache.size in Hsize.
  rewrite jsmap_size_keys, Hd, Hnil in Hsize. simpl in Hsize. lia.
Qed.

(** One [set] keeps the shape of the cache and the capacity bound, as
    long as the scan of the policy can find a victim when the cache is
    full. *)
Lemma cache_set_keeps_bound now now_evict key (v : V) customTtl c :
  Cache.inv c ->
  Js.truthy_str key = true ->
  1 <= Cache.maxSize c ->
  Cache.size c <= Cache.maxSize c ->
  (Cache.maxSize c <= Cache.size c -> Cache.victim_available now_evict c) ->
  let c' := snd (Cache.set now now_evict key v customTtl c) in
  Cache.inv c'
  /\ Cache.size c' <= Cache.maxSize c'
  /\ Cache.maxSize c' = Cache.maxSize c
  /\ Cache.strategy c' = Cache.strategy c
  /\ Cache.ttl c' = Cache.ttl c.
Proof.
  intros Hinv Hkey Hmax Hsize Hav. cbv zeta. unfold Cache.set.
  set (c1 := if (JsMap.size (Cache.data c) >=? Cache.maxSize c)
                && negb (JsMap.has key (Cache.data c))
             then Cache.evict now_evict c else c).
  assert (H1 : Cache.inv c1
               /\ Cache.maxSize c1 = Cache.maxSize c
               /\ Cache.strategy c1 = Cache.strategy c
               /\ Cache.ttl c1 = Cache.ttl c
               /\ (if JsMap.has key (Cache.data c1)
                   then Cache.size c1 <= Cache.maxSize c
                   else Cache.size c1 + 1 <= Cache.maxSize c)).
  { subst c1. fold (Cache.size c).
    destruct (JsMap.has key (Cache.data c)) eqn:Ehas.
    - rewrite andb_false_r, Ehas. auto.
    - rewrite andb_true_r.
      destruct (Cache.size c >=? Cache.maxSize c) eqn:Efull.
      + apply Z.geb_le in Efull.
        assert (Hne : Cache.insertionOrder c <> [])
          by (apply data_nonempty_order; [assumption|lia]).
        destruct (inv_evict now_evict c Hinv Hne (Hav Efull))
          as (E1 & E2 & E3 & E4 & E5 & _ & E7).
        rewrite (E7 key Ehas).
        refine (conj E1 (conj E3 (conj E4 (conj E5 _)))). lia.
      + rewrite Ehas.
        refine (conj Hinv (conj eq_refl (conj eq_refl (conj eq_refl _)))).
        assert (H : ~ Cache.maxSize c <= Cache.size c).
        { intros H. apply Z.geb_le in H. congruence. }
        lia. }
  clearbody c1. destruct H1 as ((Hd & Ht & Hc & Hnd & Htr) & M1 & M2 & M3 & Hsz).
  simpl. unfold Cache.inv, Cache.size. simpl.
  destruct (JsMap.has key (Cache.data c1)) eqn:Ehas.
  - assert (Hin : In key (Cache.insertionOrder c1)).
    { rewrite <- Hd. now apply jsmap_has_in_keys. }
    assert (Hinc : Cache.includes key (Cache.insertionOrder c1) = true)
      by now apply includes_in.
    rewrite Hinc.
    rewrite !jsmap_keys_set_has;
      [|apply jsmap_has_in_keys; now rewrite Hc
       |apply jsmap_has_in_keys; now rewrite Ht
       |assumption].
    unfold Cache.size in Hsz.
    rewrite jsmap_size_keys, jsmap_keys_set_has by assumption.
    rewrite <- jsmap_size_keys. repeat split; try assumption. lia.
  - assert (Hnin : ~ In key (Cache.insertionOrder c1)).
    { rewrite <- Hd. now apply jsmap_has_false. }
    assert (Hinc : Cache.includes key (Cache.insertionOrder c1) = false).
    { destruct (Cache.includes key (Cache.insertionOrder c1)) eqn:E;
        [|reflexivity].
      apply includes_in in E. contradiction. }
    rewrite Hinc.
    rewrite !jsmap_keys_set_new;
      [|apply jsmap_has_false; now rewrite Hc
       |apply jsmap_has_false; now rewrite Ht
       |assumption].
    unfold Cache.size in Hsz.
    rewrite jsmap_size_keys, jsmap_keys_set_new by assumption.
    rewrite Hd, Ht, Hc, List.length_app. simpl.
    rewrite jsmap_size_keys, Hd in Hsz.
    repeat split; try assumption; try lia.
    + apply NoDup_app. split; [assumption|]. split.
      * intros k Hk [->|[]]%list_elem_of_In. apply Hnin.
        now apply list_elem_of_In.
      * apply NoDup_singleton.
    + apply Forall_app. split; [assumption|]. now constructor.
Qed.

Lemma inv_new (options : Cache.Options) : Cache.inv (Cache.new (V := V) options).
Proof. repeat split; simpl; constructor. Qed.

(** Under FIFO and LFU, and with keys that are not the empty string, the
    bound of C1 holds after every [set] of every run on a new cache. *)
Theorem cache_run_sets_bounded (options : Cache.Options) (calls : list (Cache.SetCall V)) :
  let c0 := Cache.new options in
  Cache.strategy c0 = "fifo" \/ Cache.strategy c0 = "lfu" ->
  1 <= Cache.maxSize c0 ->
  Forall (fun call => Js.truthy_str (Cache.sc_key call) = true) calls ->
  Cache.size (Cache.run_sets calls c0) <= Cache.maxSize c0.
Proof.
  cbv zeta. intros Hstrat Hmax Hkeys.
  assert (H0 : Cache.inv (Cache.new (V := V) options)
               /\ Cache.size (Cache.new (V := V) options)
                  <= Cache.maxSize (Cache.new (V := V) options))
    by (split; [apply inv_new|unfold Cache.size, JsMap.size; simpl in *; lia]).
  revert H0 Hstrat Hmax.
  generalize (Cache.new (V := V) options) as c.
  induction Hkeys as [|call calls Hkey _ IH]; intros c [Hinv Hsize] Hstrat Hmax.
  - exact Hsize.
  - change (Cache.run_sets (call :: calls) c)
      with (Cache.run_sets calls (Cache.do_set c call)).
    assert (Hstep : Cache.inv (Cache.do_set c call)
                    /\ Cache.size (Cache.do_set c call)
                       <= Cache.maxSize (Cache.do_set c call)
                    /\ Cache.maxSize (Cache.do_set c call) = Cache.maxSize c
                    /\ Cache.strategy (Cache.do_set c call) = Cache.strategy c
                    /\ Cache.ttl (Cache.do_set c call) = Cache.ttl c).
    { apply cache_set_keeps_bound; try assumption.
      intros _. destruct Hstrat as [H|H]; [now left|right; now left]. }
    destruct Hstep as (I1 & I2 & I3 & I4 & _).
    rewrite <- I3. apply IH.
    + split; assumption.
    + now rewrite I4.
    + now rewrite I3.
Qed.

(** Every access time stored by a [set] at time [now] is at most [now]
    when the ones stored before were at most [last <= now]. *)
Lemma set_access_times_bounded now now_evict key (v : V) customTtl c last :
  Forall (fun kt => snd kt <= last) (Cache.accessTimes c) ->
  last <= now ->
  Forall (fun kt => snd kt <= now)
         (Cache.accessTimes (snd (Cache.set now now_evict key v customTtl c))).
Proof.
  intros Hall Hle. unfold Cache.set.
  set (c1 := if (JsMap.size (Cache.data c) >=? Cache.maxSize c)
                && negb (JsMap.has key (Cache.data c))
             then Cache.evict now_evict c else c).
  assert (H1 : Forall (fun kt => snd kt <= last) (Cache.accessTimes c1)).
  { subst c1.
    destruct ((JsMap.size (Cache.data c) >=? Cache.maxSize c)
              && negb (JsMap.has key (Cache.data c))); [|exact Hall].
    unfold Cache.evict.
    destruct (Js.truthy_key (Cache.keyToEvict now_evict c)) as [k|]; [|exact Hall].
    unfold Cache.delete. destruct (JsMap.has k (Cache.data c)); [|exact Hall].
    simpl. unfold JsMap.delete.
    rewrite Forall_forall in Hall |- *. intros kt Hkt. apply Hall.
    apply list_elem_of_In. apply list_elem_of_In in Hkt.
    now apply List.filter_In in Hkt. }
  clearbody c1. simpl.
  induction (Cache.accessTimes c1) as [|[k x] m IH]; simpl.
  - constructor; [simpl; lia|constructor].
  - inversion H1 as [|? ? Hx Hm]; subst. simpl in Hx.
    destruct (String.eqb key k).
    + constructor; [simpl; lia|].
      rewrite Forall_forall in Hm |- *. intros kt Hkt.
      specialize (Hm kt Hkt). lia.
    + constructor; [simpl; lia|]. now apply IH.
Qed.

(** On a clock that moves on between calls, and with keys that are not
    the empty string, the bound of C1 holds after every [set] of every
    run on a new cache, under each of the policies. *)
Theorem cache_run_sets_bounded_clock (options : Cache.Options)
        (calls : list (Cache.SetCall V)) (start : Z) :
  let c0 := Cache.new options in
  1 <= Cache.maxSize c0 ->
  Forall (fun call => Js.truthy_str (Cache.sc_key call) = true) calls ->
  Cache.clock_advances start calls ->
  Cache.size (Cache.run_sets calls c0) <= Cache.maxSize c0.
Proof.
  cbv zeta. intros Hmax Hkeys Hclock.
  assert (H0 : Cache.inv (Cache.new (V := V) options)
               /\ Cache.size (Cache.new (V := V) options)
                  <= Cache.maxSize (Cache.new (V := V) options)
               /\ Forall (fun kt => snd kt <= start)
                         (Cache.accessTimes (Cache.new (V := V) options))).
  { split; [apply inv_new|]. split; [|constructor].
    unfold Cache.size, JsMap.size; simpl in *; lia. }
  revert H0 Hmax Hclock.
  generalize (Cache.new (V := V) options) as c. generalize start as last.
  induction Hkeys as [|call calls Hkey _ IH];
    intros last c (Hinv & Hsize & Hall) Hmax Hclock.
  - exact Hsize.
  - change (Cache.run_sets (call :: calls) c)
      with (Cache.run_sets calls (Cache.do_set c call)).
    destruct Hclock as (Hnow & Hevict & Hrest).
    assert (Hstep : Cache.inv (Cache.do_set c call)
                    /\ Cache.size (Cache.do_set c call)
                       <= Cache.maxSize (Cache.do_set c call)
                    /\ Cache.maxSize (Cache.do_set c call) = Cache.maxSize c
                    /\ Cache.strategy (Cache.do_set c call) = Cache.strategy c
                    /\ Cache.ttl (Cache.do_set c call) = Cache.ttl c).
    { apply cache_set_keeps_bound; try assumption.
      intros Hfull. right; right.
      destruct Hinv as (Hd & Ht & _).
      unfold Cache.size in Hfull. rewrite jsmap_size_keys, Hd, <- Ht in Hfull.
      destruct (Cache.accessTimes c) as [|[k x] m]; [simpl in Hfull; lia|].
      inversion Hall as [|? ? Hx _]; subst. simpl in Hx.
      left. simpl. lia. }
    destruct Hstep as (I1 & I2 & I3 & I4 & _).
    rewrite <- I3. apply (IH (Cache.sc_now call)).
    + split; [exact I1|]. split; [exact I2|].
      apply (set_access_times_bounded _ _ _ _ _ _ last); assumption.
    + now rewrite I3.
    + exact Hrest.
Qed.

End CacheBound.

(** ** Rounding to binary64 *)

Section Rounding.

Lemma rne_near (y : Q) :
  (inject_Z (Num.rne y) - (1 # 2) <= y /\ y <= inject_Z (Num.rne y) + (1 # 2))%Q.
Proof.
  unfold Num.rne.
  pose proof (Qfloor_le y) as Hlo. pose proof (Qlt_floor y) as Hhi.
  rewrite inject_Z_plus in Hhi. change (inject_Z 1) with 1%Q in Hhi.
  destruct (y - inject_Z (Qfloor y) ?= 1 # 2)%Q eqn:E.
  - apply Qeq_alt in E.
    destruct (Z.even (Qfloor y)); [|rewrite inject_Z_plus; change (inject_Z 1) with 1%Q];
      split; lra.
  - apply Qlt_alt in E. split; lra.
  - apply Qgt_alt in E. rewrite inject_Z_plus. change (inject_Z 1) with 1%Q.
    split; lra.
Qed.

Lemma rne_nonneg (y : Q) : (0 <= y)%Q -> 0 <= Num.rne y.
Proof.
  intros Hy. unfold Num.rne.
  assert (H : 0 <= Qfloor y).
  { change 0 with (Qfloor 0). now apply Qfloor_resp_le. }
  destruct (y - inject_Z (Qfloor y) ?= 1 # 2)%Q; [|lia|lia].
  destruct (Z.even (Qfloor y)); lia.
Qed.


Lemma pow2_pos (e : Z) : (0 < 2 ^ e)%Q.
Proof. now apply Qpower_0_lt. Qed.

Lemma pow2_add (a b : Z) : (2 ^ (a + b) == 2 ^ a * 2 ^ b)%Q.
Proof. apply Qpower_plus. discriminate. Qed.

Lemma pow2_Z (n : Z) : 0 <= n -> (inject_Z (2 ^ n) == 2 ^ n)%Q.
Proof. intros H. now rewrite Zpower_Qpower. Qed.

Lemma pow2_le (a b : Z) : a <= b -> (2 ^ a <= 2 ^ b)%Q.
Proof. intros H. apply Qpower_le_compat_l; [exact H|discriminate]. Qed.

(** [binade q] is not above the binary logarithm of [q]. *)
Lemma binade_le (q : Q) : (0 < q)%Q -> (2 ^ Num.binade q <= q)%Q.
Proof.
  intros Hq. unfold Num.binade.
  set (la := Z.log2 (Qnum q)). set (lb := Z.log2 (Z.pos (Qden q))).
  destruct (Qle_bool (2 ^ (la - lb)) q) eqn:E; [now apply Qle_bool_iff|].
  assert (Hn : 0 < Qnum q).
  { destruct q as [n d]. unfold Qlt in Hq. simpl in *. lia. }
  assert (Hla : 2 ^ la <= Qnum q) by (apply Z.log2_spec; exact Hn).
  assert (Hlb : Z.pos (Qden q) < 2 ^ (lb + 1)).
  { replace (lb + 1) with (Z.succ lb) by lia. apply Z.log2_spec. lia. }
  assert (H0a : 0 <= la) by apply Z.log2_nonneg.
  assert (H0b : 0 <= lb) by apply Z.log2_nonneg.
  set (P := (2 ^ (la - lb - 1))%Q).
  assert (HP : (P * inject_Z (2 ^ (lb + 1)) == inject_Z (2 ^ la))%Q).
  { subst P. rewrite !pow2_Z by lia. rewrite <- pow2_add.
    now replace (la - lb - 1 + (lb + 1)) with la by lia. }
  assert (Hq' : (q * inject_Z (Z.pos (Qden q)) == inject_Z (Qnum q))%Q).
  { destruct q as [n d]. unfold Qeq. simpl. rewrite Pos.mul_1_r. ring. }
  assert (HB : (0 < inject_Z (2 ^ (lb + 1)))%Q).
  { change 0%Q with (inject_Z 0). rewrite <- Zlt_Qlt. lia. }
  apply (Qmult_le_r _ _ _ HB). rewrite HP.
  apply Qle_trans with (inject_Z (Qnum q)); [now rewrite <- Zle_Qle|].
  rewrite <- Hq'. apply Qmult_le_l; [exact Hq|].
  rewrite <- Zle_Qle. lia.
Qed.

(** The spacing of the doubles around a positive [q]. *)
Lemma ulp_bound (q : Q) :
  (0 < q)%Q ->
  let e := Z.max (Num.binade q - 52) (-1074) in
  (2 ^ e <= q * 2 ^ (-52))%Q \/ e = -1074.
Proof.
  intros Hq e. subst e.
  destruct (Z.max_spec (Num.binade q - 52) (-1074)) as [[_ ->]|[_ ->]];
    [now right|left].
  replace (Num.binade q - 52) with (Num.binade q + -52) by lia.
  rewrite pow2_add. apply Qmult_le_r; [apply pow2_pos|now apply binade_le].
Qed.

Lemma round_pos_near (q : Q) :
  (0 < q)%Q -> (q < 2 ^ 1023)%Q ->
  exists r,
    Num.round_pos q = Num.Fin r
    /\ (0 <= r)%Q
    /\ ((Qabs (r - q) <= q * 2 ^ (-53))%Q \/ (Qabs (r - q) <= 2 ^ (-1075))%Q).
Proof.
  intros Hq Hbig. unfold Num.round_pos.
  pose proof (ulp_bound q Hq) as Hulp. cbv zeta in Hulp.
  set (e := Z.max (Num.binade q - 52) (-1074)) in *.
  set (y := (q / 2 ^ e)%Q).
  pose proof (rne_near y) as [Hlo Hhi].
  pose proof (pow2_pos e) as He.
  assert (Hy : (y * 2 ^ e == q)%Q).
  { subst y. field. intros H. rewrite H in He. now apply Qlt_irrefl in He. }
  assert (Hm : (0 <= inject_Z (Num.rne y))%Q).
  { change 0%Q with (inject_Z 0). rewrite <- Zle_Qle. apply rne_nonneg.
    subst y. apply Qle_shift_div_l; [exact He|]. rewrite Qmult_0_l.
    now apply Qlt_le_weak. }
  set (m := inject_Z (Num.rne y)) in *.
  assert (Herr : (Qabs (m * 2 ^ e - q) <= 2 ^ e * (1 # 2))%Q).
  { apply Qabs_Qle_condition. rewrite <- Hy. split.
    - assert (H : ((y - (1 # 2)) * 2 ^ e <= m * 2 ^ e)%Q)
        by (apply Qmult_le_r; [exact He|lra]).
      lra.
    - assert (H : (m * 2 ^ e <= (y + (1 # 2)) * 2 ^ e)%Q)
        by (apply Qmult_le_r; [exact He|lra]).
      lra. }
  assert (H53 : (2 ^ (-52) * (1 # 2) == 2 ^ (-53))%Q) by reflexivity.
  assert (H75 : (2 ^ (-1074) * (1 # 2) == 2 ^ (-1075))%Q) by reflexivity.
  assert (Hcase : (Qabs (m * 2 ^ e - q) <= q * 2 ^ (-53))%Q
                  \/ (Qabs (m * 2 ^ e - q) <= 2 ^ (-1075))%Q).
  { destruct Hulp as [Hu|Hu].
    - left. rewrite <- H53. lra.
    - right. rewrite <- H75. rewrite <- Hu. exact Herr. }
  assert (Hsmall : (m * 2 ^ e < 2 ^ 1024)%Q).
  { assert (H24 : (2 ^ 1024 == 2 ^ 1023 + 2 ^ 1023)%Q) by reflexivity.
    assert (Hp53 : (2 ^ (-53) <= 1)%Q) by (apply (pow2_le (-53) 0); lia).
    assert (Hp75 : (2 ^ (-1075) <= 2 ^ 1023)%Q) by (apply pow2_le; lia).
    rewrite H24.
    assert (Gen : forall r0 p53 p75 big : Q,
               (q < big)%Q -> (p53 <= 1)%Q -> (p75 <= big)%Q ->
               (Qabs (r0 - q) <= q * p53)%Q \/ (Qabs (r0 - q) <= p75)%Q ->
               (r0 < big + big)%Q).
    { intros r0 p53 p75 big G1 G2 G3 [Hc|Hc]; apply Qabs_Qle_condition in Hc.
      - assert (q * p53 <= q * 1)%Q
          by (apply Qmult_le_l; assumption).
        lra.
      - lra. }
    exact (Gen _ _ _ _ Hbig Hp53 Hp75 Hcase). }
  destruct (Qle_bool (2 ^ 1024) (m * 2 ^ e)) eqn:E.
  { apply Qle_bool_iff in E. exfalso. apply (Qlt_irrefl (2 ^ 1024)).
    eapply Qle_lt_trans; eassumption. }
  exists (Qred (m * 2 ^ e)). split; [reflexivity|].
  rewrite !Qred_correct. split; [|exact Hcase].
  apply Qmult_le_0_compat; [exact Hm|now apply Qlt_le_weak].
Qed.

Lemma round64_zero (q : Q) : (q == 0)%Q -> Num.round64 q = Num.Fin 0.
Proof.
  intros H. unfold Num.round64. apply Qeq_alt in H. now rewrite H.
Qed.

(** A positive fraction in the range of the normal numbers is rounded
    with a relative error of at most [2 ^ (-53)]. *)
Lemma round64_near (q : Q) :
  (2 ^ (-1022) <= q)%Q -> (q < 2 ^ 1023)%Q ->
  exists r,
    Num.round64 q = Num.Fin r
    /\ (q - q * 2 ^ (-53) <= r)%Q /\ (r <= q + q * 2 ^ (-53))%Q.
Proof.
  intros Hlo Hhi.
  assert (Hq : (0 < q)%Q).
  { eapply Qlt_le_trans; [apply (pow2_pos (-1022))|exact Hlo]. }
  unfold Num.round64. apply Qgt_alt in Hq as Hc. rewrite Hc.
  destruct (round_pos_near q Hq Hhi) as (r & Hr & _ & Hcase).
  exists r. split; [exact Hr|].
  assert (H75 : (2 ^ (-1075) == 2 ^ (-1022) * 2 ^ (-53))%Q) by reflexivity.
  assert (Hp : (0 < 2 ^ (-53))%Q) by apply pow2_pos.
  assert (Hbound : (Qabs (r - q) <= q * 2 ^ (-53))%Q).
  { destruct Hcase as [H|H]; [exact H|].
    eapply Qle_trans; [exact H|]. rewrite H75.
    apply Qmult_le_r; assumption. }
  apply Qabs_Qle_condition in Hbound.
  generalize dependent (2 ^ (-53))%Q. intros p53 _ _ Hb. split; lra.
Qed.




Lemma floor_between (p : Q) (k : Z) :
  (inject_Z k <= p)%Q -> (p < inject_Z (k + 1))%Q -> Qfloor p = k.
Proof.
  intros Hlo Hhi.
  assert (H1 : k <= Qfloor p).
  { rewrite <- (Qfloor_Z k). now apply Qfloor_resp_le. }
  assert (H2 : Qfloor p < k + 1).
  { rewrite Zlt_Qlt. eapply Qle_lt_trans; [apply Qfloor_le|exact Hhi]. }
  lia.
Qed.

End Rounding.

(** ** RateLimiter: the refill *)

Section Refill.
Implicit Types (s : RateLimiter.t) (now : Z).

(** The product [timePassed / windowSizeMs * burstLimit] as the code
    computes it, with two roundings, times [windowSizeMs], is less than
    one away from the integer [timePassed * burstLimit]. *)
Lemma refill_product_near (tp w b : Z) :
  0 < w <= 2 ^ 53 -> 1 <= tp -> 1 <= b -> tp * b < 2 ^ 51 ->
  exists p,
    Num.mul64 (Num.div64 (Num.of_Z tp) (Num.of_Z w)) (Num.of_Z b) = Num.Fin p
    /\ (inject_Z (tp * b) - 1 < inject_Z w * p)%Q
    /\ (inject_Z w * p < inject_Z (tp * b) + 1)%Q.
Proof.
  intros [Hw Hw53] Htp Hb Hn.
  unfold Num.mul64, Num.div64, Num.of_Z, Num.div.
  assert (HW : (0 < inject_Z w)%Q)
    by (change 0%Q with (inject_Z 0); rewrite <- Zlt_Qlt; lia).
  assert (HT : (1 <= inject_Z tp)%Q)
    by (change 1%Q with (inject_Z 1); rewrite <- Zle_Qle; lia).
  assert (HB : (1 <= inject_Z b)%Q)
    by (change 1%Q with (inject_Z 1); rewrite <- Zle_Qle; lia).
  assert (HW53 : (inject_Z w <= 2 ^ 53)%Q).
  { rewrite <- pow2_Z by lia. rewrite <- Zle_Qle. lia. }
  assert (HN : (inject_Z tp * inject_Z b < 2 ^ 51)%Q).
  { rewrite <- inject_Z_mult, <- pow2_Z by lia. rewrite <- Zlt_Qlt. lia. }
  destruct (Qeq_bool (inject_Z w) 0) eqn:E.
  { apply Qeq_bool_iff in E. rewrite E in HW. now apply Qlt_irrefl in HW. }
  cbn [Num.round].
  set (x1 := (inject_Z tp / inject_Z w)%Q).
  assert (Hx1 : (inject_Z w * x1 == inject_Z tp)%Q).
  { subst x1. field. intros H. rewrite H in HW. now apply Qlt_irrefl in HW. }
  assert (Hx1lo : (2 ^ (-53) <= x1)%Q).
  { subst x1. apply Qle_shift_div_l; [exact HW|].
    assert (H : (2 ^ (-53) * 2 ^ 53 == 1)%Q) by reflexivity.
    apply Qle_trans with (2 ^ (-53) * 2 ^ 53)%Q.
    - apply Qmult_le_l; [apply pow2_pos|exact HW53].
    - rewrite H. exact HT. }
  assert (Hx1hi : (x1 <= inject_Z tp)%Q).
  { subst x1. apply Qle_shift_div_r; [exact HW|].
    assert (1 <= inject_Z w)%Q
      by (change 1%Q with (inject_Z 1); rewrite <- Zle_Qle; lia).
    assert (inject_Z tp * 1 <= inject_Z tp * inject_Z w)%Q
      by (apply Qmult_le_l; [lra|assumption]).
    lra. }
  assert (Htp51 : (inject_Z tp < 2 ^ 51)%Q).
  { assert (inject_Z tp * 1 <= inject_Z tp * inject_Z b)%Q
      by (apply Qmult_le_l; [lra|assumption]).
    lra. }
  destruct (round64_near x1) as (a & Ha & Halo & Hahi).
  { eapply Qle_trans; [apply (pow2_le (-1022) (-53)); lia|exact Hx1lo]. }
  { eapply Qle_lt_trans; [exact Hx1hi|].
    eapply Qlt_le_trans; [exact Htp51|apply pow2_le; lia]. }
  rewrite Ha. cbn [Num.mul Num.round].
  set (eps := (2 ^ (-53))%Q) in *.
  assert (Heps : (eps == 1 # 9007199254740992)%Q) by reflexivity.
  assert (Hx1b : (x1 * inject_Z b < 2 ^ 51)%Q).
  { assert (x1 * inject_Z b <= inject_Z tp * inject_Z b)%Q
      by (apply Qmult_le_r; [lra|assumption]).
    lra. }
  assert (Hablo : (x1 * inject_Z b - x1 * inject_Z b * eps <= a * inject_Z b)%Q).
  { assert ((x1 - x1 * eps) * inject_Z b <= a * inject_Z b)%Q
      by (apply Qmult_le_r; [lra|assumption]).
    lra. }
  assert (Habhi : (a * inject_Z b <= x1 * inject_Z b + x1 * inject_Z b * eps)%Q).
  { assert (a * inject_Z b <= (x1 + x1 * eps) * inject_Z b)%Q
      by (apply Qmult_le_r; [lra|assumption]).
    lra. }
  set (u := (x1 * inject_Z b)%Q) in *.
  assert (Hu : (inject_Z w * u == inject_Z (tp * b))%Q).
  { subst u. rewrite inject_Z_mult, <- Hx1. ring. }
  assert (Hulo : (eps <= u)%Q).
  { subst u. assert (x1 * 1 <= x1 * inject_Z b)%Q
      by (apply Qmult_le_l; [lra|assumption]).
    lra. }
  assert (H51 : (2 ^ 51 == 2251799813685248)%Q) by reflexivity.
  destruct (round64_near (a * inject_Z b)) as (p & Hp & Hplo & Hphi).
  { apply Qle_trans with (eps * (1 # 2))%Q.
    - rewrite Heps. assert (H : (2 ^ (-1022) <= 2 ^ (-54))%Q)
        by (apply pow2_le; lia).
      eapply Qle_trans; [exact H|]. apply Qle_lteq. right. reflexivity.
    - assert (u * eps <= u * (1 # 2))%Q
        by (apply Qmult_le_l; [lra|rewrite Heps; apply Qle_bool_iff; reflexivity]).
      lra. }
  { apply Qlt_le_trans with (2 ^ 52)%Q; [|apply pow2_le; lia].
    assert (H52 : (2 ^ 52 == 2 ^ 51 + 2 ^ 51)%Q) by reflexivity.
    rewrite H52.
    assert (u * eps <= u * 1)%Q
      by (apply Qmult_le_l; [lra|rewrite Heps; apply Qle_bool_iff; reflexivity]).
    lra. }
  exists p. split; [exact Hp|].
  fold eps in Hplo, Hphi.
  set (ab := (a * inject_Z b)%Q) in *.
  assert (Hab0 : (0 <= ab)%Q).
  { assert (u * eps <= u * 1)%Q
      by (apply Qmult_le_l; [lra|rewrite Heps; apply Qle_bool_iff; reflexivity]).
    lra. }
  assert (Habe : (ab * eps <= (u + u * eps) * eps)%Q).
  { apply Qmult_le_r; [lra|lra]. }
  (* |p - u| <= u * (2 eps + eps^2) *)
  assert (Hpu_hi : (p <= u + u * (2 * eps + eps * eps))%Q) by lra.
  assert (Hpu_lo : (u - u * (2 * eps + eps * eps) <= p)%Q) by lra.
  assert (Hwp_hi : (inject_Z w * p
                    <= inject_Z w * (u + u * (2 * eps + eps * eps)))%Q)
    by (apply Qmult_le_l; assumption).
  assert (Hwp_lo : (inject_Z w * (u - u * (2 * eps + eps * eps))
                    <= inject_Z w * p)%Q)
    by (apply Qmult_le_l; assumption).
  assert (Hexp_hi : (inject_Z w * (u + u * (2 * eps + eps * eps))
                     == inject_Z (tp * b)
                        + inject_Z (tp * b) * (2 * eps + eps * eps))%Q).
  { rewrite <- Hu. ring. }
  assert (Hexp_lo : (inject_Z w * (u - u * (2 * eps + eps * eps))
                     == inject_Z (tp * b)
                        - inject_Z (tp * b) * (2 * eps + eps * eps))%Q).
  { rewrite <- Hu. ring. }
  rewrite Hexp_hi in Hwp_hi. rewrite Hexp_lo in Hwp_lo.
  assert (Hn0 : (0 <= inject_Z (tp * b))%Q)
    by (change 0%Q with (inject_Z 0); rewrite <- Zle_Qle; lia).
  assert (Hn51 : (inject_Z (tp * b) < 2251799813685248)%Q).
  { rewrite inject_Z_mult, <- H51. exact HN. }
  rewrite Heps in Hwp_hi, Hwp_lo.
  assert (Gen : forall n wp : Q,
             (0 <= n)%Q -> (n < 2251799813685248)%Q ->
             (wp <= n + n * (2 * (1 # 9007199254740992)
                             + (1 # 9007199254740992) * (1 # 9007199254740992)))%Q ->
             (n - n * (2 * (1 # 9007199254740992)
                       + (1 # 9007199254740992) * (1 # 9007199254740992)) <= wp)%Q ->
             (n - 1 < wp)%Q /\ (wp < n + 1)%Q).
  { intros n wp G1 G2 G3 G4. split; lra. }
  exact (Gen _ _ Hn0 Hn51 Hwp_hi Hwp_lo).
Qed.

(** The refill count.  Within the stated range the two roundings of the
    code never credit more than the exact quotient
    [floor (timePassed * burstLimit / windowSizeMs)], and they credit
    one token less only where that quotient is a whole number. *)
Lemma tokensToAdd_near s now :
  0 < RateLimiter.windowSizeMs s <= 2 ^ 53 ->
  RateLimiter.lastRefill s <= now ->
  1 <= RateLimiter.burstLimit s ->
  (now - RateLimiter.lastRefill s) * RateLimiter.burstLimit s < 2 ^ 51 ->
  exists added,
    RateLimiter.tokensToAdd now s = Num.Fin (inject_Z added)
    /\ (added = RateLimiter.spec_tokensEarned now s
        \/ (added = RateLimiter.spec_tokensEarned now s - 1
            /\ 0 < RateLimiter.spec_tokensEarned now s
            /\ ((now - RateLimiter.lastRefill s) * RateLimiter.burstLimit s)
               mod RateLimiter.windowSizeMs s = 0)).
Proof.
  intros Hw Hnow Hb Hn.
  unfold RateLimiter.tokensToAdd, RateLimiter.spec_tokensEarned. cbv zeta.
  set (tp := now - RateLimiter.lastRefill s) in *.
  set (w := RateLimiter.windowSizeMs s) in *.
  set (b := RateLimiter.burstLimit s) in *.
  destruct (Z.eq_dec tp 0) as [H0|H0].
  - exists 0. rewrite H0. split.
    + unfold Num.mul64, Num.div64, Num.of_Z, Num.div.
      destruct (Qeq_bool (inject_Z w) 0) eqn:E.
      { apply Qeq_bool_iff in E. unfold Qeq in E. simpl in E. lia. }
      cbn [Num.round]. rewrite round64_zero by (unfold Qeq; simpl; lia).
      cbn [Num.mul Num.round]. rewrite round64_zero by (unfold Qeq; simpl; lia).
      reflexivity.
    + left. rewrite Z.mul_0_l. symmetry. apply Z.div_0_l. lia.
  - destruct (refill_product_near tp w b Hw ltac:(lia) Hb Hn) as (p & Hp & Hlo & Hhi).
    rewrite Hp. cbn [Num.floor].
    exists (Qfloor p). split; [reflexivity|].
    pose proof (Z.div_mod (tp * b) w ltac:(lia)) as Hdm.
    pose proof (Z.mod_pos_bound (tp * b) w ltac:(lia)) as Hmod.
    set (k := tp * b / w) in *. set (r := (tp * b) mod w) in *.
    assert (HW : (0 < inject_Z w)%Q)
      by (change 0%Q with (inject_Z 0); rewrite <- Zlt_Qlt; lia).
    assert (Hup : (p < inject_Z (k + 1))%Q).
    { apply (Qmult_lt_l _ _ (inject_Z w) HW).
      eapply Qlt_le_trans; [exact Hhi|].
      rewrite <- inject_Z_mult. change 1%Q with (inject_Z 1).
      rewrite <- inject_Z_plus, <- Zle_Qle. nia. }
    destruct (Z.eq_dec r 0) as [Hr|Hr].
    + assert (Hdown : (inject_Z (k - 1) < p)%Q).
      { apply (Qmult_lt_l _ _ (inject_Z w) HW).
        eapply Qle_lt_trans; [|exact Hlo].
        rewrite <- inject_Z_mult. change 1%Q with (inject_Z 1).
        unfold Qminus. change (- inject_Z 1)%Q with (inject_Z (- 1)).
        rewrite <- inject_Z_plus, <- Zle_Qle. nia. }
      assert (Hk : 0 < k) by nia.
      destruct (Qlt_le_dec p (inject_Z k)) as [Hlt|Hge].
      * right. split; [|split; [exact Hk|exact Hr]].
        apply floor_between.
        -- now apply Qlt_le_weak.
        -- now replace (k - 1 + 1) with k by lia.
      * left. now apply floor_between.
    + left. apply floor_between; [|exact Hup].
      apply Qlt_le_weak. apply (Qmult_lt_l _ _ (inject_Z w) HW).
      eapply Qle_lt_trans; [|exact Hlo].
      rewrite <- inject_Z_mult. change 1%Q with (inject_Z 1).
      unfold Qminus. change (- inject_Z 1)%Q with (inject_Z (- 1)).
      rewrite <- inject_Z_plus, <- Zle_Qle. nia.
Qed.

Lemma inject_Z_le_0 k : Qle_bool (inject_Z k) 0 = (k <=? 0).
Proof.
  unfold Qle_bool, inject_Z. simpl. now rewrite Z.mul_1_r.
Qed.

(** The refill when the count is a finite whole number. *)
Lemma refillTokens_added s now added :
  RateLimiter.tokensToAdd now s = Num.Fin (inject_Z added) ->
  RateLimiter.refillTokens now s
  = if added <=? 0 then s
    else RateLimiter.with_bucket
           (Z.min (RateLimiter.burstLimit s) (RateLimiter.tokens s + added))
           now s.
Proof.
  intros H. unfold RateLimiter.refillTokens.
  now rewrite H, inject_Z_le_0, Qfloor_Z.
Qed.

(** C2 (as the code has it): a refill computes
    [Math.floor((now - lastRefill) / windowSizeMs * burstLimit)] in
    binary64 arithmetic.  With a burst limit of one or more, a clock
    that has not gone back and [timePassed * burstLimit] below [2 ^ 51],
    the count is the exact quotient
    [floor (timePassed * burstLimit / windowSizeMs)], or one less than
    it where the exact quotient is a positive whole number.  A positive
    count is added to the bucket, the bucket is clamped at
    [burstLimit], and [lastRefill] is set to [now]; otherwise the
    limiter is left as it was.  In every state a refill either changes
    nothing or sets [lastRefill] to [now], it never lifts the bucket
    above [burstLimit], and it changes nothing but the bucket. *)
Theorem C2_refill_adds_floor_and_resets_lastRefill s now :
  let earned := RateLimiter.spec_tokensEarned now s in
  let s' := RateLimiter.refillTokens now s in
  (0 < RateLimiter.windowSizeMs s <= 2 ^ 53 ->
   RateLimiter.lastRefill s <= now ->
   1 <= RateLimiter.burstLimit s ->
   (now - RateLimiter.lastRefill s) * RateLimiter.burstLimit s < 2 ^ 51 ->
   exists added,
     RateLimiter.tokensToAdd now s = Num.Fin (inject_Z added)
     /\ (added = earned
         \/ (added = earned - 1
             /\ 0 < earned
             /\ ((now - RateLimiter.lastRefill s) * RateLimiter.burstLimit s)
                mod RateLimiter.windowSizeMs s = 0))
     /\ (0 < added ->
         RateLimiter.tokens s'
         = Z.min (RateLimiter.burstLimit s) (RateLimiter.tokens s + added)
         /\ RateLimiter.lastRefill s' = now)
     /\ (added <= 0 -> s' = s))
  /\ (s' = s \/ RateLimiter.lastRefill s' = now)
  /\ (RateLimiter.tokens s <= RateLimiter.burstLimit s ->
      RateLimiter.tokens s' <= RateLimiter.burstLimit s)
  /\ RateLimiter.requests s' = RateLimiter.requests s
  /\ RateLimiter.stats s' = RateLimiter.stats s
  /\ RateLimiter.burstLimit s' = RateLimiter.burstLimit s
  /\ RateLimiter.requestsPerMinute s' = RateLimiter.requestsPerMinute s
  /\ RateLimiter.windowSizeMs s' = RateLimiter.windowSizeMs s.
Proof.
  cbv zeta. split.
  - intros Hw Hnow Hb Hn.
    destruct (tokensToAdd_near s now Hw Hnow Hb Hn) as (added & Hadd & Hval).
    exists added. split; [exact Hadd|]. split; [exact Hval|].
    rewrite (refillTokens_added s now added Hadd).
    destruct (added <=? 0) eqn:E.
    + apply Z.leb_le in E. split; [lia|reflexivity].
    + apply Z.leb_gt in E. simpl. split; [now split|lia].
  - unfold RateLimiter.refillTokens.
    destruct (RateLimiter.tokensToAdd now s) as [k| | |].
    + destruct (Qle_bool k 0); simpl; repeat split; auto; lia.
    + simpl. repeat split; auto; lia.
    + repeat split; auto.
    + repeat split; auto.
Qed.

End Refill.

(** C2 at work on a fresh limiter (burst 10, window 60 s) four minutes
    later: the bucket is still full and [lastRefill] is the new [now]. *)
Lemma C2_refill_witness :
  let s := RateLimiter.new 0 RateLimiter.no_options in
  RateLimiter.tokens (RateLimiter.refillTokens 240000 s) = 10
  /\ RateLimiter.lastRefill (RateLimiter.refillTokens 240000 s) = 240000.
Proof.
  cbv zeta.
  destruct (proj1 (C2_refill_adds_floor_and_resets_lastRefill
                     (RateLimiter.new 0 RateLimiter.no_options) 240000))
    as (added & _ & Hval & Hpos & _).
  - vm_compute. split; [reflexivity|discriminate].
  - vm_compute. discriminate.
  - vm_compute. discriminate.
  - vm_compute. reflexivity.
  - change (RateLimiter.spec_tokensEarned 240000
              (RateLimiter.new 0 RateLimiter.no_options)) with 40 in Hval.
    change (RateLimiter.burstLimit (RateLimiter.new 0 RateLimiter.no_options))
      with 10 in Hpos.
    change (RateLimiter.tokens (RateLimiter.new 0 RateLimiter.no_options))
      with 10 in Hpos.
    destruct Hpos as [Htok Hlast]; [lia|].
    split; [lia|exact Hlast].
Defined.

(** C2, the claim as worded fails on [lastRefill]: an empty bucket last
    refilled at time 0 is refilled at 9000 ms, one and a half token
    intervals later.  One token is added; keeping the half interval would
    put [lastRefill] at 6000, the code puts it at 9000.  The half interval
    is lost: at 12000 ms two tokens have been earned since time 0, but the
    bucket still holds one. *)
Lemma C2_lastRefill_counterexample :
  let s := RateLimiter.with_bucket 0 0 (RateLimiter.new 0 RateLimiter.no_options) in
  let s' := RateLimiter.refillTokens 9000 s in
  RateLimiter.tokens s' = 1
  /\ RateLimiter.lastRefill s' = 9000
  /\ (RateLimiter.spec_lastRefill 9000 s == 6000)%Q
  /\ ~ (inject_Z (RateLimiter.lastRefill s') == RateLimiter.spec_lastRefill 9000 s)%Q
  /\ RateLimiter.spec_tokensEarned 12000 s = 2
  /\ RateLimiter.tokens (RateLimiter.refillTokens 12000 s') = 1.
Proof.
  cbv zeta.
  split; [vm_compute; reflexivity|].
  split; [vm_compute; reflexivity|].
  split; [vm_compute; reflexivity|].
  split; [intros H; vm_compute in H; discriminate H|].
  split; vm_compute; reflexivity.
Qed.

(** The rounding at work: with a burst limit of 50, 34800 ms after the
    last refill exactly 29 tokens have been earned, and the code adds
    28, because [34800 / 60000 * 50] is computed as
    [28.999999999999996]. *)
Lemma refill_rounds_below_a_whole_token :
  let s := RateLimiter.with_bucket 0 0
             (RateLimiter.new 0 (RateLimiter.mkOptions None (Some 50))) in
  RateLimiter.spec_tokensEarned 34800 s = 29
  /\ RateLimiter.tokensToAdd 34800 s = Num.of_Z 28
  /\ RateLimiter.tokens (RateLimiter.refillTokens 34800 s) = 28.
Proof. cbv zeta. repeat split; vm_compute; reflexivity. Qed.

(** ** RateLimiter: admission and the wait of a rejected attempt *)

Section Admission.
Implicit Types (s : RateLimiter.t) (now : Z).

Lemma canMakeRequest_iff s :
  RateLimiter.canMakeRequest s = true
  <-> 0 < RateLimiter.tokens s
      /\ Z.of_nat (length (RateLimiter.requests s)) < RateLimiter.requestsPerMinute s.
Proof.
  unfold RateLimiter.canMakeRequest.
  destruct (RateLimiter.tokens s <=? 0) eqn:Et;
    destruct (Z.of_nat (length (RateLimiter.requests s))
              >=? RateLimiter.requestsPerMinute s) eqn:Er;
    split; intros H; try discriminate; try reflexivity; lia.
Qed.

Lemma num_max_finite a b :
  Num.max (Num.Fin a) (Num.Fin b) = Num.Fin (Qmax a b).
Proof. reflexivity. Qed.





(** An admitted attempt takes one token and records [now] as the newest
    request of the window. *)
Lemma waitForToken_granted s now s' :
  RateLimiter.waitForToken now s = RateLimiter.Granted s' ->
  let s2 := RateLimiter.cleanOldRequests now (RateLimiter.refillTokens now s) in
  RateLimiter.tokens s' = RateLimiter.tokens s2 - 1
  /\ RateLimiter.requests s' = (RateLimiter.requests s2 ++ [now])%list
  /\ RateLimiter.totalRequests (RateLimiter.stats s')
     = (RateLimiter.totalRequests (RateLimiter.stats s2) + 1)%N.
Proof.
  unfold RateLimiter.waitForToken. cbv zeta.
  set (s2 := RateLimiter.cleanOldRequests now (RateLimiter.refillTokens now s)).
  clearbody s2.
  destruct (RateLimiter.canMakeRequest s2) eqn:Ecan; [|discriminate].
  apply canMakeRequest_iff in Ecan. intros [= <-]. simpl.
  repeat split. lia.
Qed.

End Admission.

(** ** Reading a decimal delay with [parseInt] *)

Section ParseIntFacts.






Lemma decimal_truthy n : Js.truthy (Js.VString (ParseInt.decimal n)) = true.
Proof.
  unfold ParseInt.decimal. now destruct (Nat.to_uint n).
Qed.

End ParseIntFacts.

(** ** APIRateLimiter: the server's retry hint *)

Section RetryHint.
Implicit Types (l : APIRateLimiter.t) (response : APIRateLimiter.Response).

(** The running average after one more wait [w], all numbers finite. *)
Lemma average_after_rejection (s : RateLimiter.t) (a w : Q) :
  RateLimiter.averageWaitTime (RateLimiter.stats s) = Num.Fin a ->
  let r := inject_Z (Z.of_N (RateLimiter.rejectedRequests (RateLimiter.stats s))) in
  Num.eqv
    (RateLimiter.averageWaitTime
       (RateLimiter.stats
          (RateLimiter.updateAverageWaitTime (Num.Fin w) (RateLimiter.inc_rejected s))))
    (Num.Fin ((a * r + w) / (r + 1))%Q).
Proof.
  intros Ha. cbv zeta.
  unfold RateLimiter.updateAverageWaitTime, RateLimiter.inc_rejected. simpl.
  rewrite Ha. rewrite N2Z.inj_add. change (Z.of_N 1) with 1.
  set (n := Z.of_N (RateLimiter.rejectedRequests (RateLimiter.stats s))).
  assert (Hn : 0 <= n) by apply N2Z.is_nonneg.
  unfold Num.of_Z, Num.sub, Num.neg, Num.add, Num.mul, Num.div.
  destruct (Qeq_bool (inject_Z (n + 1)) 0) eqn:E.
  - exfalso. apply Qeq_bool_iff in E. unfold Qeq in E. simpl in E. lia.
  - unfold Num.eqv. rewrite inject_Z_plus.
    assert (H1 : (inject_Z n + inject_Z 1 + - inject_Z 1 == inject_Z n)%Q) by ring.
    now rewrite H1.
Qed.


End RetryHint.



(** A header name that the header object only inherits is read all the
    same: with [retryAfterHeader] set to [toString], an object literal
    without headers yields the built-in function, which is truthy and
    reads as [NaN].  The response is counted as a rejection, and the
    timer is armed with [NaN]. *)
Lemma inherited_property_is_taken_for_a_hint :
  let l := APIRateLimiter.new 0
             (APIRateLimiter.mkOptions RateLimiter.no_options None
                (Some "toString")) in
  let response := APIRateLimiter.mkResponse 429 (Some (Js.literal ∅)) in
  match APIRateLimiter.handleRateLimitResponse response l with
  | Js.Ok (Some w, l') =>
      w = Num.NaN
      /\ RateLimiter.rejectedRequests (RateLimiter.stats (APIRateLimiter.base l'))
         = 1%N
  | _ => False
  end.
Proof. cbv zeta. vm_compute. split; reflexivity. Qed.

(** [parseInt] on some header values: white space of any kind is
    skipped, also the no-break space and U+FEFF; what follows the
    digits is ignored; a date reads as [NaN]; a numeral beyond
    [2 ^ 53] is rounded. *)
Lemma parseInt_examples :
  ParseInt.parseInt (Js.units " 120") = Num.of_Z 120
  /\ ParseInt.parseInt (160%N :: Js.units "5") = Num.of_Z 5
  /\ ParseInt.parseInt (65279%N :: 8195%N :: Js.units "7") = Num.of_Z 7
  /\ ParseInt.parseInt (Js.units "2.5") = Num.of_Z 2
  /\ ParseInt.parseInt (Js.units "0x1A") = Num.of_Z 26
  /\ ParseInt.parseInt (Js.units "-3s") = Num.of_Z (-3)
  /\ ParseInt.parseInt (Js.units "Wed, 21 Oct 2015 07:28:00 GMT") = Num.NaN
  /\ ParseInt.parseInt (Js.units "9007199254740993") = Num.of_Z 9007199254740992.
Proof. repeat split; vm_compute; reflexivity. Qed.

(** A response without a header object makes the call throw, and a
    response with another status is not looked into. *)
Lemma handleRateLimitResponse_edges l :
  APIRateLimiter.handleRateLimitResponse (APIRateLimiter.mkResponse 429 None) l
  = Js.Throw "TypeError"
  /\ forall status hs,
       status <> 429 ->
       APIRateLimiter.handleRateLimitResponse
         (APIRateLimiter.mkResponse status hs) l
       = Js.Ok (None, l).
Proof.
  split; [reflexivity|]. intros status hs Hne.
  unfold APIRateLimiter.handleRateLimitResponse. cbn [APIRateLimiter.status].
  destruct (Z.eqb_spec status 429); [contradiction|reflexivity].
Qed.

(** ** GlobalRateLimiter: one limiter per key *)

Section Registry.
Implicit Types (g : GlobalRateLimiter.t) (key : string)
         (options : RateLimiter.Options) (l : GlobalRateLimiter.loc).

Lemma getLimiter_existing g now key options l :
  GlobalRateLimiter.limiters g !! key = Some l ->
  GlobalRateLimiter.getLimiter now key options g = (Some l, g).
Proof.
  intros H. unfold GlobalRateLimiter.getLimiter.
  rewrite bool_decide_true by (rewrite H; eauto).
  now rewrite H.
Qed.

Lemma getLimiter_new g now key options :
  GlobalRateLimiter.limiters g !! key = None ->
  GlobalRateLimiter.getLimiter now key options g
  = (Some (length (GlobalRateLimiter.heap g)),
     GlobalRateLimiter.mkGlobal
       (GlobalRateLimiter.heap g ++ [RateLimiter.new now options])%list
       (<[key := length (GlobalRateLimiter.heap g)]> (GlobalRateLimiter.limiters g))).
Proof.
  intros H. unfold GlobalRateLimiter.getLimiter.
  rewrite bool_decide_false by (rewrite H; intros [? [=]]).
  simpl. now rewrite lookup_insert_eq.
Qed.

Lemma wf_constructor : GlobalRateLimiter.wf GlobalRateLimiter.constructor.
Proof. split; simpl; intros *; rewrite lookup_empty; discriminate. Qed.

Lemma wf_getLimiter g now key options :
  GlobalRateLimiter.wf g ->
  GlobalRateLimiter.wf (snd (GlobalRateLimiter.getLimiter now key options g)).
Proof.
  intros [Hdom Hinj].
  destruct (GlobalRateLimiter.limiters g !! key) as [l|] eqn:E.
  - rewrite (getLimiter_existing _ _ _ _ _ E). now split.
  - rewrite (getLimiter_new _ _ _ _ E). split; simpl.
    + intros k l. rewrite List.length_app. simpl.
      destruct (decide (key = k)) as [<-|Hne].
      * rewrite lookup_insert_eq. intros [= <-]. lia.
      * rewrite lookup_insert_ne by assumption.
        intros H. apply Hdom in H. lia.
    + intros k1 k2 l.
      destruct (decide (key = k1)) as [<-|Hne1];
        destruct (decide (key = k2)) as [<-|Hne2];
        rewrite ?lookup_insert_eq, ?lookup_insert_ne by assumption.
      * reflexivity.
      * intros [= <-] H. apply Hdom in H. lia.
      * intros H [= <-]. apply Hdom in H. lia.
      * apply Hinj.
Qed.

Lemma wf_step g a :
  GlobalRateLimiter.wf g -> GlobalRateLimiter.wf (GlobalRateLimiter.step g a).
Proof.
  destruct a as [now key options|l f]; unfold GlobalRateLimiter.step.
  - apply wf_getLimiter.
  - intros [Hdom Hinj]. split; simpl; [|exact Hinj].
    intros k l'. rewrite length_alter. apply Hdom.
Qed.

Lemma wf_run acts g :
  GlobalRateLimiter.wf g -> GlobalRateLimiter.wf (GlobalRateLimiter.run acts g).
Proof.
  revert g. induction acts as [|a acts IH]; intros g Hwf; simpl; [assumption|].
  apply IH, wf_step, Hwf.
Qed.

(** Once a key is registered, nothing a client does re-binds it. *)
Lemma step_keeps_binding g a key l :
  GlobalRateLimiter.limiters g !! key = Some l ->
  GlobalRateLimiter.limiters (GlobalRateLimiter.step g a) !! key = Some l.
Proof.
  intros H. destruct a as [now k options|l' f];
    unfold GlobalRateLimiter.step; [|assumption].
  destruct (GlobalRateLimiter.limiters g !! k) as [l0|] eqn:E.
  - now rewrite (getLimiter_existing _ _ _ _ _ E).
  - rewrite (getLimiter_new _ _ _ _ E). simpl.
    rewrite lookup_insert_ne; [assumption|]. intros ->. congruence.
Qed.

Lemma run_keeps_binding acts g key l :
  GlobalRateLimiter.limiters g !! key = Some l ->
  GlobalRateLimiter.limiters (GlobalRateLimiter.run acts g) !! key = Some l.
Proof.
  revert g. induction acts as [|a acts IH]; intros g H; simpl; [assumption|].
  apply IH, step_keeps_binding, H.
Qed.

(** C8: in a well-formed registry [getLimiter] always answers with a
    limiter [l] and leaves the registry well formed.  If the key was
    not registered, [l] is a new object, built from the caller's
    options, at an address no key was bound to, and the objects that
    existed are not touched.  Whatever lookups and limiter calls
    follow, a later lookup of the same key answers [l] again, with any
    options; and no other key is bound to [l]. *)
Theorem C8_one_limiter_per_key g now key options :
  GlobalRateLimiter.wf g ->
  let r := GlobalRateLimiter.getLimiter now key options g in
  exists l,
    fst r = Some l
    /\ GlobalRateLimiter.wf (snd r)
    /\ (GlobalRateLimiter.limiters g !! key = None ->
        GlobalRateLimiter.heap g !! l = None
        /\ GlobalRateLimiter.heap (snd r) !! l = Some (RateLimiter.new now options)
        /\ (forall k, GlobalRateLimiter.limiters g !! k <> Some l)
        /\ (forall l', (l' < length (GlobalRateLimiter.heap g))%nat ->
                       GlobalRateLimiter.heap (snd r) !! l'
                       = GlobalRateLimiter.heap g !! l'))
    /\ (forall acts now' options',
          fst (GlobalRateLimiter.getLimiter now' key options'
                 (GlobalRateLimiter.run acts (snd r))) = Some l)
    /\ (forall k' l',
          k' <> key ->
          GlobalRateLimiter.limiters (snd r) !! k' = Some l' -> l' <> l).
Proof.
  intros Hwf. cbv zeta.
  pose proof (wf_getLimiter g now key options Hwf) as Hwf'.
  assert (Hbound : exists l,
             fst (GlobalRateLimiter.getLimiter now key options g) = Some l
             /\ GlobalRateLimiter.limiters
                  (snd (GlobalRateLimiter.getLimiter now key options g)) !! key
                = Some l).
  { destruct (GlobalRateLimiter.limiters g !! key) as [l|] eqn:E.
    - rewrite (getLimiter_existing _ _ _ _ _ E). eauto.
    - rewrite (getLimiter_new _ _ _ _ E). simpl.
      rewrite lookup_insert_eq. eauto. }
  destruct Hbound as [l [Hfst Hbind]].
  exists l. split; [exact Hfst|]. split; [exact Hwf'|]. split; [|split].
  - intros Hnew. rewrite (getLimiter_new _ _ _ _ Hnew) in Hfst |- *.
    simpl in Hfst |- *. injection Hfst as <-.
    split; [apply lookup_ge_None_2; lia|].
    split; [now apply list_lookup_middle|].
    split.
    + intros k Hk. destruct Hwf as [Hdom _]. apply Hdom in Hk. lia.
    + intros l' Hl'. now apply lookup_app_l.
  - intros acts now' options'.
    now rewrite (getLimiter_existing _ now' key options' l
                   (run_keeps_binding acts _ key l Hbind)).
  - intros k' l' Hne Hk' ->. destruct Hwf' as [_ Hinj].
    apply Hne. exact (Hinj _ _ _ Hk' Hbind).
Qed.

(** C10: a lookup of a key that is already registered answers with its
    limiter and returns the registry and the heap unchanged, so the
    limiter keeps every field, its configuration included; the answer
    does not depend on the options passed. *)
Theorem C10_lookup_of_registered_key_ignores_options g now key options l :
  GlobalRateLimiter.limiters g !! key = Some l ->
  GlobalRateLimiter.getLimiter now key options g = (Some l, g)
  /\ (forall now' options',
        GlobalRateLimiter.getLimiter now' key options' g
        = GlobalRateLimiter.getLimiter now key options g)
  /\ GlobalRateLimiter.heap (snd (GlobalRateLimiter.getLimiter now key options g)) !! l
     = GlobalRateLimiter.heap g !! l.
Proof.
  intros H. rewrite (getLimiter_existing g now key options l H).
  split; [reflexivity|]. split; [|reflexivity].
  intros now' options'. apply getLimiter_existing, H.
Qed.

End Registry.

(** C8 at work on the empty registry: the first lookup of "files" creates
    the limiter at address 0 with the caller's burst limit, and a second
    lookup with other options, after an unrelated lookup, answers with the
    same address. *)
Lemma C8_registry_witness :
  let opts := RateLimiter.mkOptions (Some 30) (Some 5) in
  let r := GlobalRateLimiter.getLimiter 0 "files" opts GlobalRateLimiter.constructor in
  exists l,
    fst r = Some l
    /\ GlobalRateLimiter.heap (snd r) !! l = Some (RateLimiter.new 0 opts)
    /\ fst (GlobalRateLimiter.getLimiter 9 "files" RateLimiter.no_options
              (GlobalRateLimiter.run
                 [GlobalRateLimiter.Lookup 5 "images" RateLimiter.no_options]
                 (snd r))) = Some l.
Proof.
  cbv zeta.
  destruct (C8_one_limiter_per_key GlobalRateLimiter.constructor 0 "files"
              (RateLimiter.mkOptions (Some 30) (Some 5)) wf_constructor)
    as [l [Hl [_ [Hnew [Hlater _]]]]].
  exists l. split; [exact Hl|]. split.
  - apply Hnew. reflexivity.
  - apply Hlater.
Defined.

(** C10 at work: "files" was registered with a burst limit of 5; a lookup
    that passes a burst limit of 99 changes nothing. *)
Lemma C10_registry_witness :
  let g := snd (GlobalRateLimiter.getLimiter 0 "files"
                  (RateLimiter.mkOptions (Some 30) (Some 5))
                  GlobalRateLimiter.constructor) in
  GlobalRateLimiter.getLimiter 7 "files" (RateLimiter.mkOptions None (Some 99)) g
  = (Some 0%nat, g).
Proof.
  cbv zeta.
  refine (proj1 (C10_lookup_of_registered_key_ignores_options _ 7 "files" _ 0%nat _)).
  reflexivity.
Defined.

(** ** Worked examples *)

(** FIFO with room for two: storing "A", "B", "C" evicts "A". *)
Example fifo_evicts_first_inserted :
  let c := Cache.run_sets [Cache.mkSetCall 1 1 "A" 1%nat None;
                           Cache.mkSetCall 2 2 "B" 2%nat None;
                           Cache.mkSetCall 3 3 "C" 3%nat None]
             (Cache.new (Cache.mkOptions (Some 2) None (Some "fifo"))) in
  fst (Cache.get 4 4 "A" c) = None
  /\ fst (Cache.get 4 4 "B" c) = Some 2%nat
  /\ fst (Cache.get 4 4 "C" c) = Some 3%nat
  /\ Cache.size c = 2.
Proof. cbv zeta. repeat split. Qed.

(** LRU with room for two, one millisecond between the calls: after
    reading "A", storing "C" evicts "B". *)
Example lru_evicts_least_recently_read :
  let c0 := Cache.new (Cache.mkOptions (Some 2) None (Some "lru")) in
  let c2 := Cache.run_sets [Cache.mkSetCall 1 1 "A" 1%nat None;
                            Cache.mkSetCall 2 2 "B" 2%nat None] c0 in
  let c3 := snd (Cache.get 3 3 "A" c2) in
  let c4 := snd (Cache.set 4 4 "C" 3%nat None c3) in
  fst (Cache.get 5 5 "A" c4) = Some 1%nat
  /\ fst (Cache.get 5 5 "B" c4) = None
  /\ fst (Cache.get 5 5 "C" c4) = Some 3%nat.
Proof. cbv zeta. repeat split. Qed.

(** A limiter for three requests per minute with a burst of three grants
    three attempts at once and rejects the fourth: the bucket is empty
    (a token interval is 20 s) and the window is full until the first
    request is a minute old, so the wait is 60 s. *)
Example burst_of_three_then_wait :
  let s0 := RateLimiter.new 0 (RateLimiter.mkOptions (Some 3) (Some 3)) in
  match RateLimiter.waitForToken 0 s0 with
  | RateLimiter.Granted s1 =>
      match RateLimiter.waitForToken 0 s1 with
      | RateLimiter.Granted s2 =>
          match RateLimiter.waitForToken 0 s2 with
          | RateLimiter.Granted s3 =>
              RateLimiter.tokens s3 = 0
              /\ match RateLimiter.waitForToken 0 s3 with
                 | RateLimiter.Rejected w s4 =>
                     Num.eqv w (Num.of_Z 60000)
                     /\ RateLimiter.rejectedRequests (RateLimiter.stats s4) = 1%N
                 | RateLimiter.Granted _ => False
                 end
          | RateLimiter.Rejected _ _ => False
          end
      | RateLimiter.Rejected _ _ => False
      end
  | RateLimiter.Rejected _ _ => False
  end.
Proof. vm_compute. repeat split. Qed.

(** A minute without requests refills the bucket to [burstLimit] and not
    beyond, also after several minutes. *)
Example refill_never_exceeds_burstLimit :
  let s := RateLimiter.with_bucket 0 0
             (RateLimiter.new 0 (RateLimiter.mkOptions None (Some 3))) in
  RateLimiter.tokens (RateLimiter.refillTokens 60000 s) = 3
  /\ RateLimiter.tokens (RateLimiter.refillTokens 600000 s) = 3.
Proof. cbv zeta. split; reflexivity. Qed.

(** * Further properties of the code *)

(** ** Cache: storing and reading back *)

Section CacheRoundTrip.
Context {V : Type}.
Implicit Types (c : Cache.t V) (key k : string) (item : Cache.Item V).

Lemma jsmap_get_delete_ne {A} key k (m : JsMap.t A) :
  key <> k -> JsMap.get k (JsMap.delete key m) = JsMap.get k m.
Proof.
  intros Hne. unfold JsMap.delete.
  induction m as [|[k0 x] m IH]; simpl; [reflexivity|].
  destruct (String.eqb key k0) eqn:E; simpl.
  - apply String.eqb_eq in E. subst k0.
    destruct (String.eqb k key) eqn:E'; [|exact IH].
    apply String.eqb_eq in E'. congruence.
  - now rewrite IH.
Qed.

Lemma jsmap_size_set_has {A} key (x : A) (m : JsMap.t A) :
  JsMap.has key m = true -> JsMap.size (JsMap.set key x m) = JsMap.size m.
Proof.
  intros H. now rewrite !jsmap_size_keys, jsmap_keys_set_has.
Qed.

(** X1: whatever the cache held and whatever was evicted on the way,
    the value stored by [set] is what [get] returns up to and including
    the instant [now + ttl * 1000], and [get] misses from the next
    millisecond on; [ttl] is the third argument when it is given and not
    zero, the cache's [ttl] otherwise. *)
Theorem X1_set_then_get c key (v : V) customTtl now now_evict t t_access :
  let c' := snd (Cache.set now now_evict key v customTtl c) in
  let expires := now + Js.num_or customTtl (Cache.ttl c) * 1000 in
  (t <= expires -> fst (Cache.get t t_access key c') = Some v)
  /\ (expires < t -> fst (Cache.get t t_access key c') = None).
Proof.
  cbv zeta. unfold Cache.set, Cache.get. simpl.
  rewrite jsmap_get_set_eq. simpl.
  destruct (t >? now + Js.num_or customTtl (Cache.ttl c) * 1000) eqn:E;
    split; intros H; try reflexivity; lia.
Qed.

(** X2: [set] on a key that is stored never evicts: the number of
    entries and the eviction counter stay as they were, and every other
    key keeps its entry, its access time and its access count. *)
Theorem X2_overwrite_never_evicts c key (v : V) customTtl now now_evict :
  JsMap.has key (Cache.data c) = true ->
  let c' := snd (Cache.set now now_evict key v customTtl c) in
  Cache.size c' = Cache.size c
  /\ Cache.evictions (Cache.stats c') = Cache.evictions (Cache.stats c)
  /\ Cache.deletes (Cache.stats c') = Cache.deletes (Cache.stats c)
  /\ forall k, k <> key ->
       JsMap.get k (Cache.data c') = JsMap.get k (Cache.data c)
       /\ JsMap.get k (Cache.accessTimes c') = JsMap.get k (Cache.accessTimes c)
       /\ JsMap.get k (Cache.accessCounts c') = JsMap.get k (Cache.accessCounts c).
Proof.
  intros Hhas. cbv zeta. unfold Cache.set, Cache.size.
  rewrite Hhas, andb_false_r. simpl.
  split; [now apply jsmap_size_set_has|].
  split; [reflexivity|]. split; [reflexivity|].
  intros k Hne.
  assert (Hne' : key <> k) by congruence.
  rewrite !(jsmap_get_set_ne key k) by assumption. auto.
Qed.

End CacheRoundTrip.

(** X2 at work: "a" is written twice into a cache that is full. *)
Lemma X2_overwrite_witness :
  let c := Cache.run_sets [Cache.mkSetCall 1 1 "a" 1%nat None;
                           Cache.mkSetCall 2 2 "b" 2%nat None]
             (Cache.new (Cache.mkOptions (Some 2) None None)) in
  Cache.size (snd (Cache.set 3 3 "a" 5%nat None c)) = Cache.size c.
Proof.
  cbv zeta.
  refine (proj1 (X2_overwrite_never_evicts _ "a" 5%nat None 3 3 _)).
  reflexivity.
Defined.

(** ** Cache: whom the policies evict *)

Section CacheVictims.
Context {V : Type}.
Implicit Types (c : Cache.t V) (key k : string).

(** The LRU scan either keeps what it started with, when no access time
    is below its starting time, or ends on the first entry that carries
    the least access time. *)
Lemma scanLRU_first_minimum (m : JsMap.t Z) :
  forall oldestTime oldestKey,
    (Cache.scanLRU m oldestTime oldestKey = oldestKey
     /\ Forall (fun kt => oldestTime <= snd kt) m)
    \/ exists pre k t post,
         m = (pre ++ (k, t) :: post)%list
         /\ t < oldestTime
         /\ Forall (fun kt => t < snd kt) pre
         /\ Forall (fun kt => t <= snd kt) post
         /\ Cache.scanLRU m oldestTime oldestKey = Some k.
Proof.
  induction m as [|[k1 t1] m IH]; intros t0 ok; simpl.
  - left. split; [reflexivity|constructor].
  - destruct (t1 <? t0) eqn:E.
    + apply Z.ltb_lt in E. right.
      destruct (IH t1 (Some k1)) as [[Hscan Hall]|(pre & k & t & post & -> & Ht & Hpre & Hpost & Hscan)].
      * exists [], k1, t1, m. repeat split; try assumption. constructor.
      * exists ((k1, t1) :: pre), k, t, post.
        repeat split; try assumption; [lia|].
        constructor; [simpl; lia|assumption].
    + apply Z.ltb_ge in E.
      destruct (IH t0 ok) as [[Hscan Hall]|(pre & k & t & post & -> & Ht & Hpre & Hpost & Hscan)].
      * left. split; [assumption|]. constructor; [simpl; lia|assumption].
      * right. exists ((k1, t1) :: pre), k, t, post.
        repeat split; try assumption.
        constructor; [simpl; lia|assumption].
Qed.

(** X3: [findLRUKey] answers with the first key, in the order of the
    map, among those with the least access time, provided that time is
    older than the clock reading; it answers [null] exactly when no
    stored access time is older than the clock reading. *)
Theorem X3_findLRUKey_first_oldest now c :
  (forall k, Cache.findLRUKey now c = Some k ->
     exists pre t post,
       Cache.accessTimes c = (pre ++ (k, t) :: post)%list
       /\ t < now
       /\ Forall (fun kt => t < snd kt) pre
       /\ Forall (fun kt => t <= snd kt) post)
  /\ (Cache.findLRUKey now c = None
      <-> Forall (fun kt => now <= snd kt) (Cache.accessTimes c)).
Proof.
  unfold Cache.findLRUKey.
  destruct (scanLRU_first_minimum (Cache.accessTimes c) now None)
    as [[Hscan Hall]|(pre & k0 & t & post & Hm & Ht & Hpre & Hpost & Hscan)].
  - rewrite Hscan. split; [discriminate|]. split; auto.
  - rewrite Hscan. split.
    + intros k [= <-]. exists pre, t, post. auto.
    + split; [discriminate|]. intros Hall. exfalso.
      rewrite Hm in Hall. apply Forall_app in Hall. destruct Hall as [_ Hall].
      inversion Hall as [|? ? Hhd _]; subst. simpl in Hhd. lia.
Qed.

(** The LFU scan, in the same way; a lowest count of [None] stands for
    [Infinity]. *)
Lemma scanLFU_first_minimum (m : JsMap.t N) :
  forall lowest least,
    (Cache.scanLFU m lowest least = least
     /\ Forall (fun kn => match lowest with
                          | Some lc => (lc <= snd kn)%N
                          | None => False
                          end) m)
    \/ exists pre k n post,
         m = (pre ++ (k, n) :: post)%list
         /\ match lowest with Some lc => (n < lc)%N | None => True end
         /\ Forall (fun kn => (n < snd kn)%N) pre
         /\ Forall (fun kn => (n <= snd kn)%N) post
         /\ Cache.scanLFU m lowest least = Some k.
Proof.
  induction m as [|[k1 n1] m IH]; intros lc lk.
  - left. split; [reflexivity|constructor].
  - assert (Hlower :
      (match lc with Some l => (n1 <? l)%N | None => true end) = true ->
      exists pre k n post,
        ((k1, n1) :: m) = (pre ++ (k, n) :: post)%list
        /\ match lc with Some l => (n < l)%N | None => True end
        /\ Forall (fun kn => (n < snd kn)%N) pre
        /\ Forall (fun kn => (n <= snd kn)%N) post
        /\ Cache.scanLFU m (Some n1) (Some k1) = Some k).
    { intros Hlow.
      assert (Hn1 : match lc with Some l => (n1 < l)%N | None => True end).
      { destruct lc as [l|]; [now apply N.ltb_lt|exact I]. }
      destruct (IH (Some n1) (Some k1))
        as [[Hscan Hall]|(pre & k & n & post & -> & Hn & Hpre & Hpost & Hscan)].
      - exists [], k1, n1, m. repeat split; try assumption. constructor.
      - exists ((k1, n1) :: pre), k, n, post.
        repeat split; try assumption.
        + destruct lc as [l|]; [lia|exact I].
        + constructor; [simpl; lia|assumption]. }
    simpl.
    destruct (match lc with Some l => (n1 <? l)%N | None => true end) eqn:E.
    + right. apply Hlower. reflexivity.
    + destruct lc as [l|]; [|discriminate]. apply N.ltb_ge in E.
      destruct (IH (Some l) lk)
        as [[Hscan Hall]|(pre & k & n & post & -> & Hn & Hpre & Hpost & Hscan)].
      * left. split; [assumption|]. constructor; [simpl; lia|assumption].
      * right. exists ((k1, n1) :: pre), k, n, post.
        repeat split; try assumption.
        constructor; [simpl; lia|assumption].
Qed.

(** X4: [findLFUKey] answers with the first key, in the order of the
    map, among those with the least access count, and it answers [null]
    only for a cache without entries. *)
Theorem X4_findLFUKey_first_least_used c :
  (forall k, Cache.findLFUKey c = Some k ->
     exists pre n post,
       Cache.accessCounts c = (pre ++ (k, n) :: post)%list
       /\ Forall (fun kn => (n < snd kn)%N) pre
       /\ Forall (fun kn => (n <= snd kn)%N) post)
  /\ (Cache.findLFUKey c = None <-> Cache.accessCounts c = []).
Proof.
  unfold Cache.findLFUKey.
  destruct (scanLFU_first_minimum (Cache.accessCounts c) None None)
    as [[Hscan Hall]|(pre & k0 & n & post & Hm & _ & Hpre & Hpost & Hscan)].
  - rewrite Hscan. split; [discriminate|]. split; [intros _|reflexivity].
    destruct (Cache.accessCounts c) as [|kn m]; [reflexivity|].
    inversion Hall as [|? ? [] _].
  - rewrite Hscan. split.
    + intros k [= <-]. exists pre, n, post. auto.
    + split; [discriminate|]. rewrite Hm. intros H.
      destruct pre; discriminate H.
Qed.

(** X5: under FIFO a [set] of a new key into a full cache evicts the key
    that was inserted first and no other: the rest of the insertion
    order moves up, the new key goes last, and the entries of the other
    keys are as before.  Reading a key does not change who is first. *)
Theorem X5_fifo_evicts_first_inserted c key (v : V) customTtl now now_evict first rest :
  Cache.inv c ->
  Cache.strategy c = "fifo" ->
  Cache.insertionOrder c = first :: rest ->
  JsMap.has key (Cache.data c) = false ->
  Cache.maxSize c <= Cache.size c ->
  let c' := snd (Cache.set now now_evict key v customTtl c) in
  JsMap.has first (Cache.data c') = false
  /\ Cache.insertionOrder c' = (rest ++ [key])%list
  /\ Cache.evictions (Cache.stats c') = (Cache.evictions (Cache.stats c) + 1)%N
  /\ (forall k, In k rest ->
        JsMap.get k (Cache.data c') = JsMap.get k (Cache.data c))
  /\ (forall t t_access k,
        fst (Cache.get t t_access k c) <> None ->
        Cache.findFIFOKey (snd (Cache.get t t_access k c)) = Cache.findFIFOKey c).
Proof.
  intros (Hd & Ht & Hc & Hnd & Htr) Hfifo Horder Hnew Hfull. cbv zeta.
  assert (Hfirst_in : JsMap.has first (Cache.data c) = true).
  { apply jsmap_has_in_keys. rewrite Hd, Horder. now left. }
  assert (Hfirst_truthy : Js.truthy_str first = true).
  { rewrite Horder in Htr. now inversion Htr. }
  assert (Hfirst_ne : first <> key) by (intros ->; congruence).
  assert (Hnd' : ~ In first rest /\ NoDup rest).
  { rewrite Horder in Hnd. inversion Hnd as [|? ? Hnin Hnd']; subst.
    split; [|assumption]. intros H. apply Hnin. now apply list_elem_of_In. }
  destruct Hnd' as [Hnin Hndrest].
  assert (Hkey_rest : ~ In key rest).
  { intros H. apply jsmap_has_false in Hnew. apply Hnew.
    rewrite Hd, Horder. now right. }
  assert (Hevict : Cache.evict now_evict c
                   = Cache.with_stats Cache.inc_evictions (snd (Cache.delete first c))).
  { unfold Cache.evict, Cache.keyToEvict, Cache.findFIFOKey.
    rewrite Hfifo, Horder. simpl. rewrite Hfirst_truthy. simpl.
    now rewrite Hfirst_truthy. }
  unfold Cache.set. fold (Cache.size c).
  assert (Hge : (Cache.size c >=? Cache.maxSize c) = true)
    by (apply Z.geb_le; exact Hfull).
  rewrite Hge, Hnew. simpl. rewrite Hevict.
  rewrite (cache_delete_present first c Hfirst_in). simpl.
  rewrite Horder. simpl. rewrite String.eqb_refl.
  assert (Hinc : Cache.includes key rest = false).
  { destruct (Cache.includes key rest) eqn:E; [|reflexivity].
    apply includes_in in E. contradiction. }
  rewrite Hinc.
  split.
  { apply jsmap_has_false. rewrite jsmap_keys_set_new.
    - rewrite jsmap_keys_delete, Hd, Horder. simpl. rewrite String.eqb_refl. simpl.
      rewrite filter_absent by assumption.
      intros H. apply in_app_or in H. destruct H as [H|[H|[]]]; [contradiction|congruence].
    - apply jsmap_has_false. rewrite jsmap_keys_delete, Hd.
      intros H. apply List.filter_In in H. destruct H as [H _].
      apply jsmap_has_false in Hnew. apply Hnew. now rewrite Hd. }
  split; [reflexivity|]. split; [reflexivity|]. split.
  - intros k Hk.
    assert (k <> key) by (intros ->; contradiction).
    assert (first <> k) by (intros ->; contradiction).
    rewrite jsmap_get_set_ne by congruence.
    now apply jsmap_get_delete_ne.
  - intros t t_access k. unfold Cache.get, Cache.findFIFOKey.
    destruct (JsMap.get k (Cache.data c)) as [item|]; simpl; [|congruence].
    destruct (t >? Cache.expiresAt item); simpl; [congruence|reflexivity].
Qed.

End CacheVictims.

(** X5 at work: "a" and "b" fill the cache, "a" is read, "c" comes in. *)
Lemma X5_fifo_witness :
  let c := snd (Cache.get 3 3 "a"
             (Cache.run_sets [Cache.mkSetCall 1 1 "a" 1%nat None;
                              Cache.mkSetCall 2 2 "b" 2%nat None]
                (Cache.new (Cache.mkOptions (Some 2) None (Some "fifo"))))) in
  let c' := snd (Cache.set 4 4 "c" 3%nat None c) in
  JsMap.has "a" (Cache.data c') = false
  /\ Cache.insertionOrder c' = ["b"; "c"].
Proof.
  cbv zeta.
  match goal with
  | |- JsMap.has _ (Cache.data (snd (Cache.set _ _ _ _ _ ?c))) = _ /\ _ =>
      pose proof (X5_fifo_evicts_first_inserted c "c" 3%nat None 4 4 "a" ["b"]) as H
  end.
  destruct H as (H1 & H2 & _).
  - repeat split; simpl; repeat constructor;
      rewrite ?list_elem_of_In; simpl; intuition discriminate.
  - reflexivity.
  - reflexivity.
  - reflexivity.
  - unfold Cache.size, JsMap.size. simpl. lia.
  - split; assumption.
Defined.

(** ** Cache: [touch] and [getWithMetadata] *)

Section CacheTouch.
Context {V : Type}.
Implicit Types (c : Cache.t V) (key k : string) (item : Cache.Item V).

(** X6: [touch] answers [false] and changes nothing for a key that is
    not stored.  For a stored key it has no expiry test: also an entry
    that is already past its expiry, as long as it has not been removed,
    gets the new expiry [now + ttl * 1000], keeps its value and is read
    by [get] again until then.  The access time becomes [now]; access
    counts and the number of entries do not change. *)
Theorem X6_touch_extends_or_revives c key customTtl now :
  (JsMap.get key (Cache.data c) = None ->
   Cache.touch now key customTtl c = (false, c))
  /\ (forall item,
        JsMap.get key (Cache.data c) = Some item ->
        let r := Cache.touch now key customTtl c in
        fst r = true
        /\ (forall t t_access,
              t <= now + Js.num_or customTtl (Cache.ttl c) * 1000 ->
              fst (Cache.get t t_access key (snd r)) = Some (Cache.value item))
        /\ JsMap.get key (Cache.accessTimes (snd r)) = Some now
        /\ Cache.accessCounts (snd r) = Cache.accessCounts c
        /\ Cache.size (snd r) = Cache.size c
        /\ Cache.stats (snd r) = Cache.stats c).
Proof.
  split.
  - intros Hnone. unfold Cache.touch. now rewrite Hnone.
  - intros item Hget. cbv zeta. unfold Cache.touch. rewrite Hget. simpl.
    split; [reflexivity|]. split.
    + intros t t_access Ht. unfold Cache.get. simpl.
      rewrite jsmap_get_set_eq. simpl.
      destruct (t >? now + Js.num_or customTtl (Cache.ttl c) * 1000) eqn:E;
        [lia|reflexivity].
    + split; [apply jsmap_get_set_eq|]. split; [reflexivity|].
      split; [|reflexivity].
      unfold Cache.size. simpl. apply jsmap_size_set_has.
      unfold JsMap.has. now rewrite Hget.
Qed.

(** X7: [getWithMetadata] finds or misses exactly as [get] does, returns
    the same value and leaves the same entries, access times, access
    counts and insertion order behind, but it counts neither a hit nor a
    miss.  On a hit the metadata show the access count after the
    increment and the access time just written. *)
Theorem X7_getWithMetadata_is_get_uncounted c key now now_access :
  let g := Cache.get now now_access key c in
  let m := Cache.getWithMetadata now now_access key c in
  option_map Cache.md_value (fst m) = fst g
  /\ Cache.data (snd m) = Cache.data (snd g)
  /\ Cache.accessTimes (snd m) = Cache.accessTimes (snd g)
  /\ Cache.accessCounts (snd m) = Cache.accessCounts (snd g)
  /\ Cache.insertionOrder (snd m) = Cache.insertionOrder (snd g)
  /\ Cache.hits (Cache.stats (snd m)) = Cache.hits (Cache.stats c)
  /\ Cache.misses (Cache.stats (snd m)) = Cache.misses (Cache.stats c)
  /\ (forall md, fst m = Some md ->
        Cache.md_lastAccessed md = Some now_access
        /\ Cache.md_accessCount md
           = Some (match JsMap.get key (Cache.accessCounts c) with
                   | Some n => n | None => 0 end + 1)%N).
Proof.
  cbv zeta. unfold Cache.get, Cache.getWithMetadata.
  destruct (JsMap.get key (Cache.data c)) as [item|] eqn:Hget; simpl.
  - destruct (now >? Cache.expiresAt item) eqn:E; simpl.
    + unfold Cache.delete.
      destruct (JsMap.has key (Cache.data c)); simpl;
        do 7 (split; [reflexivity|]); intros md [=].
    + do 7 (split; [reflexivity|]). intros md [= <-]. simpl. split.
      * apply jsmap_get_set_eq.
      * unfold Cache.bump. apply jsmap_get_set_eq.
  - do 7 (split; [reflexivity|]). intros md [=].
Qed.

End CacheTouch.

(** ** Cache: shrinking with [setMaxSize] *)

Section CacheShrink.
Context {V : Type}.
Implicit Types (c : Cache.t V) (key k : string) (clock : nat -> Z).

Lemma forall_delete {A} (P : string * A -> Prop) key (m : JsMap.t A) :
  Forall P m -> Forall P (JsMap.delete key m).
Proof.
  unfold JsMap.delete. rewrite !Forall_forall. intros H x Hx. apply H.
  apply list_elem_of_In. apply list_elem_of_In in Hx.
  now apply List.filter_In in Hx.
Qed.

Lemma evict_loop_shrinks clock :
  forall fuel round c,
    Cache.inv c ->
    (Cache.strategy c = "fifo" \/ Cache.strategy c = "lfu"
     \/ forall i, Forall (fun kt => snd kt < clock i) (Cache.accessTimes c)) ->
    0 <= Cache.maxSize c ->
    (Z.to_nat (Cache.size c - Cache.maxSize c) <= fuel)%nat ->
    exists c',
      Cache.evict_while_over fuel clock round c = Some c'
      /\ Cache.maxSize c' = Cache.maxSize c
      /\ Cache.size c' = Z.min (Cache.size c) (Cache.maxSize c)
      /\ Cache.inv c'
      /\ forall k, JsMap.has k (Cache.data c) = false ->
                   JsMap.has k (Cache.data c') = false.
Proof.
  induction fuel as [|fuel IH]; intros round c Hinv Hpol Hmax Hfuel.
  - simpl. fold (Cache.size c).
    destruct (Z.gtb_spec (Cache.size c) (Cache.maxSize c)) as [E|E]; [lia|].
    exists c. split; [reflexivity|]. split; [reflexivity|].
    split; [lia|]. split; [exact Hinv|auto].
  - simpl. fold (Cache.size c).
    destruct (Z.gtb_spec (Cache.size c) (Cache.maxSize c)) as [E|E].
    + assert (Hne : Cache.insertionOrder c <> [])
        by (apply data_nonempty_order; [assumption|lia]).
      assert (Hav : Cache.victim_available (clock round) c).
      { destruct Hpol as [H|[H|H]]; [now left|right; now left|].
        right; right. specialize (H round).
        destruct Hinv as (_ & Ht & _).
        destruct (Cache.accessTimes c) as [|kt m].
        - simpl in Ht. congruence.
        - inversion H; subst. now left. }
      destruct (inv_evict (clock round) c Hinv Hne Hav)
        as (E1 & E2 & E3 & E4 & _ & (k0 & E6) & E7).
      destruct (IH (S round) (Cache.evict (clock round) c)) as (c' & R1 & R2 & R3 & R4 & R5).
      * exact E1.
      * rewrite E4, E6. destruct Hpol as [H|[H|H]]; auto.
        right; right. intros i. apply forall_delete, H.
      * lia.
      * lia.
      * exists c'. split; [exact R1|]. split; [lia|]. split; [lia|].
        split; [exact R4|]. intros k Hk. apply R5, E7, Hk.
    + exists c. split; [reflexivity|]. split; [reflexivity|].
      split; [lia|]. split; [exact Hinv|auto].
Qed.

(** X8: on a cache of the regular shape, under FIFO or LFU, or under
    any policy when every clock reading of the loop is later than every
    stored access time, [setMaxSize] with a size of zero or more comes
    back after at most [size - newMaxSize] rounds; the cache then holds
    [min (size, newMaxSize)] entries, all of them entries it held
    before. *)
Theorem X8_setMaxSize_shrinks clock (newMaxSize : Z) c (fuel : nat) :
  Cache.inv c ->
  (Cache.strategy c = "fifo" \/ Cache.strategy c = "lfu"
   \/ forall i, Forall (fun kt => snd kt < clock i) (Cache.accessTimes c)) ->
  0 <= newMaxSize ->
  (Z.to_nat (Cache.size c - newMaxSize) <= fuel)%nat ->
  exists c',
    Cache.setMaxSize fuel clock newMaxSize c = Some c'
    /\ Cache.maxSize c' = newMaxSize
    /\ Cache.size c' = Z.min (Cache.size c) newMaxSize
    /\ Cache.inv c'
    /\ forall k, JsMap.has k (Cache.data c') = true ->
                 JsMap.has k (Cache.data c) = true.
Proof.
  intros Hinv Hpol Hn Hfuel. unfold Cache.setMaxSize.
  destruct (evict_loop_shrinks clock fuel 0 (Cache.with_maxSize newMaxSize c))
    as (c' & R1 & R2 & R3 & R4 & R5); try assumption.
  exists c'. split; [exact R1|]. split; [exact R2|]. split; [exact R3|].
  split; [exact R4|]. intros k Hk.
  destruct (JsMap.has k (Cache.data c)) eqn:E; [reflexivity|].
  specialize (R5 k E). congruence.
Qed.

Lemma evict_keeps_maxSize t c :
  Cache.maxSize (Cache.evict t c) = Cache.maxSize c.
Proof.
  unfold Cache.evict.
  destruct (Js.truthy_key (Cache.keyToEvict t c)) as [k|]; [|reflexivity].
  unfold Cache.delete. now destruct (JsMap.has k (Cache.data c)).
Qed.

(** X9: with a negative size [setMaxSize] never comes back, whatever
    the cache holds and whatever the policy is: the number of entries
    cannot fall below zero, so the test of the loop stays true. *)
Theorem X9_setMaxSize_negative_never_returns clock (newMaxSize : Z) c :
  newMaxSize < 0 ->
  forall fuel, Cache.setMaxSize fuel clock newMaxSize c = None.
Proof.
  intros Hneg fuel. unfold Cache.setMaxSize.
  assert (Hmax : Cache.maxSize (Cache.with_maxSize newMaxSize c) < 0) by exact Hneg.
  revert Hmax. generalize (Cache.with_maxSize newMaxSize c) as c0.
  generalize 0%nat as round.
  induction fuel as [|fuel IH]; intros round c0 Hmax; simpl;
    assert (Hover : (JsMap.size (Cache.data c0) >? Cache.maxSize c0) = true)
      by (apply Z.gtb_lt; unfold JsMap.size; lia);
    rewrite Hover; [reflexivity|].
  apply IH. now rewrite evict_keeps_maxSize.
Qed.

Lemma scanLRU_nothing_older (m : JsMap.t Z) t :
  Forall (fun kt => t <= snd kt) m -> Cache.scanLRU m t None = None.
Proof.
  induction 1 as [|[k x] m Hx _ IH]; simpl; [reflexivity|].
  simpl in Hx. destruct (x <? t) eqn:E; [lia|exact IH].
Qed.

(** X10: under LRU, or a strategy that is none of the three names, a
    [setMaxSize] below the current number of entries never comes back
    when no clock reading of the loop is later than a stored access
    time, as when the entries were all written or read in the current
    millisecond: every round finds no victim and leaves the cache as it
    is. *)
Theorem X10_setMaxSize_never_returns_on_fresh_entries clock (newMaxSize : Z) c :
  Cache.strategy c <> "fifo" ->
  Cache.strategy c <> "lfu" ->
  (forall i, Forall (fun kt => clock i <= snd kt) (Cache.accessTimes c)) ->
  newMaxSize < Cache.size c ->
  forall fuel, Cache.setMaxSize fuel clock newMaxSize c = None.
Proof.
  intros Hfifo Hlfu Hfresh Hover fuel. unfold Cache.setMaxSize.
  assert (Hstay : forall i,
             Cache.evict (clock i) (Cache.with_maxSize newMaxSize c)
             = Cache.with_maxSize newMaxSize c).
  { intros i. unfold Cache.evict, Cache.keyToEvict, Cache.findLRUKey. simpl.
    rewrite (scanLRU_nothing_older _ _ (Hfresh i)).
    destruct (String.eqb (Cache.strategy c) "lru"); [reflexivity|].
    destruct (String.eqb (Cache.strategy c) "fifo") eqn:E1;
      [apply String.eqb_eq in E1; contradiction|].
    destruct (String.eqb (Cache.strategy c) "lfu") eqn:E2;
      [apply String.eqb_eq in E2; contradiction|reflexivity]. }
  generalize 0%nat as round.
  induction fuel as [|fuel IH]; intros round; simpl;
    assert (Hgt : (JsMap.size (Cache.data c) >? newMaxSize) = true)
      by (apply Z.gtb_lt; exact Hover);
    rewrite Hgt; [reflexivity|].
  rewrite Hstay. apply IH.
Qed.

End CacheShrink.

(** X8 at work: a FIFO cache of three entries is cut down to one. *)
Lemma X8_setMaxSize_witness :
  let c := Cache.run_sets [Cache.mkSetCall 1 1 "a" 1%nat None;
                           Cache.mkSetCall 2 2 "b" 2%nat None;
                           Cache.mkSetCall 3 3 "c" 3%nat None]
             (Cache.new (Cache.mkOptions (Some 3) None (Some "fifo"))) in
  exists c', Cache.setMaxSize 2 (fun _ => 3) 1 c = Some c' /\ Cache.size c' = 1.
Proof.
  cbv zeta.
  match goal with
  | |- exists c', Cache.setMaxSize _ _ _ ?c = _ /\ _ =>
      destruct (X8_setMaxSize_shrinks (fun _ => 3) 1 c 2) as (c' & H1 & _ & H3 & _)
  end.
  - repeat split; simpl; repeat constructor;
      rewrite ?list_elem_of_In; simpl; intuition discriminate.
  - now left.
  - lia.
  - vm_compute. lia.
  - exists c'. split; [exact H1|exact H3].
Defined.

(** X9 at work on an empty cache. *)
Lemma X9_setMaxSize_negative_witness :
  Cache.setMaxSize 1000 (fun i => Z.of_nat i) (-1)
    (Cache.new (V := nat) (Cache.mkOptions None None None)) = None.
Proof.
  apply (X9_setMaxSize_negative_never_returns (fun i => Z.of_nat i) (-1)). lia.
Defined.

(** X10 at work: two entries written at time 5, the clock still at 5. *)
Lemma X10_setMaxSize_fresh_witness :
  let c := Cache.run_sets [Cache.mkSetCall 5 5 "a" 1%nat None;
                           Cache.mkSetCall 5 5 "b" 2%nat None]
             (Cache.new (Cache.mkOptions (Some 2) None (Some "lru"))) in
  Cache.setMaxSize 50 (fun _ => 5) 1 c = None.
Proof.
  cbv zeta. apply X10_setMaxSize_never_returns_on_fresh_entries.
  - discriminate.
  - discriminate.
  - intros _. simpl. repeat constructor; simpl; lia.
  - vm_compute. reflexivity.
Defined.

(** ** Cache: what the sweep leaves *)

Section CacheSweepExact.
Context {V : Type}.
Implicit Types (c : Cache.t V) (key k : string) (item : Cache.Item V).

Lemma inv_delete_any key c :
  Cache.inv c -> Cache.inv (snd (Cache.delete key c)).
Proof.
  intros Hinv.
  destruct (JsMap.has key (Cache.data c)) eqn:E.
  - apply inv_delete; [assumption|].
    destruct Hinv as (Hd & _). rewrite <- Hd. now apply jsmap_has_in_keys.
  - unfold Cache.delete. now rewrite E.
Qed.

Lemma inv_delete_all (keys : list string) :
  forall c, Cache.inv c ->
            Cache.inv (fold_left (fun c' k => snd (Cache.delete k c')) keys c).
Proof.
  induction keys as [|k keys IH]; intros c Hinv; simpl; [assumption|].
  apply IH, inv_delete_any, Hinv.
Qed.

Lemma delete_all_keeps (keys : list string) :
  forall c key item,
    In (key, item) (Cache.data c) -> ~ In key keys ->
    In (key, item)
       (Cache.data (fold_left (fun c' k => snd (Cache.delete k c')) keys c)).
Proof.
  induction keys as [|k keys IH]; intros c key item Hin Hnot; simpl;
    [assumption|].
  apply IH.
  - rewrite cache_delete_data. unfold JsMap.delete.
    apply List.filter_In. split; [assumption|]. simpl.
    destruct (String.eqb k key) eqn:E; [|reflexivity].
    apply String.eqb_eq in E. subst. exfalso. apply Hnot. now left.
  - intros H. apply Hnot. now right.
Qed.

Lemma jsmap_unique_entry {A} (m : JsMap.t A) key (a b : A) :
  NoDup (JsMap.keys m) -> In (key, a) m -> In (key, b) m -> a = b.
Proof.
  induction m as [|[k x] m IH]; simpl; intros Hnd Ha Hb; [contradiction|].
  apply NoDup_cons in Hnd. destruct Hnd as [Hnin Hnd].
  assert (Hout : forall y, In (k, y) m -> False).
  { intros y Hy. apply Hnin. apply list_elem_of_In.
    now apply in_keys_of_pair with y. }
  destruct Ha as [[= -> ->]|Ha]; destruct Hb as [[= <-]|Hb].
  - reflexivity.
  - exfalso. eauto.
  - subst. exfalso. eauto.
  - eauto.
Qed.

(** X11: on a cache of the regular shape a sweep at time [now] removes
    the entries with [expiresAt < now] and nothing else: an entry is in
    the cache afterwards exactly if it was there before with
    [now <= expiresAt].  The cache keeps its regular shape, so the
    tracking data of the removed keys are gone with them. *)
Theorem X11_cleanup_removes_exactly_the_expired now c :
  Cache.inv c ->
  Cache.inv (Cache.cleanup now c)
  /\ forall key item,
       In (key, item) (Cache.data (Cache.cleanup now c))
       <-> In (key, item) (Cache.data c) /\ now <= Cache.expiresAt item.
Proof.
  intros Hinv. split; [apply inv_delete_all, Hinv|].
  intros key item. unfold Cache.cleanup. split.
  - intros Hin. apply delete_all_in in Hin. destruct Hin as [Hin Hnot].
    split; [assumption|].
    destruct (now >? Cache.expiresAt item) eqn:E; [|lia].
    exfalso. apply Hnot. unfold JsMap.keys.
    change key with (fst (key, item)). apply in_map.
    apply List.filter_In. split; [assumption|exact E].
  - intros [Hin Hlive]. apply delete_all_keeps; [assumption|].
    intros Hexp. unfold JsMap.keys in Hexp. apply in_map_iff in Hexp.
    destruct Hexp as ([k' item'] & Hk & Hf). simpl in Hk. subst k'.
    apply List.filter_In in Hf. destruct Hf as [Hin' Hgt]. simpl in Hgt.
    assert (item' = item).
    { apply (jsmap_unique_entry (Cache.data c) key); try assumption.
      destruct Hinv as (Hd & _ & _ & Hnd & _). now rewrite Hd. }
    subst item'. lia.
Qed.

End CacheSweepExact.

(** X11 at work: "old" lives 1 s, "new" 300 s; the sweep runs after 2 s. *)
Lemma X11_cleanup_witness :
  let c := Cache.run_sets [Cache.mkSetCall 0 0 "old" 1%nat (Some 1);
                           Cache.mkSetCall 0 0 "new" 2%nat None]
             (Cache.new (Cache.mkOptions None None None)) in
  Cache.inv (Cache.cleanup 2000 c)
  /\ JsMap.keys (Cache.data (Cache.cleanup 2000 c)) = ["new"].
Proof.
  cbv zeta. split; [|reflexivity].
  refine (proj1 (X11_cleanup_removes_exactly_the_expired 2000 _ _)).
  repeat split; simpl; repeat constructor;
    rewrite ?list_elem_of_In; simpl; intuition discriminate.
Defined.

(** ** RateLimiter: what a history of attempts keeps *)

Section LimiterHistory.
Implicit Types (s : RateLimiter.t) (now : Z) (times : list Z).

Lemma refill_config s now :
  RateLimiter.requestsPerMinute (RateLimiter.refillTokens now s)
  = RateLimiter.requestsPerMinute s
  /\ RateLimiter.burstLimit (RateLimiter.refillTokens now s) = RateLimiter.burstLimit s
  /\ RateLimiter.windowSizeMs (RateLimiter.refillTokens now s)
     = RateLimiter.windowSizeMs s
  /\ RateLimiter.requests (RateLimiter.refillTokens now s) = RateLimiter.requests s
  /\ RateLimiter.stats (RateLimiter.refillTokens now s) = RateLimiter.stats s.
Proof.
  unfold RateLimiter.refillTokens.
  destruct (RateLimiter.tokensToAdd now s) as [k| | |]; auto.
  destruct (Qle_bool k 0); auto.
Qed.

Lemma refill_tokens_range s now :
  0 <= RateLimiter.tokens s <= RateLimiter.burstLimit s ->
  RateLimiter.tokens s <= RateLimiter.tokens (RateLimiter.refillTokens now s)
  /\ RateLimiter.tokens (RateLimiter.refillTokens now s) <= RateLimiter.burstLimit s.
Proof.
  intros Hrange. unfold RateLimiter.refillTokens.
  destruct (RateLimiter.tokensToAdd now s) as [k| | |]; simpl; try lia.
  destruct (Qle_bool k 0) eqn:E; simpl; [lia|].
  assert (Hk : 0 <= Qfloor k).
  { change 0 with (Qfloor 0). apply Qfloor_resp_le.
    destruct (Qlt_le_dec k 0) as [Hlt|Hle]; [|exact Hle].
    apply Qlt_le_weak in Hlt. apply Qle_bool_iff in Hlt. congruence. }
  lia.
Qed.

(** The state after one attempt, field by field. *)
Lemma waitForToken_fields s now :
  let s2 := RateLimiter.cleanOldRequests now (RateLimiter.refillTokens now s) in
  let a := RateLimiter.waitForToken now s in
  RateLimiter.granted a = RateLimiter.canMakeRequest s2
  /\ RateLimiter.requestsPerMinute (RateLimiter.state_of a)
     = RateLimiter.requestsPerMinute s
  /\ RateLimiter.burstLimit (RateLimiter.state_of a) = RateLimiter.burstLimit s
  /\ RateLimiter.windowSizeMs (RateLimiter.state_of a) = RateLimiter.windowSizeMs s
  /\ RateLimiter.requests (RateLimiter.state_of a)
     = (if RateLimiter.canMakeRequest s2
        then (RateLimiter.requests s2 ++ [now])%list
        else RateLimiter.requests s2)
  /\ RateLimiter.tokens (RateLimiter.state_of a)
     = (if RateLimiter.canMakeRequest s2
        then Z.max 0 (RateLimiter.tokens s2 - 1)
        else RateLimiter.tokens s2).
Proof.
  cbv zeta. unfold RateLimiter.waitForToken.
  destruct (refill_config s now) as (R1 & R2 & R3 & _).
  destruct (RateLimiter.canMakeRequest
              (RateLimiter.cleanOldRequests now (RateLimiter.refillTokens now s)));
    simpl; repeat split; assumption.
Qed.

(** X12: a bucket that holds between 0 and [burstLimit] tokens does so
    after every history of attempts, at whatever times they are made,
    and the three settings of the limiter stay as they are. *)
Theorem X12_tokens_stay_in_bucket times s :
  0 <= RateLimiter.tokens s <= RateLimiter.burstLimit s ->
  let s' := fst (RateLimiter.attempts times s) in
  0 <= RateLimiter.tokens s' <= RateLimiter.burstLimit s'
  /\ RateLimiter.burstLimit s' = RateLimiter.burstLimit s
  /\ RateLimiter.requestsPerMinute s' = RateLimiter.requestsPerMinute s
  /\ RateLimiter.windowSizeMs s' = RateLimiter.windowSizeMs s.
Proof.
  cbv zeta. revert s. induction times as [|now rest IH]; intros s Hrange; simpl.
  - auto.
  - destruct (waitForToken_fields s now) as (_ & F2 & F3 & F4 & _ & F6).
    cbv zeta in *.
    destruct (RateLimiter.attempts rest (RateLimiter.state_of (RateLimiter.waitForToken now s)))
      as [s' later] eqn:Hrest.
    specialize (IH (RateLimiter.state_of (RateLimiter.waitForToken now s))).
    rewrite Hrest in IH. simpl in IH |- *.
    rewrite <- F2, <- F3, <- F4. apply IH.
    rewrite F6, F3.
    pose proof (refill_tokens_range s now Hrange) as [T1 T2].
    change (RateLimiter.tokens
              (RateLimiter.cleanOldRequests now (RateLimiter.refillTokens now s)))
      with (RateLimiter.tokens (RateLimiter.refillTokens now s)).
    destruct (RateLimiter.canMakeRequest _); lia.
Qed.

Lemma filter_narrower (G : list Z) a b :
  a <= b ->
  List.filter (fun t => t >? b) (List.filter (fun t => t >? a) G)
  = List.filter (fun t => t >? b) G.
Proof.
  intros Hab. induction G as [|t G IH]; simpl; [reflexivity|].
  destruct (Z.gtb_spec t a) as [Ha|Ha]; simpl.
  - destruct (Z.gtb_spec t b); now rewrite IH.
  - destruct (Z.gtb_spec t b); [lia|exact IH].
Qed.

Lemma last_of_nonempty (rest : list Z) :
  forall x d d', List.last (x :: rest) d = List.last (x :: rest) d'.
Proof.
  induction rest as [|y rest IH]; intros x d d'; [reflexivity|].
  change (List.last (y :: rest) d = List.last (y :: rest) d'). apply IH.
Qed.

Lemma last_after_head (rest : list Z) now from :
  List.last (now :: rest) from = List.last rest now.
Proof.
  destruct rest as [|x rest]; [reflexivity|].
  change (List.last (x :: rest) from = List.last (x :: rest) now).
  apply last_of_nonempty.
Qed.

Lemma window_tracks_grants times :
  forall s from G,
    0 < RateLimiter.windowSizeMs s ->
    RateLimiter.clock_monotone from times ->
    RateLimiter.requests s
    = List.filter (fun t => t >? from - RateLimiter.windowSizeMs s) G ->
    Z.of_nat (length (RateLimiter.requests s))
    <= Z.max 0 (RateLimiter.requestsPerMinute s) ->
    let r := RateLimiter.attempts times s in
    RateLimiter.requests (fst r)
    = List.filter (fun t => t >? List.last times from - RateLimiter.windowSizeMs s)
                  (G ++ snd r)
    /\ Z.of_nat (length (RateLimiter.requests (fst r)))
       <= Z.max 0 (RateLimiter.requestsPerMinute s).
Proof.
  induction times as [|now rest IH]; intros s from G Hw Hmono Hreq Hlen.
  - simpl. rewrite app_nil_r. auto.
  - destruct Hmono as [Hfrom Hmono]. rewrite last_after_head.
    destruct (waitForToken_fields s now) as (F1 & F2 & _ & F4 & F5 & _).
    cbv zeta in *.
    set (a := RateLimiter.waitForToken now s) in *.
    assert (Hclean :
      RateLimiter.requests
        (RateLimiter.cleanOldRequests now (RateLimiter.refillTokens now s))
      = List.filter (fun t => t >? now - RateLimiter.windowSizeMs s) G).
    { destruct (refill_config s now) as (_ & _ & R3 & R4 & _).
      unfold RateLimiter.cleanOldRequests. simpl. rewrite R3, R4, Hreq.
      apply filter_narrower. lia. }
    assert (Hcleanlen :
      (length (RateLimiter.requests
                 (RateLimiter.cleanOldRequests now (RateLimiter.refillTokens now s)))
       <= length (RateLimiter.requests s))%nat).
    { destruct (refill_config s now) as (_ & _ & _ & R4 & _).
      unfold RateLimiter.cleanOldRequests. simpl. rewrite R4.
      apply List.filter_length_le. }
    assert (Hstep :
      RateLimiter.requests (RateLimiter.state_of a)
      = List.filter (fun t => t >? now - RateLimiter.windowSizeMs (RateLimiter.state_of a))
                    (G ++ (if RateLimiter.granted a then [now] else []))
      /\ Z.of_nat (length (RateLimiter.requests (RateLimiter.state_of a)))
         <= Z.max 0 (RateLimiter.requestsPerMinute (RateLimiter.state_of a))).
    { rewrite F5, F4, F2, F1.
      destruct (RateLimiter.canMakeRequest
                  (RateLimiter.cleanOldRequests now (RateLimiter.refillTokens now s)))
        eqn:Ecan.
      - rewrite List.filter_app, Hclean. simpl.
        assert (Hin : (now >? now - RateLimiter.windowSizeMs s) = true)
          by (apply Z.gtb_lt; lia).
        rewrite Hin. split; [reflexivity|].
        apply canMakeRequest_iff in Ecan. destruct Ecan as [_ Ecan].
        rewrite Hclean in Ecan.
        destruct (refill_config s now) as (R1 & _).
        change (RateLimiter.requestsPerMinute
                  (RateLimiter.cleanOldRequests now (RateLimiter.refillTokens now s)))
          with (RateLimiter.requestsPerMinute (RateLimiter.refillTokens now s)) in Ecan.
        rewrite R1 in Ecan.
        rewrite List.length_app. simpl. lia.
      - rewrite app_nil_r. split; [exact Hclean|]. lia. }
    destruct Hstep as [Hs1 Hs2].
    specialize (IH (RateLimiter.state_of a) now
                   (G ++ (if RateLimiter.granted a then [now] else []))%list).
    rewrite F4, F2 in IH. rewrite F4 in Hs1. rewrite F2 in Hs2.
    specialize (IH Hw Hmono Hs1 Hs2). cbv zeta in IH.
    simpl. fold a.
    destruct (RateLimiter.attempts rest (RateLimiter.state_of a)) as [s' later].
    simpl in IH |- *.
    destruct (RateLimiter.granted a); rewrite <- app_assoc in IH; exact IH.
Qed.

(** X13: start from an empty window and let the clock never go back.
    After every history of attempts the window holds exactly the granted
    attempts of the last [windowSizeMs] milliseconds before the latest
    attempt, and these are never more than [requestsPerMinute]. *)
Theorem X13_grants_in_a_window_are_bounded times s from :
  0 < RateLimiter.windowSizeMs s ->
  RateLimiter.requests s = [] ->
  RateLimiter.clock_monotone from times ->
  let r := RateLimiter.attempts times s in
  let recent :=
    List.filter (fun t => t >? List.last times from - RateLimiter.windowSizeMs s)
                (snd r) in
  RateLimiter.requests (fst r) = recent
  /\ Z.of_nat (length recent) <= Z.max 0 (RateLimiter.requestsPerMinute s).
Proof.
  intros Hw Hempty Hmono. cbv zeta.
  destruct (window_tracks_grants times s from [] Hw Hmono) as [H1 H2].
  - now rewrite Hempty.
  - rewrite Hempty. simpl. lia.
  - simpl in H1. rewrite <- H1. split; [reflexivity|exact H2].
Qed.

End LimiterHistory.

(** X12 at work on a new limiter and three attempts. *)
Lemma X12_bucket_witness :
  let s := RateLimiter.new 0 RateLimiter.no_options in
  0 <= RateLimiter.tokens (fst (RateLimiter.attempts [0; 5; 70000] s)) <= 10.
Proof.
  cbv zeta.
  pose proof (X12_tokens_stay_in_bucket [0; 5; 70000]
                (RateLimiter.new 0 RateLimiter.no_options)) as H.
  cbv zeta in H. destruct H as (H & Hb & _); [simpl; lia|].
  rewrite Hb in H. exact H.
Defined.

(** X13 at work: two requests per minute allowed, four attempts within
    a second, a fifth a minute later. *)
Lemma X13_window_witness :
  let s := RateLimiter.new 0 (RateLimiter.mkOptions (Some 2) None) in
  let r := RateLimiter.attempts [0; 100; 200; 300; 60150] s in
  snd r = [0; 100; 60150]
  /\ Z.of_nat (length (List.filter (fun t => t >? 60150 - 60000) (snd r))) <= 2.
Proof.
  cbv zeta. split; [vm_compute; reflexivity|].
  pose proof (X13_grants_in_a_window_are_bounded [0; 100; 200; 300; 60150]
                (RateLimiter.new 0 (RateLimiter.mkOptions (Some 2) None)) 0) as H.
  cbv zeta in H. destruct H as [_ H].
  - simpl. lia.
  - reflexivity.
  - simpl. lia.
  - exact H.
Defined.

(** ** RateLimiter: the probes *)

Section LimiterProbe.
Implicit Types (s : RateLimiter.t) (now : Z).

(** A refill at the very time of the last refill adds nothing. *)
Lemma refill_at_lastRefill s now :
  RateLimiter.lastRefill s = now -> RateLimiter.refillTokens now s = s.
Proof.
  intros Hlast. unfold RateLimiter.refillTokens, RateLimiter.tokensToAdd.
  rewrite Hlast, Z.sub_diag.
  unfold Num.mul64, Num.div64, Num.of_Z, Num.div.
  destruct (Qeq_bool (inject_Z (RateLimiter.windowSizeMs s)) 0); [reflexivity|].
  cbn [Num.round].
  rewrite round64_zero by (unfold Qdiv; apply Qmult_0_l).
  cbn [Num.mul Num.round].
  rewrite round64_zero by apply Qmult_0_l.
  reflexivity.
Qed.

Lemma refill_sets_lastRefill s now :
  RateLimiter.refillTokens now s = s
  \/ RateLimiter.lastRefill (RateLimiter.refillTokens now s) = now.
Proof.
  unfold RateLimiter.refillTokens.
  destruct (RateLimiter.tokensToAdd now s) as [k| | |]; auto.
  destruct (Qle_bool k 0); auto.
Qed.

Lemma refill_idempotent s now :
  RateLimiter.refillTokens now (RateLimiter.refillTokens now s)
  = RateLimiter.refillTokens now s.
Proof.
  destruct (refill_sets_lastRefill s now) as [H|H].
  - now rewrite !H.
  - now apply refill_at_lastRefill.
Qed.

Lemma refill_ignores_requests s now (l : list Z) :
  RateLimiter.refillTokens now (RateLimiter.with_requests l s)
  = RateLimiter.with_requests l (RateLimiter.refillTokens now s).
Proof.
  unfold RateLimiter.refillTokens, RateLimiter.tokensToAdd. simpl.
  destruct (Num.floor _) as [k| | |]; try reflexivity.
  destruct (Qle_bool k 0); reflexivity.
Qed.

Lemma filter_twice (P : Z -> bool) (l : list Z) :
  List.filter P (List.filter P l) = List.filter P l.
Proof.
  induction l as [|x l IH]; simpl; [reflexivity|].
  destruct (P x) eqn:E; simpl; [rewrite E; now f_equal|exact IH].
Qed.

(** Refill and pruning done twice at the same time are done once. *)
Lemma refill_prune_idempotent s now :
  let s2 := RateLimiter.cleanOldRequests now (RateLimiter.refillTokens now s) in
  RateLimiter.cleanOldRequests now (RateLimiter.refillTokens now s2) = s2.
Proof.
  cbv zeta. unfold RateLimiter.cleanOldRequests at 2.
  rewrite refill_ignores_requests, refill_idempotent.
  unfold RateLimiter.cleanOldRequests, RateLimiter.with_requests. simpl.
  now rewrite filter_twice.
Qed.

(** X14: [canMakeRequestNow] gives the answer that an attempt at the
    same time would get, and takes nothing: no request enters the
    window, the statistics stay, and a bucket within its limit does not
    lose a token.  Asked again at the same time it answers the same and
    changes nothing more, and an attempt made at that same time ends as
    it would have without the probe.  This is so at the time of the
    probe only: the refill of the probe sets [lastRefill] like any
    other (see [probe_can_cost_a_later_token]). *)
Theorem X14_canMakeRequestNow_is_a_probe s now :
  let p := RateLimiter.canMakeRequestNow now s in
  fst p = RateLimiter.granted (RateLimiter.waitForToken now s)
  /\ RateLimiter.canMakeRequestNow now (snd p) = p
  /\ RateLimiter.waitForToken now (snd p) = RateLimiter.waitForToken now s
  /\ (length (RateLimiter.requests (snd p)) <= length (RateLimiter.requests s))%nat
  /\ RateLimiter.stats (snd p) = RateLimiter.stats s
  /\ (0 <= RateLimiter.tokens s <= RateLimiter.burstLimit s ->
      RateLimiter.tokens s <= RateLimiter.tokens (snd p)).
Proof.
  cbv zeta. unfold RateLimiter.canMakeRequestNow. simpl.
  pose proof (refill_prune_idempotent s now) as Hidem. cbv zeta in Hidem.
  destruct (refill_config s now) as (_ & _ & _ & R4 & R5).
  split.
  { unfold RateLimiter.waitForToken.
    now destruct (RateLimiter.canMakeRequest _). }
  split; [now rewrite Hidem|].
  split; [unfold RateLimiter.waitForToken; now rewrite Hidem|].
  split; [rewrite R4; apply List.filter_length_le|].
  split; [exact R5|].
  intros Hrange. apply (refill_tokens_range s now Hrange).
Qed.

(** X15: the status reports what the next attempt at the same time
    meets: [canMakeRequest] says whether it is granted, and
    [estimatedWaitTime] is 0 if it is and otherwise the very wait that
    the attempt computes.  Reading the status does not change how that
    attempt ends. *)
Theorem X15_getStatus_foretells_the_attempt s now :
  let r := RateLimiter.getStatus now s in
  let a := RateLimiter.waitForToken now (snd r) in
  a = RateLimiter.waitForToken now s
  /\ RateLimiter.statusCanMakeRequest (fst r) = RateLimiter.granted a
  /\ match a with
     | RateLimiter.Granted _ =>
         RateLimiter.estimatedWaitTime (fst r) = Num.of_Z 0
     | RateLimiter.Rejected w _ =>
         RateLimiter.estimatedWaitTime (fst r) = w
     end
  /\ RateLimiter.tokensAvailable (fst r) = RateLimiter.tokens (snd r)
  /\ RateLimiter.requestsInWindow (fst r)
     = Z.of_nat (length (RateLimiter.requests (snd r))).
Proof.
  cbv zeta. unfold RateLimiter.getStatus. simpl.
  pose proof (refill_prune_idempotent s now) as Hidem. cbv zeta in Hidem.
  unfold RateLimiter.waitForToken. rewrite Hidem.
  destruct (RateLimiter.canMakeRequest
              (RateLimiter.cleanOldRequests now (RateLimiter.refillTokens now s)));
    repeat split.
Qed.

(** X16: after [reset] a limiter whose two limits are positive grants
    the next attempt, whenever it is made: the bucket is full, the
    window empty and the statistics start again. *)
Theorem X16_reset_reopens s now t :
  0 < RateLimiter.burstLimit s ->
  0 < RateLimiter.requestsPerMinute s ->
  exists s',
    RateLimiter.waitForToken t (RateLimiter.reset now s) = RateLimiter.Granted s'
    /\ RateLimiter.tokens s' = RateLimiter.burstLimit s - 1
    /\ RateLimiter.requests s' = [t]
    /\ RateLimiter.totalRequests (RateLimiter.stats s') = 1%N
    /\ RateLimiter.rejectedRequests (RateLimiter.stats s') = 0%N.
Proof.
  intros Hb Hr.
  set (s0 := RateLimiter.reset now s).
  assert (Hrange : 0 <= RateLimiter.tokens s0 <= RateLimiter.burstLimit s0)
    by (simpl; lia).
  pose proof (refill_tokens_range s0 t Hrange) as [T1 T2].
  destruct (refill_config s0 t) as (R1 & R2 & R3 & R4 & R5).
  change (RateLimiter.tokens s0) with (RateLimiter.burstLimit s) in T1.
  change (RateLimiter.burstLimit s0) with (RateLimiter.burstLimit s) in T2.
  unfold RateLimiter.waitForToken.
  set (s2 := RateLimiter.cleanOldRequests t (RateLimiter.refillTokens t s0)).
  assert (Hreq : RateLimiter.requests s2 = []).
  { unfold s2, RateLimiter.cleanOldRequests. simpl. now rewrite R4. }
  assert (Htok : RateLimiter.tokens s2 = RateLimiter.burstLimit s).
  { unfold s2. simpl. lia. }
  assert (Hcan : RateLimiter.canMakeRequest s2 = true).
  { apply canMakeRequest_iff. rewrite Hreq, Htok. simpl.
    unfold s2. simpl. rewrite R1. simpl. lia. }
  assert (Hstats : RateLimiter.stats s2 = RateLimiter.mkStats 0 0 (Num.of_Z 0)).
  { unfold s2. simpl. now rewrite R5. }
  clearbody s2. rewrite Hcan. eexists. split; [reflexivity|]. simpl.
  rewrite Hreq, Htok, Hstats. simpl. repeat split. lia.
Qed.

End LimiterProbe.

(** A probe is not without effect on later attempts.  An empty bucket
    last refilled at time 0 grants two attempts at 12000 ms.  Probed at
    9000 ms it is refilled with one token then, the half interval earned
    beyond it is dropped, and of the two attempts at 12000 ms only the
    first is granted. *)
Lemma probe_can_cost_a_later_token :
  let s := RateLimiter.with_bucket 0 0 (RateLimiter.new 0 RateLimiter.no_options) in
  let probed := snd (RateLimiter.canMakeRequestNow 9000 s) in
  snd (RateLimiter.attempts [12000; 12000] s) = [12000; 12000]
  /\ snd (RateLimiter.attempts [12000; 12000] probed) = [12000].
Proof. cbv zeta. split; vm_compute; reflexivity. Qed.

(** X16 at work: an exhausted limiter is reset at time 5 and asked at
    time 5. *)
Lemma X16_reset_witness :
  let s := fst (RateLimiter.attempts [0; 0; 0]
                  (RateLimiter.new 0 (RateLimiter.mkOptions (Some 3) (Some 3)))) in
  RateLimiter.tokens s = 0
  /\ exists s', RateLimiter.waitForToken 5 (RateLimiter.reset 5 s)
                = RateLimiter.Granted s'.
Proof.
  cbv zeta. split; [vm_compute; reflexivity|].
  match goal with
  | |- exists s', RateLimiter.waitForToken _ (RateLimiter.reset _ ?s) = _ =>
      destruct (X16_reset_reopens s 5 5) as (s' & H & _)
  end.
  - vm_compute. reflexivity.
  - vm_compute. reflexivity.
  - exists s'. exact H.
Defined.

(** ** RateLimiter: limits that close the limiter *)

Section LimiterClosed.
Implicit Types (s : RateLimiter.t) (now : Z).

Lemma refill_tokens_nonpositive s now :
  RateLimiter.burstLimit s <= 0 -> RateLimiter.tokens s <= 0 ->
  RateLimiter.tokens (RateLimiter.refillTokens now s) <= 0.
Proof.
  intros Hb Ht. unfold RateLimiter.refillTokens.
  destruct (RateLimiter.tokensToAdd now s) as [k| | |]; simpl; try lia.
  destruct (Qle_bool k 0); simpl; lia.
Qed.

Lemma closed_attempt s now :
  RateLimiter.burstLimit s <= 0 -> RateLimiter.tokens s <= 0 ->
  let a := RateLimiter.waitForToken now s in
  RateLimiter.granted a = false
  /\ RateLimiter.burstLimit (RateLimiter.state_of a) <= 0
  /\ RateLimiter.tokens (RateLimiter.state_of a) <= 0.
Proof.
  intros Hb Ht. cbv zeta.
  destruct (waitForToken_fields s now) as (F1 & _ & F3 & _ & _ & F6).
  cbv zeta in *.
  pose proof (refill_tokens_nonpositive s now Hb Ht) as Hre.
  assert (Hcan : RateLimiter.canMakeRequest
                   (RateLimiter.cleanOldRequests now (RateLimiter.refillTokens now s))
                 = false).
  { destruct (RateLimiter.canMakeRequest _) eqn:E; [|reflexivity].
    apply canMakeRequest_iff in E. simpl in E. lia. }
  rewrite Hcan in F1, F6. rewrite F1, F3, F6. simpl. auto.
Qed.

Lemma closed_forever times :
  forall s,
    RateLimiter.burstLimit s <= 0 -> RateLimiter.tokens s <= 0 ->
    snd (RateLimiter.attempts times s) = [].
Proof.
  induction times as [|now rest IH]; intros s Hb Ht; simpl; [reflexivity|].
  destruct (closed_attempt s now Hb Ht) as (G & B & T). cbv zeta in *.
  specialize (IH _ B T).
  destruct (RateLimiter.attempts rest (RateLimiter.state_of (RateLimiter.waitForToken now s)))
    as [s' later].
  simpl in IH |- *. now rewrite G.
Qed.

(** X17: [updateLimits] never adds a token: a new burst limit cuts the
    bucket down to it, a higher one leaves the bucket as it is; window,
    last refill and statistics are not touched.  Unlike the constructor
    it takes a limit of zero as given, and after a burst limit of zero
    or less no attempt is granted any more, at any time. *)
Theorem X17_updateLimits_only_lowers options s :
  let s' := RateLimiter.updateLimits options s in
  RateLimiter.tokens s' <= RateLimiter.tokens s
  /\ (forall b, RateLimiter.new_burstLimit options = Some b ->
        RateLimiter.burstLimit s' = b
        /\ RateLimiter.tokens s' = Z.min (RateLimiter.tokens s) b
        /\ (b <= 0 -> forall times, snd (RateLimiter.attempts times s') = []))
  /\ (RateLimiter.new_burstLimit options = None ->
      RateLimiter.burstLimit s' = RateLimiter.burstLimit s
      /\ RateLimiter.tokens s' = RateLimiter.tokens s)
  /\ (forall n, RateLimiter.new_requestsPerMinute options = Some n ->
        RateLimiter.requestsPerMinute s' = n)
  /\ RateLimiter.requests s' = RateLimiter.requests s
  /\ RateLimiter.lastRefill s' = RateLimiter.lastRefill s
  /\ RateLimiter.stats s' = RateLimiter.stats s.
Proof.
  cbv zeta. unfold RateLimiter.updateLimits.
  destruct options as [rpm [b|]]; simpl.
  - split; [lia|]. split.
    + intros b' [= <-]. split; [reflexivity|]. split; [reflexivity|].
      intros Hb times. apply closed_forever; simpl; lia.
    + split; [discriminate|]. split; [|auto].
      intros n ->. reflexivity.
  - split; [lia|]. split; [discriminate|]. split; [auto|].
    split; [|auto]. intros n ->. reflexivity.
Qed.

(** X18: a limiter that allows zero or fewer requests per minute, as
    the constructor builds it from a negative [requestsPerMinute],
    rejects every attempt, and since its window is empty the wait it
    computes is not a number; the running average is not a number from
    then on.  The window stays empty, so this repeats. *)
Theorem X18_nonpositive_rate_waits_NaN s now :
  RateLimiter.requestsPerMinute s <= 0 ->
  RateLimiter.requests s = [] ->
  exists s',
    RateLimiter.waitForToken now s = RateLimiter.Rejected Num.NaN s'
    /\ RateLimiter.requests s' = []
    /\ RateLimiter.requestsPerMinute s' = RateLimiter.requestsPerMinute s
    /\ RateLimiter.averageWaitTime (RateLimiter.stats s') = Num.NaN.
Proof.
  intros Hrpm Hreq. unfold RateLimiter.waitForToken.
  destruct (refill_config s now) as (R1 & _ & _ & R4 & _).
  set (s2 := RateLimiter.cleanOldRequests now (RateLimiter.refillTokens now s)).
  assert (Hreq2 : RateLimiter.requests s2 = []).
  { unfold s2, RateLimiter.cleanOldRequests. simpl. now rewrite R4, Hreq. }
  assert (Hrpm2 : RateLimiter.requestsPerMinute s2 = RateLimiter.requestsPerMinute s)
    by exact R1.
  clearbody s2.
  assert (Hcan : RateLimiter.canMakeRequest s2 = false).
  { destruct (RateLimiter.canMakeRequest s2) eqn:E; [|reflexivity].
    apply canMakeRequest_iff in E. rewrite Hreq2, Hrpm2 in E. simpl in E. lia. }
  assert (Hwait : RateLimiter.calculateWaitTime now s2 = Num.NaN).
  { unfold RateLimiter.calculateWaitTime, RateLimiter.timeUntilWindowSlot.
    rewrite Hreq2, Hrpm2. simpl.
    assert (Hfull : (Z.of_nat 0 >=? RateLimiter.requestsPerMinute s) = true)
      by (apply Z.geb_le; simpl; lia).
    rewrite Hfull. simpl.
    now destruct (RateLimiter.timeUntilNextToken s2). }
  rewrite Hcan, Hwait. eexists. split; [reflexivity|]. simpl.
  split; [exact Hreq2|]. split; [exact Hrpm2|].
  now destruct (Num.mul _ _).
Qed.

End LimiterClosed.

(** X18 at work on [new RateLimiter({ requestsPerMinute: -1 })]. *)
Lemma X18_nonpositive_rate_witness :
  exists s',
    RateLimiter.waitForToken 7 (RateLimiter.new 0 (RateLimiter.mkOptions (Some (-1)) None))
    = RateLimiter.Rejected Num.NaN s'.
Proof.
  destruct (X18_nonpositive_rate_waits_NaN
              (RateLimiter.new 0 (RateLimiter.mkOptions (Some (-1)) None)) 7)
    as (s' & H & _).
  - simpl. lia.
  - reflexivity.
  - exists s'. exact H.
Defined.

(** ** RateLimiter: the statistics *)

Section LimiterStats.
Implicit Types (s : RateLimiter.t).

(** X19: [successRate] is 100 while no request was granted.  Afterwards
    it is [(total - rejected) / total * 100], which never exceeds 100
    but is negative as soon as the rejections outnumber the granted
    requests; an attempt that has to wait several times is rejected
    several times. *)
Theorem X19_successRate_can_be_negative s :
  let total := Z.of_N (RateLimiter.totalRequests (RateLimiter.stats s)) in
  let rejected := Z.of_N (RateLimiter.rejectedRequests (RateLimiter.stats s)) in
  (total = 0 -> RateLimiter.successRate s = Num.of_Z 100)
  /\ (0 < total ->
      exists q,
        RateLimiter.successRate s = Num.Fin q
        /\ (q == inject_Z ((total - rejected) * 100) / inject_Z total)%Q
        /\ (q <= 100)%Q
        /\ ((q < 0)%Q <-> total < rejected)).
Proof.
  cbv zeta. unfold RateLimiter.successRate.
  set (total := Z.of_N (RateLimiter.totalRequests (RateLimiter.stats s))).
  set (rejected := Z.of_N (RateLimiter.rejectedRequests (RateLimiter.stats s))).
  assert (Hrej : 0 <= rejected) by apply N2Z.is_nonneg.
  clearbody total rejected. split.
  - intros ->. reflexivity.
  - intros Hpos.
    assert (Hgt : (total >? 0) = true) by (apply Z.gtb_lt; lia).
    rewrite Hgt. unfold Num.of_Z, Num.div.
    destruct total as [|p|p]; try lia.
    replace (Qeq_bool (inject_Z (Z.pos p)) 0) with false by reflexivity.
    eexists. split; [reflexivity|].
    unfold Qeq, Qle, Qlt, Qdiv, Qmult, Qinv, inject_Z. simpl.
    rewrite !Pos.mul_1_r, !Z.mul_1_r.
    split; [lia|]. split; [nia|]. split; intros H; nia.
Qed.

(** After a rejection the new average, times the new number of
    rejections, is the old such product plus the wait. *)
Lemma record_wait_sum s (a w : Q) :
  RateLimiter.averageWaitTime (RateLimiter.stats s) = Num.Fin a ->
  let s' := RateLimiter.record_wait s (Num.Fin w) in
  RateLimiter.rejectedRequests (RateLimiter.stats s')
  = (RateLimiter.rejectedRequests (RateLimiter.stats s) + 1)%N
  /\ exists a',
       RateLimiter.averageWaitTime (RateLimiter.stats s') = Num.Fin a'
       /\ (a' * inject_Z (Z.of_N (RateLimiter.rejectedRequests (RateLimiter.stats s')))
           == a * inject_Z (Z.of_N (RateLimiter.rejectedRequests (RateLimiter.stats s)))
              + w)%Q.
Proof.
  intros Ha. cbv zeta. split; [reflexivity|].
  pose proof (average_after_rejection s a w Ha) as Heqv. cbv zeta in Heqv.
  unfold RateLimiter.record_wait.
  destruct (RateLimiter.averageWaitTime
              (RateLimiter.stats
                 (RateLimiter.updateAverageWaitTime (Num.Fin w)
                    (RateLimiter.inc_rejected s)))) as [a'| | |];
    simpl in Heqv; try contradiction.
  exists a'. split; [reflexivity|].
  simpl. rewrite N2Z.inj_add. change (Z.of_N 1) with 1.
  set (r := Z.of_N (RateLimiter.rejectedRequests (RateLimiter.stats s))) in *.
  assert (Hr : 0 <= r) by apply N2Z.is_nonneg.
  rewrite Heqv, inject_Z_plus. field.
  intros H. change 1%Q with (inject_Z 1) in H. rewrite <- inject_Z_plus in H.
  unfold Qeq in H. simpl in H. lia.
Qed.

Lemma record_waits_sum (ws : list Q) :
  forall s a,
    RateLimiter.averageWaitTime (RateLimiter.stats s) = Num.Fin a ->
    let s' := fold_left RateLimiter.record_wait (map Num.Fin ws) s in
    RateLimiter.rejectedRequests (RateLimiter.stats s')
    = (RateLimiter.rejectedRequests (RateLimiter.stats s) + N.of_nat (length ws))%N
    /\ exists a',
         RateLimiter.averageWaitTime (RateLimiter.stats s') = Num.Fin a'
         /\ (a' * inject_Z (Z.of_N (RateLimiter.rejectedRequests (RateLimiter.stats s')))
             == a * inject_Z (Z.of_N (RateLimiter.rejectedRequests (RateLimiter.stats s)))
                + fold_right Qplus 0%Q ws)%Q.
Proof.
  induction ws as [|w ws IH]; intros s a Ha; cbv zeta.
  - simpl. split; [now rewrite N.add_0_r|].
    exists a. split; [assumption|]. ring.
  - simpl fold_left. simpl map.
    destruct (record_wait_sum s a w Ha) as [Hn (a1 & Ha1 & Hsum1)].
    cbv zeta in *.
    destruct (IH (RateLimiter.record_wait s (Num.Fin w)) a1 Ha1)
      as [Hn' (a' & Ha' & Hsum')].
    cbv zeta in *. split.
    + rewrite Hn', Hn. simpl length. lia.
    + exists a'. split; [exact Ha'|].
      rewrite Hsum', Hsum1. simpl. ring.
Qed.

(** X20: the running average is the mean.  Starting from statistics
    without rejections, after any number of rejections with finite waits
    [averageWaitTime] is their sum divided by their number, and
    [rejectedRequests] is their number.  (Numbers are exact fractions
    here; the rounding of the doubles is left out.) *)
Theorem X20_average_wait_is_the_mean (ws : list Q) s a :
  RateLimiter.rejectedRequests (RateLimiter.stats s) = 0%N ->
  RateLimiter.averageWaitTime (RateLimiter.stats s) = Num.Fin a ->
  ws <> [] ->
  let s' := fold_left RateLimiter.record_wait (map Num.Fin ws) s in
  RateLimiter.rejectedRequests (RateLimiter.stats s') = N.of_nat (length ws)
  /\ exists avg,
       RateLimiter.averageWaitTime (RateLimiter.stats s') = Num.Fin avg
       /\ (avg == fold_right Qplus 0%Q ws / inject_Z (Z.of_nat (length ws)))%Q.
Proof.
  intros Hzero Ha Hne. cbv zeta.
  destruct (record_waits_sum ws s a Ha) as [Hn (avg & Havg & Hsum)].
  cbv zeta in *. rewrite Hzero in Hn, Hsum. rewrite N.add_0_l in Hn.
  split; [exact Hn|]. exists avg. split; [exact Havg|].
  rewrite Hn in Hsum. rewrite nat_N_Z in Hsum.
  assert (Hlen : ~ (inject_Z (Z.of_nat (length ws)) == 0)%Q).
  { intros H. unfold Qeq in H. simpl in H.
    destruct ws; [congruence|]. simpl in H. lia. }
  apply (Qmult_inj_r _ _ _ Hlen).
  rewrite Hsum. simpl. field. exact Hlen.
Qed.

End LimiterStats.

(** X19 at work: one request was granted after being rejected twice. *)
Lemma X19_successRate_witness :
  let s := RateLimiter.with_stats (RateLimiter.mkStats 1 2 (Num.of_Z 100))
             (RateLimiter.new 0 RateLimiter.no_options) in
  Num.eqv (RateLimiter.successRate s) (Num.of_Z (-100)).
Proof.
  cbv zeta.
  destruct (proj2 (X19_successRate_can_be_negative
                     (RateLimiter.with_stats (RateLimiter.mkStats 1 2 (Num.of_Z 100))
                        (RateLimiter.new 0 RateLimiter.no_options))))
    as (q & -> & Hq & _).
  - simpl. lia.
  - simpl. rewrite Hq. reflexivity.
Defined.

(** X20 at work: waits of 100, 200 and 600 ms average to 300 ms. *)
Lemma X20_average_witness :
  let s := fold_left RateLimiter.record_wait
             (map Num.Fin [100; 200; 600]%Q)
             (RateLimiter.new 0 RateLimiter.no_options) in
  Num.eqv (RateLimiter.averageWaitTime (RateLimiter.stats s)) (Num.of_Z 300).
Proof.
  cbv zeta.
  destruct (X20_average_wait_is_the_mean [100; 200; 600]%Q
              (RateLimiter.new 0 RateLimiter.no_options) 0%Q)
    as (_ & avg & Havg & Hmean).
  - reflexivity.
  - reflexivity.
  - discriminate.
  - cbv zeta in Havg. rewrite Havg. simpl. rewrite Hmean. reflexivity.
Defined.

(** ** GlobalRateLimiter: removal, shared state, unknown keys *)

Section RegistryMore.
Implicit Types (g : GlobalRateLimiter.t) (key : string)
         (options : RateLimiter.Options) (l : GlobalRateLimiter.loc).

Lemma wf_removeLimiter g key :
  GlobalRateLimiter.wf g ->
  GlobalRateLimiter.wf (snd (GlobalRateLimiter.removeLimiter key g)).
Proof.
  intros [Hdom Hinj]. split; simpl.
  - intros k l Hk. apply lookup_delete_Some in Hk. apply (Hdom k l), Hk.
  - intros k1 k2 l H1 H2.
    apply lookup_delete_Some in H1. apply lookup_delete_Some in H2.
    apply (Hinj k1 k2 l); tauto.
Qed.

(** X21: [removeLimiter] says whether the key was registered and
    unregisters it, but the limiter it was bound to is still there for
    whoever obtained it before.  The next [getLimiter] of the key builds
    a second limiter, at another address and from the options of that
    call, so that the two callers no longer share one bucket. *)
Theorem X21_remove_then_lookup_gives_a_second_limiter g key l now options :
  GlobalRateLimiter.wf g ->
  GlobalRateLimiter.limiters g !! key = Some l ->
  let r := GlobalRateLimiter.removeLimiter key g in
  let r' := GlobalRateLimiter.getLimiter now key options (snd r) in
  fst r = true
  /\ GlobalRateLimiter.limiters (snd r) !! key = None
  /\ exists l',
       fst r' = Some l'
       /\ l' <> l
       /\ GlobalRateLimiter.heap (snd r') !! l = GlobalRateLimiter.heap g !! l
       /\ is_Some (GlobalRateLimiter.heap g !! l)
       /\ GlobalRateLimiter.heap (snd r') !! l' = Some (RateLimiter.new now options).
Proof.
  intros Hwf Hl. cbv zeta.
  assert (Hlt : (l < length (GlobalRateLimiter.heap g))%nat)
    by (destruct Hwf as [Hdom _]; exact (Hdom key l Hl)).
  split.
  { simpl. apply bool_decide_eq_true. rewrite Hl. eauto. }
  assert (Hgone : GlobalRateLimiter.limiters
                    (snd (GlobalRateLimiter.removeLimiter key g)) !! key = None)
    by (simpl; apply lookup_delete_eq).
  split; [exact Hgone|].
  rewrite (getLimiter_new _ now key options Hgone). simpl.
  exists (length (GlobalRateLimiter.heap g)).
  split; [reflexivity|]. split; [lia|].
  split; [now apply lookup_app_l|].
  split; [now apply lookup_lt_is_Some|].
  now apply list_lookup_middle.
Qed.

(** X22: [waitForToken] of the registry makes its attempt on the one
    limiter of the key, created first if the key is new: the outcome is
    the outcome of that limiter's own [waitForToken], the limiter at
    the key's address is left in the state after the attempt, every
    other limiter is as before, and the key stays bound to the same
    address. *)
Theorem X22_registry_attempt_acts_on_the_shared_limiter
        g key options now_new now :
  GlobalRateLimiter.wf g ->
  let g1 := snd (GlobalRateLimiter.getLimiter now_new key options g) in
  let r := GlobalRateLimiter.waitForToken now_new now key options g in
  exists l s,
    GlobalRateLimiter.limiters g1 !! key = Some l
    /\ GlobalRateLimiter.heap g1 !! l = Some s
    /\ (GlobalRateLimiter.limiters g !! key = None -> s = RateLimiter.new now_new options)
    /\ fst r = Some (RateLimiter.granted (RateLimiter.waitForToken now s),
                     match RateLimiter.waitForToken now s with
                     | RateLimiter.Granted _ => None
                     | RateLimiter.Rejected w _ => Some w
                     end)
    /\ GlobalRateLimiter.heap (snd r) !! l
       = Some (RateLimiter.state_of (RateLimiter.waitForToken now s))
    /\ (forall l', l' <> l ->
          GlobalRateLimiter.heap (snd r) !! l' = GlobalRateLimiter.heap g1 !! l')
    /\ GlobalRateLimiter.limiters (snd r) = GlobalRateLimiter.limiters g1.
Proof.
  intros Hwf. cbv zeta.
  pose proof (wf_getLimiter g now_new key options Hwf) as [Hdom1 _].
  unfold GlobalRateLimiter.waitForToken.
  destruct (GlobalRateLimiter.getLimiter now_new key options g) as [found g1] eqn:Hget.
  simpl in Hdom1 |- *.
  assert (Hfound : exists l, found = Some l
                             /\ GlobalRateLimiter.limiters g1 !! key = Some l
                             /\ (GlobalRateLimiter.limiters g !! key = None ->
                                 GlobalRateLimiter.heap g1 !! l
                                 = Some (RateLimiter.new now_new options))).
  { destruct (GlobalRateLimiter.limiters g !! key) as [l0|] eqn:E.
    - rewrite (getLimiter_existing _ _ _ _ _ E) in Hget.
      injection Hget as <- <-. exists l0. split; [reflexivity|].
      split; [exact E|discriminate].
    - rewrite (getLimiter_new _ _ _ _ E) in Hget.
      injection Hget as <- <-. eexists. split; [reflexivity|]. simpl.
      split; [apply lookup_insert_eq|]. intros _. now apply list_lookup_middle. }
  destruct Hfound as (l & -> & Hbind & Hnew).
  destruct (lookup_lt_is_Some_2 _ _ (Hdom1 key l Hbind)) as [s Hs].
  exists l, s. unfold GlobalRateLimiter.loc in *. rewrite !Hs. cbn [fst snd].
  split; [exact Hbind|]. split; [reflexivity|].
  split; [intros Hnone; specialize (Hnew Hnone); congruence|].
  split; [reflexivity|].
  split.
  - unfold GlobalRateLimiter.update. cbn [GlobalRateLimiter.heap].
    rewrite list_lookup_alter_eq, Hs. reflexivity.
  - split; [|reflexivity]. intros l' Hne.
    unfold GlobalRateLimiter.update. cbn [GlobalRateLimiter.heap].
    apply list_lookup_alter_ne. congruence.
Qed.

(** X23: the registry's [getStatus] and [reset] never register a key:
    for a key that is not registered the first answers [null], and both
    leave registry and limiters as they are.  For a registered key
    [reset] resets the limiter of that key and no other. *)
Theorem X23_status_and_reset_do_not_register g key now :
  (GlobalRateLimiter.limiters g !! key = None ->
   GlobalRateLimiter.getStatus now key g = (None, g)
   /\ GlobalRateLimiter.reset now key g = g)
  /\ (forall l,
        GlobalRateLimiter.limiters g !! key = Some l ->
        let g' := GlobalRateLimiter.reset now key g in
        GlobalRateLimiter.limiters g' = GlobalRateLimiter.limiters g
        /\ GlobalRateLimiter.heap g' !! l
           = RateLimiter.reset now <$> GlobalRateLimiter.heap g !! l
        /\ forall l', l' <> l ->
             GlobalRateLimiter.heap g' !! l' = GlobalRateLimiter.heap g !! l').
Proof.
  split.
  - intros Hnone. unfold GlobalRateLimiter.getStatus, GlobalRateLimiter.reset.
    now rewrite Hnone.
  - intros l Hl. cbv zeta. unfold GlobalRateLimiter.reset. rewrite Hl. simpl.
    split; [reflexivity|]. split.
    + apply list_lookup_alter_eq.
    + intros l' Hne. apply list_lookup_alter_ne. congruence.
Qed.

End RegistryMore.

(** X21 at work: "files" is registered, removed and looked up again. *)
Lemma X21_remove_witness :
  let g := snd (GlobalRateLimiter.getLimiter 0 "files" RateLimiter.no_options
                  GlobalRateLimiter.constructor) in
  let g' := snd (GlobalRateLimiter.removeLimiter "files" g) in
  fst (GlobalRateLimiter.getLimiter 9 "files" RateLimiter.no_options g') = Some 1%nat.
Proof.
  cbv zeta.
  match goal with
  | |- fst (GlobalRateLimiter.getLimiter _ _ _ (snd (GlobalRateLimiter.removeLimiter _ ?g))) = _ =>
      destruct (X21_remove_then_lookup_gives_a_second_limiter
                  g "files" 0%nat 9 RateLimiter.no_options)
        as (_ & _ & l' & H & _)
  end.
  - apply wf_getLimiter, wf_constructor.
  - reflexivity.
  - reflexivity.
Defined.

(** X22 at work: the first attempt through an empty registry. *)
Lemma X22_registry_attempt_witness :
  fst (GlobalRateLimiter.waitForToken 0 0 "files" RateLimiter.no_options
         GlobalRateLimiter.constructor)
  = Some (true, None).
Proof.
  destruct (X22_registry_attempt_acts_on_the_shared_limiter
              GlobalRateLimiter.constructor "files" RateLimiter.no_options 0 0
              wf_constructor)
    as (l & s & _ & _ & Hnew & Hr & _).
  rewrite Hr, (Hnew eq_refl). reflexivity.
Defined.

(** ** FigmaService: calls that go through the cache *)

Section ServiceCache.
Context {V : Type} (truthy : V -> bool).
Implicit Types (c : Cache.t V) (key : string) (data : V).

Lemma get_keeps_ttl c key t t_access :
  Cache.ttl (snd (Cache.get t t_access key c)) = Cache.ttl c.
Proof.
  unfold Cache.get.
  destruct (JsMap.get key (Cache.data c)) as [item|]; [|reflexivity].
  destruct (t >? Cache.expiresAt item); [|reflexivity].
  simpl. unfold Cache.delete. now destruct (JsMap.has key (Cache.data c)).
Qed.

(** What [get] finds right after a [set] of the same key. *)
Lemma get_after_set c key data customTtl now now_evict t t_access :
  fst (Cache.get t t_access key (snd (Cache.set now now_evict key data customTtl c)))
  = if t >? now + Js.num_or customTtl (Cache.ttl c) * 1000 then None else Some data.
Proof.
  unfold Cache.set, Cache.get. simpl. rewrite jsmap_get_set_eq. simpl.
  now destruct (t >? now + Js.num_or customTtl (Cache.ttl c) * 1000).
Qed.

(** X24: when a call had to ask the remote side and got a truthy body,
    the next call for the same key, made before the entry expires, is
    answered with that body from the cache, without a remote call and
    whatever the remote side would have answered. *)
Theorem X24_second_call_is_served_from_cache
        (clock1 clock2 : FigmaService.Clock) key data response2 c :
  truthy data = true ->
  snd (fst (FigmaService.through_cache truthy clock1 key (Js.Ok data) c)) = true ->
  FigmaService.at_get clock2
  <= FigmaService.at_set clock1 + Cache.ttl c * 1000 ->
  let c1 := snd (FigmaService.through_cache truthy clock1 key (Js.Ok data) c) in
  fst (FigmaService.through_cache truthy clock2 key response2 c1)
  = (Js.Ok data, false).
Proof.
  intros Htruthy Hasked Hfresh. cbv zeta.
  unfold FigmaService.through_cache in *.
  pose proof (get_keeps_ttl c key (FigmaService.at_get clock1)
                (FigmaService.at_get_access clock1)) as Httl.
  destruct (Cache.get (FigmaService.at_get clock1)
              (FigmaService.at_get_access clock1) key c) as [cached c0].
  simpl in Httl.
  assert (Hstored :
    forall r : Js.result V * bool * Cache.t V,
      r = (Js.Ok data, true,
           snd (Cache.set (FigmaService.at_set clock1)
                  (FigmaService.at_set_evict clock1) key data None c0)) ->
      fst (let (cached2, c2) :=
             Cache.get (FigmaService.at_get clock2)
               (FigmaService.at_get_access clock2) key (snd r) in
           match cached2 with
           | Some v =>
               if truthy v then (Js.Ok v, false, c2)
               else match response2 with
                    | Js.Ok d =>
                        (Js.Ok d, true,
                         snd (Cache.set (FigmaService.at_set clock2)
                                (FigmaService.at_set_evict clock2) key d None c2))
                    | Js.Throw msg => (Js.Throw msg, true, c2)
                    end
           | None =>
               match response2 with
               | Js.Ok d =>
                   (Js.Ok d, true,
                    snd (Cache.set (FigmaService.at_set clock2)
                           (FigmaService.at_set_evict clock2) key d None c2))
               | Js.Throw msg => (Js.Throw msg, true, c2)
               end
           end) = (Js.Ok data, false)).
  { intros r ->. cbn [snd].
    pose proof (get_after_set c0 key data None (FigmaService.at_set clock1)
                  (FigmaService.at_set_evict clock1) (FigmaService.at_get clock2)
                  (FigmaService.at_get_access clock2)) as Hget.
    destruct (Cache.get (FigmaService.at_get clock2)
                (FigmaService.at_get_access clock2) key _) as [cached2 c2].
    simpl in Hget. rewrite Httl in Hget.
    destruct (FigmaService.at_get clock2
              >? FigmaService.at_set clock1 + Cache.ttl c * 1000) eqn:E; [lia|].
    rewrite Hget, Htruthy. reflexivity. }
  destruct cached as [v|].
  - destruct (truthy v); [discriminate Hasked|]. now apply Hstored.
  - now apply Hstored.
Qed.

(** X25: a body that is falsy (such as [0], [""], [false] or [null]) is
    stored like any other but never served: after a call that fetched
    it, [cache.get] does find it until it expires, and still the call
    that follows asks the remote side again. *)
Theorem X25_falsy_body_is_fetched_again
        (clock1 clock2 : FigmaService.Clock) key data response2 c :
  truthy data = false ->
  snd (fst (FigmaService.through_cache truthy clock1 key (Js.Ok data) c)) = true ->
  let c1 := snd (FigmaService.through_cache truthy clock1 key (Js.Ok data) c) in
  (FigmaService.at_get clock2
   <= FigmaService.at_set clock1 + Cache.ttl c * 1000 ->
   fst (Cache.get (FigmaService.at_get clock2)
          (FigmaService.at_get_access clock2) key c1) = Some data)
  /\ snd (fst (FigmaService.through_cache truthy clock2 key response2 c1)) = true.
Proof.
  intros Hfalsy Hasked. cbv zeta.
  assert (Hserved :
    forall clock response c',
      snd (fst (FigmaService.through_cache truthy clock key response c')) = false ->
      exists v, fst (Cache.get (FigmaService.at_get clock)
                       (FigmaService.at_get_access clock) key c') = Some v
                /\ truthy v = true).
  { intros clock response c'. unfold FigmaService.through_cache.
    destruct (Cache.get _ _ key c') as [[v|] c2]; simpl.
    - destruct (truthy v) eqn:E; [eauto|]. now destruct response.
    - now destruct response. }
  assert (Hfirst :
    exists c0,
      Cache.ttl c0 = Cache.ttl c
      /\ snd (FigmaService.through_cache truthy clock1 key (Js.Ok data) c)
         = snd (Cache.set (FigmaService.at_set clock1)
                  (FigmaService.at_set_evict clock1) key data None c0)).
  { pose proof (get_keeps_ttl c key (FigmaService.at_get clock1)
                  (FigmaService.at_get_access clock1)) as Httl.
    unfold FigmaService.through_cache in *.
    destruct (Cache.get _ _ key c) as [[v|] c0].
    - destruct (truthy v); [simpl in Hasked; discriminate Hasked|].
      exists c0. split; [exact Httl|reflexivity].
    - exists c0. split; [exact Httl|reflexivity]. }
  destruct Hfirst as (c0 & Httl & Hc1). rewrite Hc1.
  pose proof (get_after_set c0 key data None (FigmaService.at_set clock1)
                (FigmaService.at_set_evict clock1) (FigmaService.at_get clock2)
                (FigmaService.at_get_access clock2)) as Hget.
  change (Js.num_or None (Cache.ttl c0)) with (Cache.ttl c0) in Hget.
  rewrite Httl in Hget.
  split.
  - intros Hfresh. rewrite Hget.
    destruct (FigmaService.at_get clock2
              >? FigmaService.at_set clock1 + Cache.ttl c * 1000) eqn:E;
      [lia|reflexivity].
  - destruct (snd (fst (FigmaService.through_cache truthy clock2 key response2 _)))
      eqn:E; [reflexivity|].
    destruct (Hserved _ _ _ E) as (v & Hv & Htv).
    rewrite Hget in Hv.
    destruct (FigmaService.at_get clock2
              >? FigmaService.at_set clock1 + Cache.ttl c * 1000);
      [discriminate Hv|].
    injection Hv as <-. congruence.
Qed.

End ServiceCache.

(** X24 at work: the variables of file "F" are fetched at time 0 and
    asked for again a minute later, when the remote side is down. *)
Lemma X24_served_from_cache_witness :
  let truthy (n : nat) := negb (Nat.eqb n 0) in
  let c := Cache.new (Cache.mkOptions (Some 1000) (Some 300) None) in
  let c1 := snd (FigmaService.getLocalVariables truthy
                   (FigmaService.mkClock 0 0 0 0) "F" (Js.Ok 7%nat) c) in
  fst (FigmaService.getLocalVariables truthy
         (FigmaService.mkClock 60000 60000 60000 60000) "F" (Js.Throw "down") c1)
  = (Js.Ok 7%nat, false).
Proof.
  cbv zeta. unfold FigmaService.getLocalVariables.
  apply X24_second_call_is_served_from_cache.
  - reflexivity.
  - reflexivity.
  - simpl. lia.
Defined.

(** X25 at work: the body [0] is fetched twice. *)
Lemma X25_falsy_body_witness :
  let truthy (n : nat) := negb (Nat.eqb n 0) in
  let c := Cache.new (Cache.mkOptions None None None) in
  let c1 := snd (FigmaService.getStyles truthy
                   (FigmaService.mkClock 0 0 0 0) "F" (Js.Ok 0%nat) c) in
  snd (fst (FigmaService.getStyles truthy
              (FigmaService.mkClock 1 1 1 1) "F" (Js.Ok 0%nat) c1)) = true.
Proof.
  cbv zeta. unfold FigmaService.getStyles.
  refine (proj2 (X25_falsy_body_is_fetched_again
                   (fun n => negb (Nat.eqb n 0))
                   (FigmaService.mkClock 0 0 0 0) (FigmaService.mkClock 1 1 1 1)
                   _ 0%nat (Js.Ok 0%nat) _ _ _)).
  - reflexivity.
  - reflexivity.
Defined.

(** ** The file key of a URL *)

Lemma take_alnum_app key rest :
  FigmaService.take_alnum key = key ->
  FigmaService.take_alnum rest = "" ->
  FigmaService.take_alnum (key ++ rest) = key.
Proof.
  induction key as [|ch key IH]; simpl; intros Hkey Hrest; [exact Hrest|].
  destruct (FigmaService.is_alnum ch); [|discriminate Hkey].
  injection Hkey as Hkey. now rewrite IH.
Qed.

Lemma take_alnum_split s :
  exists rest,
    s = FigmaService.take_alnum s ++ rest /\ FigmaService.take_alnum rest = "".
Proof.
  induction s as [|ch s (rest & Hs & Hrest)]; simpl.
  - now exists "".
  - destruct (FigmaService.is_alnum ch) eqn:E.
    + exists rest. split; [|exact Hrest].
      change (String ch s = String ch (FigmaService.take_alnum s ++ rest)).
      now f_equal.
    + exists (String ch s). simpl. now rewrite E.
Qed.

Lemma take_alnum_idempotent s :
  FigmaService.take_alnum (FigmaService.take_alnum s) = FigmaService.take_alnum s.
Proof.
  induction s as [|ch s IH]; simpl; [reflexivity|].
  destruct (FigmaService.is_alnum ch) eqn:E; simpl; [|reflexivity].
  now rewrite E, IH.
Qed.

Lemma strip_prefix_app p s r :
  FigmaService.strip_prefix p s = Some r <-> s = p ++ r.
Proof.
  revert s. induction p as [|a p IH]; intros s; simpl.
  - split; [now intros [= ->]|now intros ->].
  - destruct s as [|b s].
    + split; discriminate.
    + destruct (Ascii.eqb_spec a b) as [->|Hne].
      * rewrite IH. split; [now intros ->|now intros [= ->]].
      * split; [discriminate|]. intros [= Hab _]. now destruct Hne.
Qed.

(** Where the pattern matches at the head: [/file/], then at least one
    character of the class, the group being the longest such run. *)
Lemma file_key_here_some s key :
  FigmaService.file_key_here s = Some key
  <-> exists ch rest,
        s = "/file/" ++ String ch rest
        /\ FigmaService.is_alnum ch = true
        /\ key = FigmaService.take_alnum (String ch rest).
Proof.
  unfold FigmaService.file_key_here.
  destruct (FigmaService.strip_prefix "/file/" s) as [r|] eqn:E.
  - apply strip_prefix_app in E. subst s. split.
    + destruct r as [|ch r]; simpl; [discriminate|].
      destruct (FigmaService.is_alnum ch) eqn:Hch; simpl; [|discriminate].
      intros [= <-]. exists ch, r. simpl. now rewrite Hch.
    + intros (ch & rest & Heq & Hch & ->).
      cbv beta iota delta [String.append] in Heq.
      injection Heq as ->. simpl. now rewrite Hch.
  - split; [discriminate|].
    intros (ch & rest & -> & _).
    assert (FigmaService.strip_prefix "/file/" ("/file/" ++ String ch rest)
            = Some (String ch rest)) as H by now apply strip_prefix_app.
    rewrite H in E. discriminate E.
Qed.

Lemma match_file_key_some url key :
  FigmaService.match_file_key url = Some key ->
  exists pre s, url = pre ++ s /\ FigmaService.file_key_here s = Some key.
Proof.
  induction url as [|ch url IH].
  - discriminate.
  - cbn [FigmaService.match_file_key].
    destruct (FigmaService.file_key_here (String ch url)) eqn:E.
    + intros [= <-]. now exists "", (String ch url).
    + intros H. destruct (IH H) as (pre & s & -> & Hs).
      now exists (String ch pre), s.
Qed.

Lemma match_file_key_none url :
  FigmaService.match_file_key url = None
  <-> forall pre s, url = pre ++ s -> FigmaService.file_key_here s = None.
Proof.
  induction url as [|ch url IH].
  - cbn [FigmaService.match_file_key]. split.
    + intros H pre s Hs. destruct pre; [|discriminate Hs].
      change ("" = s) in Hs. now subst s.
    + intros H. now rewrite (H "" "" eq_refl).
  - cbn [FigmaService.match_file_key]. split.
    + intros H pre s Hs.
      destruct (FigmaService.file_key_here (String ch url)) eqn:E;
        [discriminate H|].
      destruct pre as [|a pre].
      * change (String ch url = s) in Hs. now subst s.
      * change (String ch url = String a (pre ++ s)) in Hs.
        injection Hs as _ Hs. now apply (proj1 IH H pre s).
    + intros H. rewrite (H "" (String ch url) eq_refl).
      apply IH. intros pre s Hs. apply (H (String ch pre) s).
      change (String ch url = String ch (pre ++ s)). now rewrite Hs.
Qed.

(** Whether the pattern matches at the head is settled by the first
    seven characters. *)
Lemma file_key_here_longer s t :
  (7 <= String.length s)%nat ->
  FigmaService.file_key_here s = None ->
  FigmaService.file_key_here (s ++ t) = None.
Proof.
  intros Hlen Hs.
  destruct (FigmaService.file_key_here (s ++ t)) as [key|] eqn:E; [|reflexivity].
  apply file_key_here_some in E. destruct E as (ch & rest & Hst & Hch & _).
  do 7 (destruct s as [|? s]; [simpl in Hlen; lia|]).
  cbv beta iota delta [String.append] in Hst.
  injection Hst as -> -> -> -> -> -> -> _.
  unfold FigmaService.file_key_here in Hs. simpl in Hs.
  rewrite Hch in Hs. discriminate Hs.
Qed.

Lemma string_app_assoc (s t u : string) : (s ++ t) ++ u = s ++ t ++ u.
Proof.
  induction s as [|a s IH]; [reflexivity|].
  change (String a ((s ++ t) ++ u) = String a (s ++ t ++ u)). now rewrite IH.
Qed.

Lemma string_length_app (s t : string) :
  String.length (s ++ t) = (String.length s + String.length t)%nat.
Proof.
  induction s as [|a s IH]; [reflexivity|].
  change (S (String.length (s ++ t)) = S (String.length s + String.length t)).
  now rewrite IH.
Qed.

Lemma match_file_key_leftmost pre key tail :
  FigmaService.match_file_key (pre ++ "/file/") = None ->
  FigmaService.file_key_here ("/file/" ++ tail) = Some key ->
  FigmaService.match_file_key (pre ++ "/file/" ++ tail) = Some key.
Proof.
  intros Hpre Hhere. induction pre as [|a pre IH].
  - change ("" ++ "/file/" ++ tail) with (String "/" ("file/" ++ tail)).
    cbn [FigmaService.match_file_key].
    change (String "/" ("file/" ++ tail)) with ("/file/" ++ tail).
    now rewrite Hhere.
  - change (String a pre ++ "/file/" ++ tail)
      with (String a (pre ++ "/file/" ++ tail)).
    change (String a pre ++ "/file/") with (String a (pre ++ "/file/")) in Hpre.
    cbn [FigmaService.match_file_key] in Hpre |- *.
    destruct (FigmaService.file_key_here (String a (pre ++ "/file/"))) eqn:E;
      [discriminate Hpre|].
    assert (FigmaService.file_key_here (String a (pre ++ "/file/" ++ tail)) = None)
      as ->.
    { change (String a (pre ++ "/file/" ++ tail))
        with (String a pre ++ "/file/" ++ tail).
      rewrite <- string_app_assoc. apply file_key_here_longer.
      - rewrite string_length_app. simpl. lia.
      - exact E. }
    now apply IH.
Qed.

(** X26: a URL made of any lead in which the pattern does not match,
    then [/file/], a non-empty key of letters and digits, and a rest
    that does not go on with a letter or digit, gives back its key. *)
Theorem X26_file_key_round_trip pre key rest :
  key <> "" ->
  FigmaService.take_alnum key = key ->
  FigmaService.take_alnum rest = "" ->
  FigmaService.match_file_key (pre ++ "/file/") = None ->
  FigmaService.extractFileKeyFromUrl (pre ++ "/file/" ++ key ++ rest) = Js.Ok key.
Proof.
  intros Hne Hkey Hrest Hpre. unfold FigmaService.extractFileKeyFromUrl.
  rewrite (match_file_key_leftmost pre key (key ++ rest)); [reflexivity|exact Hpre|].
  destruct key as [|ch key]; [now destruct Hne|].
  apply file_key_here_some. exists ch, (key ++ rest).
  split; [reflexivity|]. split.
  - simpl in Hkey. now destruct (FigmaService.is_alnum ch).
  - symmetry. now apply (take_alnum_app (String ch key) rest).
Qed.

(** X27: the call throws exactly when the URL holds no [/file/] that a
    letter or digit follows; the message is then the fixed one. *)
Theorem X27_invalid_url_throws_exactly url :
  FigmaService.extractFileKeyFromUrl url = Js.Throw "Invalid Figma URL format"
  <-> forall pre ch rest,
        url = pre ++ "/file/" ++ String ch rest ->
        FigmaService.is_alnum ch = false.
Proof.
  unfold FigmaService.extractFileKeyFromUrl. split.
  - destruct (FigmaService.match_file_key url) eqn:E; [discriminate|].
    intros _ pre ch rest Hurl.
    pose proof (proj1 (match_file_key_none url) E pre _ Hurl) as Hhere.
    destruct (FigmaService.is_alnum ch) eqn:Hch; [|reflexivity].
    assert (FigmaService.file_key_here ("/file/" ++ String ch rest)
            = Some (FigmaService.take_alnum (String ch rest))) as H.
    { apply file_key_here_some. now exists ch, rest. }
    rewrite H in Hhere. discriminate Hhere.
  - intros H.
    destruct (FigmaService.match_file_key url) as [key|] eqn:E; [|reflexivity].
    apply match_file_key_some in E. destruct E as (pre & s & Hurl & Hs).
    apply file_key_here_some in Hs. destruct Hs as (ch & rest & -> & Hch & _).
    rewrite (H pre ch rest Hurl) in Hch. discriminate Hch.
Qed.

(** X28: a key that is returned is never empty, is made of letters and
    digits only, stands in the URL right after a [/file/], and is the
    whole run of letters and digits there. *)
Theorem X28_returned_file_key url key :
  FigmaService.extractFileKeyFromUrl url = Js.Ok key ->
  key <> ""
  /\ FigmaService.take_alnum key = key
  /\ exists pre rest,
       url = pre ++ "/file/" ++ key ++ rest
       /\ FigmaService.take_alnum rest = "".
Proof.
  unfold FigmaService.extractFileKeyFromUrl.
  destruct (FigmaService.match_file_key url) as [k|] eqn:E; [|discriminate].
  intros [= ->].
  apply match_file_key_some in E. destruct E as (pre & s & -> & Hs).
  apply file_key_here_some in Hs. destruct Hs as (ch & tail & -> & Hch & ->).
  split; [|split].
  - simpl. now rewrite Hch.
  - apply take_alnum_idempotent.
  - destruct (take_alnum_split (String ch tail)) as (rest & Hsplit & Hrest).
    exists pre, rest. split; [|exact Hrest]. now rewrite <- Hsplit.
Qed.

(** X26 at work on a share link. *)
Lemma X26_round_trip_witness :
  FigmaService.extractFileKeyFromUrl
    "https://www.figma.com/file/aB3xY9/Design-System?node-id=1%3A2"
  = Js.Ok "aB3xY9".
Proof.
  apply (X26_file_key_round_trip "https://www.figma.com" "aB3xY9"
           "/Design-System?node-id=1%3A2").
  - discriminate.
  - reflexivity.
  - reflexivity.
  - reflexivity.
Defined.

(** X28 at work: the first [/file/] with a letter or digit after it
    decides. *)
Lemma X28_returned_key_witness :
  FigmaService.extractFileKeyFromUrl "x/file//file/k1-2/file/zz" = Js.Ok "k1"
  /\ "k1" <> ""
  /\ FigmaService.take_alnum "k1" = "k1"
  /\ exists pre rest,
       "x/file//file/k1-2/file/zz" = pre ++ "/file/" ++ "k1" ++ rest
       /\ FigmaService.take_alnum rest = "".
Proof.
  split; [reflexivity|].
  apply (X28_returned_file_key "x/file//file/k1-2/file/zz" "k1").
  reflexivity.
Defined.

(** ** Cache: the bound over runs of any calls *)

Section CacheCalls.
Context {V : Type}.
Implicit Types (c : Cache.t V) (key : string) (call : Cache.Call V).

Lemma kept_refl c : Cache.inv c -> Cache.kept c c.
Proof. intros H. split; [exact H|]. split; [lia|]. now split. Qed.

Lemma kept_delete key c : Cache.inv c -> Cache.kept c (snd (Cache.delete key c)).
Proof.
  intros Hinv. destruct (JsMap.has key (Cache.data c)) eqn:E.
  - assert (Hin : In key (Cache.insertionOrder c)).
    { destruct Hinv as (Hd & _). rewrite <- Hd. now apply jsmap_has_in_keys. }
    destruct (inv_delete key c Hinv Hin) as (I1 & I2 & I3 & I4 & _).
    split; [exact I1|]. split; [lia|]. now split.
  - unfold Cache.delete. rewrite E. now apply kept_refl.
Qed.

Lemma kept_trans c c1 c2 : Cache.kept c c1 -> Cache.kept c1 c2 -> Cache.kept c c2.
Proof.
  intros (_ & A2 & A3 & A4) (B1 & B2 & B3 & B4).
  split; [exact B1|]. split; [lia|]. split; congruence.
Qed.

Lemma kept_delete_all (keys : list string) :
  forall c, Cache.inv c ->
            Cache.kept c (fold_left (fun c' k => snd (Cache.delete k c')) keys c).
Proof.
  induction keys as [|k keys IH]; intros c Hinv; simpl.
  - now apply kept_refl.
  - pose proof (kept_delete k c Hinv) as H1.
    apply (kept_trans _ _ _ H1). apply IH. now destruct H1.
Qed.

(** A key found in [data] is tracked by the other two maps. *)
Lemma tracked_key key c item :
  Cache.inv c -> JsMap.get key (Cache.data c) = Some item ->
  JsMap.has key (Cache.data c) = true
  /\ JsMap.has key (Cache.accessTimes c) = true
  /\ JsMap.has key (Cache.accessCounts c) = true.
Proof.
  intros (Hd & Ht & Hc & _) Hget.
  assert (H : JsMap.has key (Cache.data c) = true)
    by now apply (cache_get_has key c item).
  split; [exact H|].
  apply jsmap_has_in_keys in H. rewrite Hd in H.
  split; apply jsmap_has_in_keys; [now rewrite Ht|now rewrite Hc].
Qed.

(** Every call but [set] leaves the shape of the cache intact and does
    not add an entry. *)
Lemma kept_call call c :
  Cache.inv c ->
  match call with Cache.CallSet _ _ _ _ _ => False | _ => True end ->
  Cache.kept c (Cache.do_call c call).
Proof.
  intros Hinv Hcall.
  destruct call as [now now_evict key v customTtl|now now_access key|now key
                   |key| |now|now key customTtl|now now_access key];
    cbn [Cache.do_call].
  - contradiction.
  - unfold Cache.get.
    destruct (JsMap.get key (Cache.data c)) as [item|] eqn:E;
      [|exact (kept_refl c Hinv)].
    destruct (now >? Cache.expiresAt item).
    + exact (kept_delete key c Hinv).
    + destruct (tracked_key key c item Hinv E) as (_ & Ht & Hc).
      destruct Hinv as (Id & It & Ic & Ind & Itr).
      cbn [snd]. unfold Cache.kept, Cache.inv, Cache.size, Cache.bump.
      cbn [Cache.data Cache.accessTimes Cache.accessCounts Cache.insertionOrder
           Cache.maxSize Cache.strategy].
      rewrite !jsmap_keys_set_has by assumption.
      repeat split; try assumption; lia.
  - unfold Cache.has.
    destruct (JsMap.get key (Cache.data c)) as [item|] eqn:E;
      [|now apply kept_refl].
    destruct (now >? Cache.expiresAt item).
    + exact (kept_delete key c Hinv).
    + now apply kept_refl.
  - exact (kept_delete key c Hinv).
  - unfold Cache.kept, Cache.inv, Cache.size, Cache.clear, JsMap.size.
    cbn [Cache.data Cache.accessTimes Cache.accessCounts Cache.insertionOrder
         Cache.maxSize Cache.strategy].
    repeat split; try constructor. simpl. lia.
  - unfold Cache.cleanup. now apply kept_delete_all.
  - unfold Cache.touch.
    destruct (JsMap.get key (Cache.data c)) as [item|] eqn:E;
      [|now apply kept_refl].
    destruct (tracked_key key c item Hinv E) as (Hd & Ht & _).
    destruct Hinv as (Id & It & Ic & Ind & Itr).
    cbn [snd]. unfold Cache.kept, Cache.inv, Cache.size.
    cbn [Cache.data Cache.accessTimes Cache.accessCounts Cache.insertionOrder
         Cache.maxSize Cache.strategy].
    rewrite jsmap_size_set_has by assumption.
    rewrite !jsmap_keys_set_has by assumption.
    repeat split; try assumption; lia.
  - unfold Cache.getWithMetadata.
    destruct (JsMap.get key (Cache.data c)) as [item|] eqn:E;
      [|now apply kept_refl].
    destruct (now >? Cache.expiresAt item).
    + exact (kept_delete key c Hinv).
    + destruct (tracked_key key c item Hinv E) as (_ & Ht & Hc).
      destruct Hinv as (Id & It & Ic & Ind & Itr).
      cbn [snd]. unfold Cache.kept, Cache.inv, Cache.size, Cache.bump.
      cbn [Cache.data Cache.accessTimes Cache.accessCounts Cache.insertionOrder
           Cache.maxSize Cache.strategy].
      rewrite !jsmap_keys_set_has by assumption.
      repeat split; try assumption; lia.
Qed.

(** One call keeps the bound, provided that a [set] on a full cache
    finds a victim. *)
Lemma call_keeps_bound call c :
  Cache.inv c ->
  Cache.sets_named_key call = true ->
  1 <= Cache.maxSize c ->
  Cache.size c <= Cache.maxSize c ->
  (forall now now_evict key v customTtl,
      call = Cache.CallSet now now_evict key v customTtl ->
      Cache.maxSize c <= Cache.size c -> Cache.victim_available now_evict c) ->
  let c' := Cache.do_call c call in
  Cache.inv c'
  /\ Cache.size c' <= Cache.maxSize c'
  /\ Cache.maxSize c' = Cache.maxSize c
  /\ Cache.strategy c' = Cache.strategy c.
Proof.
  intros Hinv Hkey Hmax Hsize Hav. cbv zeta.
  assert (Hother :
    match call with Cache.CallSet _ _ _ _ _ => False | _ => True end ->
    Cache.inv (Cache.do_call c call)
    /\ Cache.size (Cache.do_call c call) <= Cache.maxSize (Cache.do_call c call)
    /\ Cache.maxSize (Cache.do_call c call) = Cache.maxSize c
    /\ Cache.strategy (Cache.do_call c call) = Cache.strategy c).
  { intros H. destruct (kept_call call c Hinv H) as (K1 & K2 & K3 & K4).
    split; [exact K1|]. split; [lia|]. now split. }
  destruct call as [now now_evict key v customTtl| | | | | | | ];
    try (apply Hother; exact I).
  cbn [Cache.do_call].
  destruct (cache_set_keeps_bound now now_evict key v customTtl c Hinv Hkey
              Hmax Hsize (Hav now now_evict key v customTtl eq_refl))
    as (S1 & S2 & S3 & S4 & _).
  split; [exact S1|]. split; [exact S2|]. now split.
Qed.

(** X29: under FIFO and LFU, and with no [set] under the empty key, the
    number of entries never exceeds [maxSize] after any run of [set],
    [get], [has], [delete], [clear], [cleanup], [touch] and
    [getWithMetadata] calls on a new cache, whatever the clock reads. *)
Theorem X29_bound_holds_over_any_calls (options : Cache.Options)
        (calls : list (Cache.Call V)) :
  let c0 := Cache.new options in
  Cache.strategy c0 = "fifo" \/ Cache.strategy c0 = "lfu" ->
  1 <= Cache.maxSize c0 ->
  forallb Cache.sets_named_key calls = true ->
  Cache.size (Cache.run_calls calls c0) <= Cache.maxSize c0.
Proof.
  cbv zeta. intros Hstrat Hmax Hkeys.
  assert (H0 : Cache.inv (Cache.new (V := V) options)
               /\ Cache.size (Cache.new (V := V) options)
                  <= Cache.maxSize (Cache.new (V := V) options))
    by (split; [apply inv_new|unfold Cache.size, JsMap.size; simpl in *; lia]).
  revert H0 Hstrat Hmax.
  generalize (Cache.new (V := V) options) as c.
  induction calls as [|call calls IH]; intros c [Hinv Hsize] Hstrat Hmax.
  - exact Hsize.
  - change (Cache.run_calls (call :: calls) c)
      with (Cache.run_calls calls (Cache.do_call c call)).
    cbn [forallb] in Hkeys. apply andb_prop in Hkeys. destruct Hkeys as [Hkey Hkeys].
    destruct (call_keeps_bound call c Hinv Hkey Hmax Hsize) as (I1 & I2 & I3 & I4).
    { intros. destruct Hstrat as [H'|H']; [now left|right; now left]. }
    rewrite <- I3. apply (IH Hkeys).
    + split; assumption.
    + now rewrite I4.
    + now rewrite I3.
Qed.

Lemma times_bounded_set key (now last : Z) (m : JsMap.t Z) :
  Forall (fun kt => snd kt <= last) m -> last <= now ->
  Forall (fun kt => snd kt <= now) (JsMap.set key now m).
Proof.
  intros Hall Hle. induction m as [|[k x] m IH]; simpl.
  - constructor; [simpl; lia|constructor].
  - inversion Hall as [|? ? Hx Hm]; subst. simpl in Hx.
    destruct (String.eqb key k).
    + constructor; [simpl; lia|].
      rewrite Forall_forall in Hm |- *. intros kt Hkt.
      specialize (Hm kt Hkt). lia.
    + constructor; [simpl; lia|]. now apply IH.
Qed.

Lemma times_bounded_later (last now : Z) (m : JsMap.t Z) :
  Forall (fun kt => snd kt <= last) m -> last <= now ->
  Forall (fun kt => snd kt <= now) m.
Proof.
  rewrite !Forall_forall. intros H Hle kt Hkt. specialize (H kt Hkt). lia.
Qed.

Lemma times_bounded_delete key c last :
  Forall (fun kt => snd kt <= last) (Cache.accessTimes c) ->
  Forall (fun kt => snd kt <= last) (Cache.accessTimes (snd (Cache.delete key c))).
Proof.
  intros H. unfold Cache.delete.
  destruct (JsMap.has key (Cache.data c)); [|exact H].
  cbn [snd Cache.accessTimes]. now apply forall_delete.
Qed.

Lemma times_bounded_delete_all (keys : list string) last :
  forall c,
    Forall (fun kt => snd kt <= last) (Cache.accessTimes c) ->
    Forall (fun kt => snd kt <= last)
           (Cache.accessTimes
              (fold_left (fun c' k => snd (Cache.delete k c')) keys c)).
Proof.
  induction keys as [|k keys IH]; intros c H; simpl; [exact H|].
  apply IH. now apply times_bounded_delete.
Qed.

(** No call stores an access time later than the one it reads. *)
Lemma call_times_bounded call c last :
  Forall (fun kt => snd kt <= last) (Cache.accessTimes c) ->
  match Cache.stored_time call with Some time => last <= time | None => True end ->
  Forall (fun kt => snd kt
                    <= match Cache.stored_time call with
                       | Some time => time
                       | None => last
                       end)
         (Cache.accessTimes (Cache.do_call c call)).
Proof.
  intros Hall Hle.
  destruct call as [now now_evict key v customTtl|now now_access key|now key
                   |key| |now|now key customTtl|now now_access key];
    cbn [Cache.do_call Cache.stored_time] in *.
  - now apply (set_access_times_bounded _ _ _ _ _ _ last).
  - unfold Cache.get.
    destruct (JsMap.get key (Cache.data c)) as [item|];
      [|now apply (times_bounded_later last)].
    destruct (now >? Cache.expiresAt item).
    + apply (times_bounded_later last); [|exact Hle].
      exact (times_bounded_delete key c last Hall).
    + cbn [snd Cache.accessTimes]. now apply (times_bounded_set _ _ last).
  - unfold Cache.has.
    destruct (JsMap.get key (Cache.data c)) as [item|]; [|exact Hall].
    destruct (now >? Cache.expiresAt item); [|exact Hall].
    now apply times_bounded_delete.
  - now apply times_bounded_delete.
  - constructor.
  - unfold Cache.cleanup. now apply times_bounded_delete_all.
  - unfold Cache.touch.
    destruct (JsMap.get key (Cache.data c)) as [item|];
      [|now apply (times_bounded_later last)].
    cbn [snd Cache.accessTimes]. now apply (times_bounded_set _ _ last).
  - unfold Cache.getWithMetadata.
    destruct (JsMap.get key (Cache.data c)) as [item|];
      [|now apply (times_bounded_later last)].
    destruct (now >? Cache.expiresAt item).
    + apply (times_bounded_later last); [|exact Hle].
      exact (times_bounded_delete key c last Hall).
    + cbn [snd Cache.accessTimes]. now apply (times_bounded_set _ _ last).
Qed.

(** X30: on a clock that moves on between calls, and with no [set]
    under the empty key, the number of entries never exceeds [maxSize]
    after any run of calls on a new cache, under each of the policies,
    LRU included. *)
Theorem X30_bound_holds_on_a_moving_clock (options : Cache.Options)
        (calls : list (Cache.Call V)) (start : Z) :
  let c0 := Cache.new options in
  1 <= Cache.maxSize c0 ->
  forallb Cache.sets_named_key calls = true ->
  Cache.calls_clock_advances start calls ->
  Cache.size (Cache.run_calls calls c0) <= Cache.maxSize c0.
Proof.
  cbv zeta. intros Hmax Hkeys Hclock.
  assert (H0 : Cache.inv (Cache.new (V := V) options)
               /\ Cache.size (Cache.new (V := V) options)
                  <= Cache.maxSize (Cache.new (V := V) options)
               /\ Forall (fun kt => snd kt <= start)
                         (Cache.accessTimes (Cache.new (V := V) options))).
  { split; [apply inv_new|]. split; [|constructor].
    unfold Cache.size, JsMap.size; simpl in *; lia. }
  revert H0 Hmax Hclock.
  generalize (Cache.new (V := V) options) as c. generalize start as last.
  induction calls as [|call calls IH];
    intros last c (Hinv & Hsize & Hall) Hmax Hclock.
  - exact Hsize.
  - change (Cache.run_calls (call :: calls) c)
      with (Cache.run_calls calls (Cache.do_call c call)).
    cbn [forallb] in Hkeys. apply andb_prop in Hkeys. destruct Hkeys as [Hkey Hkeys].
    cbn [Cache.calls_clock_advances] in Hclock.
    assert (Hreads :
      match Cache.stored_time call with Some time => last <= time | None => True end
      /\ (forall now now_evict key v customTtl,
             call = Cache.CallSet now now_evict key v customTtl -> last < now_evict)
      /\ Cache.calls_clock_advances
           (match Cache.stored_time call with Some time => time | None => last end)
           calls).
    { destruct (Cache.stored_time call) as [time|] eqn:E.
      - destruct Hclock as (H1 & H2 & H3). split; [exact H1|]. split; [|exact H3].
        intros now now_evict key v customTtl ->. exact H2.
      - split; [exact I|]. split; [|exact Hclock].
        intros now now_evict key v customTtl ->. discriminate E. }
    destruct Hreads as (Hle & Hevict & Hrest).
    destruct (call_keeps_bound call c Hinv Hkey Hmax Hsize) as (I1 & I2 & I3 & I4).
    { intros now now_evict key v customTtl Hcall Hfull. right; right.
      specialize (Hevict _ _ _ _ _ Hcall).
      destruct Hinv as (Hd & Ht & _).
      unfold Cache.size in Hfull. rewrite jsmap_size_keys, Hd, <- Ht in Hfull.
      destruct (Cache.accessTimes c) as [|[k x] m]; [simpl in Hfull; lia|].
      inversion Hall as [|? ? Hx _]; subst. simpl in Hx.
      left. simpl. lia. }
    rewrite <- I3. apply (IH Hkeys _ _ (conj I1 (conj I2
                             (call_times_bounded call c last Hall Hle)))).
    + now rewrite I3.
    + exact Hrest.
Qed.

End CacheCalls.

(** X29 at work: six calls on a FIFO cache of two entries. *)
Lemma X29_bound_witness :
  let calls :=
    [Cache.CallSet 5 5 "a" 1%nat None; Cache.CallSet 5 5 "b" 2%nat None;
     Cache.CallGet 5 5 "a"; Cache.CallSet 5 5 "c" 3%nat None;
     Cache.CallTouch 5 "b" None; Cache.CallSet 5 5 "d" 4%nat None] in
  Cache.size
    (Cache.run_calls calls
       (Cache.new (Cache.mkOptions (Some 2) None (Some "fifo")))) <= 2.
Proof.
  cbv zeta.
  apply (X29_bound_holds_over_any_calls
           (Cache.mkOptions (Some 2) None (Some "fifo"))).
  - left. reflexivity.
  - simpl. lia.
  - reflexivity.
Defined.

(** X30 at work: the same calls on an LRU cache, one millisecond apart. *)
Lemma X30_moving_clock_witness :
  let calls :=
    [Cache.CallSet 1 1 "a" 1%nat None; Cache.CallSet 2 2 "b" 2%nat None;
     Cache.CallGet 3 3 "a"; Cache.CallSet 4 4 "c" 3%nat None;
     Cache.CallTouch 5 "b" None; Cache.CallSet 6 6 "d" 4%nat None] in
  Cache.size
    (Cache.run_calls calls
       (Cache.new (Cache.mkOptions (Some 2) None None))) <= 2.
Proof.
  cbv zeta.
  apply (X30_bound_holds_on_a_moving_clock
           (Cache.mkOptions (Some 2) None None) _ 0).
  - simpl. lia.
  - reflexivity.
  - simpl. lia.
Defined.
